(** * snob: minimum-message-length search for Gaussian mixtures

    A shallow embedding of [snob/mixture_ka.py] and [snob/mixture_search.py]
    and the properties of the specification checked against it.

    Conventions of the embedding.
    - A numpy float is a real number of [R]; a one-dimensional array is a
      [list R], a two-dimensional array the list of its rows.  IEEE rounding,
      infinities and NaN are outside the model.  numpy does not raise on a
      division by zero or on the logarithm of a number that is not positive:
      it gives [inf] or [nan], which the program rejects later (an
      [assert np.isfinite(..)], a [LinAlgError]) or returns.  Here [x / 0] and
      [ln 0] are real numbers and those assertions are not written out, so
      the model can return where the program raises.  The properties are
      therefore stated for what a call returns, or under hypotheses that keep
      every divisor and every argument of a logarithm away from 0, and the
      worked examples are runs in which none of them vanishes.
    - The dense linear-algebra routines of numpy and scipy (LAPACK) are an
      interface, [Backend]; the functions of the program are stated for an
      arbitrary backend.
    - A Python exception is a value of [exn]; a function that can raise returns
      a [result].
    - A [str] is the [string] of its code points, which are below 256.
    - Shapes are as the callers pass them: [mu], [cov], [weight] and the rows
      of a responsibility matrix all have one entry per component, and a row
      of the responsibility matrix has one entry per observation.  *)

From Stdlib Require Import Reals Lra Lia String Ascii Bool Arith List.
Import ListNotations.
Local Open Scope R_scope.

(* ===================================================================== *)
(** * Part I: definitions                                                 *)
(* ===================================================================== *)

(** ** Exceptions *)

Inductive exn : Type :=
| ValueError
| NotImplementedError
| AssertionError
| NameError
| IndexError
| AttributeError.

Definition result (A : Type) : Type := (A + exn)%type.

Definition ret {A : Type} (a : A) : result A := inl a.
Definition raise {A : Type} (e : exn) : result A := inr e.

Definition bind {A B : Type} (c : result A) (k : A -> result B) : result B :=
  match c with
  | inl a => k a
  | inr e => inr e
  end.

Declare Scope result_scope.
Delimit Scope result_scope with result.
Notation "x <- c ;; k" := (bind c (fun x => k))
  (at level 61, c at next level, right associativity) : result_scope.
Notation "' p <- c ;; k" := (bind c (fun x => let 'p := x in k))
  (at level 61, p pattern, c at next level, right associativity) : result_scope.

(** [assert b] *)
Definition assert (b : bool) : result unit :=
  if b then ret tt else raise AssertionError.

(** ** Comparisons on floats *)

Definition Rltb (x y : R) : bool := if Rlt_dec x y then true else false.
Definition Rleb (x y : R) : bool := if Rle_dec x y then true else false.

(** A float that may be [np.inf]: the initial value of a running minimum. *)
Inductive ext : Type :=
| Fin (r : R)
| Inf.

(** [a < b] on such values. *)
Definition ext_ltb (a b : ext) : bool :=
  match a, b with
  | Fin x, Fin y => Rltb x y
  | Fin _, Inf => true
  | Inf, _ => false
  end.

Definition ext_lt (a b : ext) : Prop :=
  match a, b with
  | Fin x, Fin y => x < y
  | Fin _, Inf => True
  | Inf, _ => False
  end.

(** ** Arrays *)

Definition vec : Type := list R.
Definition mat : Type := list vec.

Fixpoint map2 {A B C : Type} (f : A -> B -> C) (xs : list A) (ys : list B)
  : list C :=
  match xs, ys with
  | x :: xs', y :: ys' => f x y :: map2 f xs' ys'
  | _, _ => []
  end.

(** [np.sum] of a one-dimensional array *)
Definition np_sum (v : vec) : R := fold_right Rplus 0 v.

Definition zeros (n : nat) : vec := repeat 0 n.
Definition ones (n : nat) : vec := repeat 1 n.

Definition vadd : vec -> vec -> vec := map2 Rplus.
Definition vsub : vec -> vec -> vec := map2 Rminus.
Definition vmul : vec -> vec -> vec := map2 Rmult.
Definition vdiv : vec -> vec -> vec := map2 Rdiv.
Definition vscale (c : R) (v : vec) : vec := map (Rmult c) v.

(** [np.dot] of two vectors *)
Definition dot (a b : vec) : R := np_sum (vmul a b).

(** [np.sum(m, axis=1)]: one sum per row *)
Definition sum_axis1 (m : mat) : vec := map np_sum m.

(** [np.sum(m, axis=0)] of an array of shape [(_, n)]: one sum per column *)
Definition sum_axis0 (n : nat) (m : mat) : vec := fold_right vadd (zeros n) m.

(** column [i] of a two-dimensional array *)
Definition col (i : nat) (m : mat) : vec := map (fun row => nth i row 0) m.

Definition ncols (m : mat) : nat :=
  match m with
  | [] => 0%nat
  | row :: _ => length row
  end.

(** [y.shape] *)
Definition shape (y : mat) : nat * nat := (length y, ncols y).

Definition transpose (m : mat) : mat :=
  map (fun j => col j m) (seq 0 (ncols m)).

(** [np.dot(a, x)] of a matrix and a vector *)
Definition matvec (a : mat) (x : vec) : vec := map (fun row => dot row x) a.

(** [np.dot(x, a)] of a vector and a matrix *)
Definition vecmat (x : vec) (a : mat) : vec := matvec (transpose a) x.

(** [np.dot(a, b)] of two matrices *)
Definition matmul (a b : mat) : mat := map (fun row => vecmat row b) a.

Definition madd : mat -> mat -> mat := map2 vadd.
Definition mscale (c : R) (m : mat) : mat := map (vscale c) m.
Definition mdiv (m : mat) (c : R) : mat := map (map (fun x => x / c)) m.

(** [np.eye(d)] *)
Definition eye (d : nat) : mat :=
  map (fun i => map (fun j => if Nat.eqb i j then 1 else 0) (seq 0 d)) (seq 0 d).

(** [np.diag(v)] of a vector: the diagonal matrix *)
Definition np_diag (v : vec) : mat :=
  map (fun i => map (fun j => if Nat.eqb i j then nth i v 0 else 0)
                    (seq 0 (length v)))
      (seq 0 (length v)).

(** [np.diag(m)] of a matrix: its diagonal *)
Definition diagonal (m : mat) : vec :=
  map (fun i => nth i (nth i m []) 0) (seq 0 (length m)).

(** [np.trace] *)
Definition trace (m : mat) : R := np_sum (diagonal m).

(** the outer product [x y^T] *)
Definition outer (x y : vec) : mat := map (fun xi => vscale xi y) x.

(** [np.clip(x, lo, hi)], that is [minimum(maximum(x, lo), hi)] *)
Definition np_clip (x lo hi : R) : R := Rmin (Rmax x lo) hi.

(** [np.delete(l, i, axis=0)] *)
Definition np_delete {A : Type} (l : list A) (i : nat) : list A :=
  firstn i l ++ skipn (S i) l.

(** [l[i] = v] on an array, in range *)
Definition set_item {A : Type} (l : list A) (i : nat) (v : A) : list A :=
  firstn i l ++ v :: skipn (S i) l.

(** [np.sum(w * y.T, axis=1)]: the sum of the rows of [y] weighted by [w] *)
Definition weighted_sum (d : nat) (w : vec) (y : mat) : vec :=
  fold_right vadd (zeros d) (map2 vscale w y).

(** [np.dot(w * offset.T, offset)]: the scatter matrix
    [sum_i w_i offset_i offset_i^T] *)
Definition scatter (d : nat) (w : vec) (offset : mat) : mat :=
  fold_right madd (repeat (zeros d) d)
             (map2 (fun wi o => outer (vscale wi o) o) w offset).

(** [y - m] with the row [m] broadcast over the rows of [y] *)
Definition sub_row (y : mat) (m : vec) : mat := map (fun yi => vsub yi m) y.

(** The first index of the least entry ([np.argmin], [np.nanargmin] and
    Python's [min] all keep the first of equal entries). *)
Fixpoint argmin_from (best : nat) (vbest : ext) (i : nat) (l : list ext) : nat :=
  match l with
  | [] => best
  | x :: l' =>
      if ext_ltb x vbest then argmin_from i x (S i) l'
      else argmin_from best vbest (S i) l'
  end.

Definition np_argmin (l : list ext) : nat :=
  match l with
  | [] => 0%nat
  | x :: l' => argmin_from 0 x 1 l'
  end.

(** [eps = (7./3 - 4./3 - 1)]: in IEEE double arithmetic this expression is
    the machine precision, 2^-52 (in exact arithmetic it would be 0). *)
Definition eps : R := / 2 ^ 52.

(** ** The linear-algebra backend *)

Class Backend : Type := {
  (** [np.linalg.svd(a)]: [(U, S, V)] with [a = U diag(S) V] *)
  linalg_svd : mat -> mat * vec * mat;
  (** [np.linalg.det(a)] *)
  linalg_det : mat -> R;
  (** [scipy.linalg.cholesky(a, lower=True)]; [None] is [LinAlgError] *)
  linalg_cholesky : mat -> option mat;
  (** [scipy.linalg.solve_triangular(a, b, lower=True)] *)
  linalg_solve_triangular : mat -> mat -> mat
}.

(** [np.dot(np.dot(V.T, np.linalg.inv(np.diag(S))), U.T)]; the inverse of the
    diagonal matrix [diag(S)] is [diag(1/S)]. *)
Definition svd_inverse `{Backend} (c : mat) : mat :=
  let '(U, s, V) := linalg_svd c in
  matmul (matmul (transpose V) (np_diag (map Rinv s))) (transpose U).

(** The backend on one-dimensional data: a covariance is a 1x1 matrix
    [[a]] with [a > 0], whose singular value decomposition is
    [1 * a * 1], whose determinant is [a] and whose Cholesky factor is
    [sqrt a]. *)
Definition entry11 (a : mat) : R := nth 0 (nth 0 a []) 0.

#[export] Instance backend_1d : Backend := {
  linalg_svd a := ([[1]], [entry11 a], [[1]]);
  linalg_det a := entry11 a;
  linalg_cholesky a :=
    if Rltb 0 (entry11 a) then Some [[sqrt (entry11 a)]] else None;
  linalg_solve_triangular a b := mdiv b (entry11 a)
}.

(** ** Strings *)

Local Open Scope string_scope.

(** A [str] is the [string] of its code points, which are below 256.

    The white space [str.strip] removes is what [str.isspace] accepts; below
    256 that is the space, the controls 9 to 13 (tab, newline, VT, FF,
    return), the separators 28 to 31, NEL (133) and the no-break space
    (160). *)
Definition is_space (c : ascii) : bool :=
  let n := nat_of_ascii c in
  Nat.eqb n 32 || (Nat.leb 9 n && Nat.leb n 13)
  || (Nat.leb 28 n && Nat.leb n 31) || Nat.eqb n 133 || Nat.eqb n 160.

Fixpoint lstrip (s : string) : string :=
  match s with
  | EmptyString => EmptyString
  | String c s' => if is_space c then lstrip s' else s
  end.

Fixpoint rstrip (s : string) : string :=
  match s with
  | EmptyString => EmptyString
  | String c s' =>
      match rstrip s' with
      | EmptyString => if is_space c then EmptyString else String c EmptyString
      | r => String c r
      end
  end.

(** [s.strip()] *)
Definition strip (s : string) : string := rstrip (lstrip s).

(** The upper-case letters below 256 are [A] to [Z] (65 to 90) and the
    accented capitals 192 to 222 without the multiplication sign (215); the
    lower-case letter of each is 32 code points further. *)
Definition lower_char (c : ascii) : ascii :=
  let n := nat_of_ascii c in
  if (Nat.leb 65 n && Nat.leb n 90)
     || (Nat.leb 192 n && Nat.leb n 222 && negb (Nat.eqb n 215))
  then ascii_of_nat (n + 32) else c.

(** [s.lower()] *)
Fixpoint lower (s : string) : string :=
  match s with
  | EmptyString => EmptyString
  | String c s' => String (lower_char c) (lower s')
  end.

(** [x in t] for a tuple of strings [t] *)
Definition in_tuple (x : string) (t : list string) : bool :=
  existsb (String.eqb x) t.

(** [x in s] for a string [s]: [x] occurs in [s] *)
Fixpoint in_str (x s : string) : bool :=
  prefix x s ||
  match s with
  | EmptyString => false
  | String _ s' => in_str x s'
  end.

Local Close Scope string_scope.

(** ** Broadcasting *)

(** An argument that is either a scalar or an array with one entry per
    observation ([parent_responsibility=1] by default). *)
Inductive broadcast : Type :=
| Scalar (r : R)
| Array (v : vec).

(** [b * row] *)
Definition bmul (b : broadcast) (row : vec) : vec :=
  match b with
  | Scalar r => vscale r row
  | Array v => vmul v row
  end.

(** [meta = dict(warnflag=.., log_likelihood=..)] *)
Record Meta (L : Type) : Type := {
  warnflag : bool;
  log_likelihood : L
}.
Arguments warnflag {L} _.
Arguments log_likelihood {L} _.

(** the three keys of [best_perturbations] *)
Inductive operation : Type :=
| split
| delete
| merge.

Definition operation_eqb (a b : operation) : bool :=
  match a, b with
  | split, split | delete, delete | merge, merge => true
  | _, _ => false
  end.

(** ** [collections.defaultdict(lambda: [np.inf])]

    The dictionary is kept in insertion order, the order in which Python
    iterates over it.  A value is either the default [[np.inf]] ([None]) or
    the list [[m] + list(r)] of an index and a perturbation result. *)
Section DefaultDict.
Variable V : Type.

Definition defaultdict : Type := list (operation * option V).

Fixpoint dd_find (d : defaultdict) (k : operation) : option (option V) :=
  match d with
  | [] => None
  | (k', v) :: d' => if operation_eqb k k' then Some v else dd_find d' k
  end.

(** [d[k]] when read: a missing key is inserted with the default *)
Definition dd_get (d : defaultdict) (k : operation)
  : option V * defaultdict :=
  match dd_find d k with
  | Some v => (v, d)
  | None => (None, d ++ [(k, None)])
  end.

(** [d[k] = v] *)
Fixpoint dd_set (d : defaultdict) (k : operation) (v : option V)
  : defaultdict :=
  match d with
  | [] => [(k, v)]
  | (k', v') :: d' =>
      if operation_eqb k k' then (k', v) :: d' else (k', v') :: dd_set d' k v
  end.
End DefaultDict.
Arguments dd_find {V} _ _.
Arguments dd_get {V} _ _.
Arguments dd_set {V} _ _ _.

(* ===================================================================== *)
(** ** snob/mixture_ka.py                                                 *)
(* ===================================================================== *)

Module mixture_ka.
Section Program.
Context `{Backend}.

(** *** [class GaussianMixture] *)

(** The attributes of an instance; [None] is an attribute not assigned
    yet. *)
Record GaussianMixture : Type := {
  _y : option mat;
  _covariance_type : option string
}.

Definition available : list string :=
  ["free"; "diag"; "tied"; "tied_diag"]%string.

(** [GaussianMixture.__init__(self, y, covariance_type="free")]: the
    instance after the call and the outcome of the call. *)
Definition __init__ (self : GaussianMixture) (y : mat)
    (covariance_type : string) : GaussianMixture * result unit :=
  let covariance_type := lower (strip covariance_type) in
  if negb (in_tuple covariance_type available) then
    (self, raise ValueError)
  else if negb (in_tuple covariance_type ["free"; "tied"]%string) then
    (self, raise NotImplementedError)
  else
    ({| _y := Some y; _covariance_type := Some covariance_type |}, ret tt).

(** *** [responsibility_matrix(y, mu, cov, weight, full_output=True)] *)
Definition responsibility_matrix (y mu : mat) (cov : list mat) (weight : vec)
  : mat * mat * vec :=
  let '(N, D) := shape y in
  let scalar := Rpower (2 * PI) (- INR D / 2) in
  let numerator :=
    map (fun '(mu_k, cov_k, weight_k) =>
           let Cinv := svd_inverse cov_k in
           let O := sub_row y mu_k in
           map (fun o => scalar * weight_k * Rpower (linalg_det cov_k) (-0.5)
                         * exp (-0.5 * dot o (matvec Cinv o))) O)
        (combine (combine mu cov) weight) in
  let denominator :=
    map (fun s => np_clip s eps 10e8) (sum_axis0 N numerator) in
  let responsibility :=
    map (fun row => map (fun x => np_clip x eps 1) (vdiv row denominator))
        numerator in
  let total := sum_axis0 N responsibility in
  let responsibility := map (fun row => vdiv row total) responsibility in
  (responsibility, numerator, denominator).

(** *** [kullback_leibler_for_multivariate_normals] *)
Definition kullback_leibler_for_multivariate_normals
    (mu_a : vec) (cov_a : mat) (mu_b : vec) (cov_b : mat) : R :=
  let Ca_inv := svd_inverse cov_a in
  let Cb_inv := svd_inverse cov_b in
  let k := INR (length mu_a) in
  let offset := vsub mu_b mu_a in
  0.5 * np_sum [
    trace (matmul Ca_inv cov_b);
    dot offset (matvec Cb_inv offset);
    - k;
    ln (linalg_det cov_b / linalg_det cov_a)
  ].

(** *** [_parameters_per_component(D, covariance_type)] *)
Definition _parameters_per_component (D : nat) (covariance_type : string)
  : result nat :=
  if String.eqb covariance_type "free" then ret (D + D * (D + 1) / 2)%nat
  else if String.eqb covariance_type "diag" then ret (2 * D)%nat
  else if String.eqb covariance_type "tied" then ret D
  else if String.eqb covariance_type "tied_diag" then ret D
  else raise ValueError.

(** *** [_initialize(y)] *)
Definition _initialize (y : mat) : mat * list mat * vec :=
  let weight := [1] in
  let '(N, D) := shape y in
  let means := map (fun s => s / INR N) (sum_axis0 D y) in
  let cov := mdiv (scatter D (ones N) (sub_row y means)) (INR N - 1) in
  ([means], [cov], weight).

(** *** [_expectation(y, mu, cov, weight, N_component_pars)] *)
Definition _expectation (y mu : mat) (cov : list mat) (weight : vec)
    (N_component_pars : nat) : mat * R * R :=
  let '(responsibility, _, normalization_constants) :=
    responsibility_matrix y mu cov weight in
  let log_likelihood := np_sum (map ln normalization_constants) in
  let '(N, D) := shape y in
  let K := length weight in
  let delta_length :=
    - log_likelihood
    + (INR N_component_pars / 2 * np_sum (map ln weight))
    + (INR N_component_pars / 2 + 0.5) * INR K * ln (INR N) in
  (responsibility, log_likelihood, delta_length).

(** *** [_maximization(y, mu, cov, weight, responsibility,
        parent_responsibility=1)] *)
Definition _maximization (y mu : mat) (cov : list mat) (weight : vec)
    (responsibility : mat) (parent_responsibility : broadcast)
  : mat * list mat * vec :=
  let M := length weight in
  let '(N, D) := shape y in
  let effective_membership := sum_axis1 responsibility in
  let new_weight :=
    map (fun e => (e + 0.5) / (INR N + INR M / 2)) effective_membership in
  let w_responsibility := map (bmul parent_responsibility) responsibility in
  let w_effective_membership := sum_axis1 w_responsibility in
  let new_mu :=
    map (fun w_m => map (fun s => s / np_sum w_m) (weighted_sum D w_m y))
        w_responsibility in
  let new_cov :=
    map2 (fun w_m mu_m =>
            mdiv (scatter D w_m (sub_row y mu_m)) (np_sum w_m - 1))
         w_responsibility new_mu in
  (new_mu, new_cov, new_weight).

(** *** [_expectation_maximization] *)

Definition Candidate : Type := mat * list mat * vec * mat * Meta R * R.

Definition c_mu (c : Candidate) : mat := let '(m, _, _, _, _, _) := c in m.
Definition c_cov (c : Candidate) : list mat :=
  let '(_, v, _, _, _, _) := c in v.
Definition c_weight (c : Candidate) : vec :=
  let '(_, _, w, _, _, _) := c in w.
Definition c_responsibility (c : Candidate) : mat :=
  let '(_, _, _, r, _, _) := c in r.
Definition c_dl (c : Candidate) : R := let '(_, _, _, _, _, d) := c in d.

(** The state of the [while True] loop after a pass. *)
Record em_state : Type := {
  em_mu : mat;
  em_cov : list mat;
  em_weight : vec;
  em_responsibility : mat;
  em_ll : R;
  em_dl : R;
  em_iterations : nat
}.

(** One pass of the loop body, up to the test that leaves the loop. *)
Definition em_pass (y : mat) (N_component_pars : nat)
    (parent_responsibility : broadcast) (s : em_state) : em_state :=
  let '(mu, cov, weight) :=
    _maximization y (em_mu s) (em_cov s) (em_weight s)
                  (em_responsibility s) parent_responsibility in
  let '(responsibility, ll, dl) :=
    _expectation y mu cov weight N_component_pars in
  {| em_mu := mu; em_cov := cov; em_weight := weight;
     em_responsibility := responsibility; em_ll := ll; em_dl := dl;
     em_iterations := S (em_iterations s) |}.

(** [relative_delta_ll <= threshold or iterations >= max_em_iterations] *)
Definition em_stop (threshold : R) (max_em_iterations : nat)
    (prev s : em_state) : bool :=
  let relative_delta_ll := Rabs ((em_ll s - em_ll prev) / em_ll prev) in
  Rleb relative_delta_ll threshold
  || Nat.leb max_em_iterations (em_iterations s).

(** The [while True] loop.  [fuel] counts the passes still allowed after
    this one; the loop leaves through its own test before the fuel given by
    [_expectation_maximization] is used up (lemma [em_loop_leaves_by_test]
    below), so the last branch is never taken there. *)
Fixpoint em_loop (fuel : nat) (y : mat) (N_component_pars : nat)
    (parent_responsibility : broadcast) (threshold : R)
    (max_em_iterations : nat) (s : em_state) : em_state :=
  let s' := em_pass y N_component_pars parent_responsibility s in
  if em_stop threshold max_em_iterations s s' then s'
  else
    match fuel with
    | O => s'
    | S fuel' =>
        em_loop fuel' y N_component_pars parent_responsibility threshold
                max_em_iterations s'
    end.

(** The loop as a relation between the state before the first pass and the
    state it leaves with: it leaves after the first pass whose test holds. *)
Inductive em_run (y : mat) (N_component_pars : nat)
    (parent_responsibility : broadcast) (threshold : R)
    (max_em_iterations : nat) : em_state -> em_state -> Prop :=
| em_run_leave s :
    em_stop threshold max_em_iterations s
            (em_pass y N_component_pars parent_responsibility s) = true ->
    em_run y N_component_pars parent_responsibility threshold
           max_em_iterations s
           (em_pass y N_component_pars parent_responsibility s)
| em_run_again s r :
    em_stop threshold max_em_iterations s
            (em_pass y N_component_pars parent_responsibility s) = false ->
    em_run y N_component_pars parent_responsibility threshold
           max_em_iterations
           (em_pass y N_component_pars parent_responsibility s) r ->
    em_run y N_component_pars parent_responsibility threshold
           max_em_iterations s r.

(** [_expectation_maximization(y, mu, cov, weight, responsibility,
    covariance_type, threshold, max_em_iterations,
    parent_responsibility=..)] *)
Definition _expectation_maximization (y mu : mat) (cov : list mat)
    (weight : vec) (responsibility : option mat) (covariance_type : string)
    (threshold : R) (max_em_iterations : nat)
    (parent_responsibility : broadcast) : result Candidate :=
  (N_component_pars <- _parameters_per_component (ncols y) covariance_type ;;
   let '(_init_responsibility, ll, dl) :=
     _expectation y mu cov weight N_component_pars in
   let responsibility :=
     match responsibility with
     | None => _init_responsibility
     | Some r => r
     end in
   let s0 := {| em_mu := mu; em_cov := cov; em_weight := weight;
                em_responsibility := responsibility; em_ll := ll;
                em_dl := dl; em_iterations := 1 |} in
   let s := em_loop max_em_iterations y N_component_pars
                    parent_responsibility threshold max_em_iterations s0 in
   let meta :=
     {| warnflag := Nat.leb max_em_iterations (em_iterations s);
        log_likelihood := em_ll s |} in
   ret (em_mu s, em_cov s, em_weight s, em_responsibility s, meta, em_dl s)
  )%result.

(** *** [split_component] *)

(** The seed of the children's responsibilities:
    [child_responsibility = np.vstack([np.sum(np.abs(y - child_mu[0]), axis=1),
                                       np.sum(np.abs(y - child_mu[1]), axis=1)])]
    [child_responsibility /= np.sum(child_responsibility, axis=0)] *)
Definition split_child_responsibility (y child_mu : mat) : mat :=
  let '(N, D) := shape y in
  let child_responsibility :=
    [ map (fun o => np_sum (map Rabs o)) (sub_row y (nth 0 child_mu []));
      map (fun o => np_sum (map Rabs o)) (sub_row y (nth 1 child_mu [])) ] in
  let total := sum_axis0 N child_responsibility in
  map (fun row => vdiv row total) child_responsibility.

(** [child_mu = mu[index] + np.vstack([+V[0], -V[0]]) * np.diag(cov[index])**0.5] *)
Definition split_child_mu (mu : mat) (cov : list mat) (index : nat) : mat :=
  let '(U, s, V) := linalg_svd (nth index cov []) in
  let V0 := nth 0 V [] in
  let sd := map sqrt (diagonal (nth index cov [])) in
  [ vadd (nth index mu []) (vmul V0 sd);
    vadd (nth index mu []) (vmul (map Ropp V0) sd) ].

Definition split_component (y mu : mat) (cov : list mat) (weight : vec)
    (responsibility : mat) (index : nat) (covariance_type : string)
    (threshold : R) (max_em_iterations : nat) : result Candidate :=
  (let M := length weight in
   let '(N, D) := shape y in
   if negb (Nat.ltb index M) then raise IndexError else
   let child_mu := split_child_mu mu cov index in
   let child_responsibility := split_child_responsibility y child_mu in
   let child_effective_membership := sum_axis1 child_responsibility in
   let child_cov :=
     map2 (fun r_k mu_k =>
             mdiv (scatter D r_k (sub_row y mu_k)) (np_sum r_k - 1))
          child_responsibility child_mu in
   let child_weight :=
     map (fun e => e / np_sum child_effective_membership)
         child_effective_membership in
   let parent_weight := nth index weight 0 in
   let parent_responsibility :=
     map (fun x => np_clip x eps 1) (nth index responsibility []) in
   child <- _expectation_maximization y child_mu child_cov child_weight
              (Some child_responsibility) covariance_type threshold
              max_em_iterations (Array parent_responsibility) ;;
   let '(child_mu, child_cov, child_weight, child_responsibility, meta, dl) :=
     child in
   if Nat.ltb 1 M then
     let weight :=
       set_item (weight ++ [parent_weight * nth 1 child_weight 0]) index
                (parent_weight * nth 0 child_weight 0) in
     let responsibility :=
       set_item
         (responsibility
            ++ [vmul parent_responsibility (nth 1 child_responsibility [])])
         index (vmul parent_responsibility (nth 0 child_responsibility [])) in
     let mu := set_item (mu ++ [nth 1 child_mu []]) index (nth 0 child_mu []) in
     let cov :=
       set_item (cov ++ [nth 1 child_cov []]) index (nth 0 child_cov []) in
     _expectation_maximization y mu cov weight (Some responsibility)
       covariance_type threshold max_em_iterations (Scalar 1)
   else ret child)%result.

(** *** [delete_component] *)

(** The mixture handed to expectation-maximization: the component is
    dropped and the rest renormalized (Eq. 54-55). *)
Definition delete_perturbation (mu : mat) (cov : list mat) (weight : vec)
    (responsibility : mat) (index : nat) : mat * list mat * vec * mat :=
  let parent_weight := nth index weight 0 in
  let parent_responsibility := nth index responsibility [] in
  let new_weight :=
    map (fun w => w / (1 - parent_weight)) (np_delete weight index) in
  let new_responsibility :=
    map (fun row => map2 (fun r p => r / (1 - p)) row parent_responsibility)
        (np_delete responsibility index) in
  let new_responsibility :=
    map (map (fun x => np_clip x 0 1)) new_responsibility in
  let new_mu := np_delete mu index in
  let new_cov := np_delete cov index in
  (new_mu, new_cov, new_weight, new_responsibility).

Definition delete_component (y mu : mat) (cov : list mat) (weight : vec)
    (responsibility : mat) (index : nat) (covariance_type : string)
    (threshold : R) (max_em_iterations : nat) : result Candidate :=
  if negb (Nat.ltb index (length weight)) then raise IndexError else
  let '(new_mu, new_cov, new_weight, new_responsibility) :=
    delete_perturbation mu cov weight responsibility index in
  _expectation_maximization y new_mu new_cov new_weight
    (Some new_responsibility) covariance_type threshold max_em_iterations
    (Scalar 1).

(** *** [merge_component] *)

(** [D_kl]: [np.inf] at [index], the Kullback-Leibler distance from
    component [index] elsewhere. *)
Definition merge_D_kl (mu : mat) (cov : list mat) (weight : vec)
    (index : nat) : list ext :=
  map (fun m =>
         if Nat.eqb m index then Inf
         else Fin (kullback_leibler_for_multivariate_normals
                     (nth index mu []) (nth index cov [])
                     (nth m mu []) (nth m cov [])))
      (seq 0 (length weight)).

(** The merged component: its weight, responsibility, mean and
    covariance. *)
Definition merged_component (y : mat) (weight : vec) (responsibility : mat)
    (a_index b_index : nat) : R * vec * vec * mat :=
  let '(N, D) := shape y in
  let weight_k := np_sum [nth a_index weight 0; nth b_index weight 0] in
  let responsibility_k :=
    sum_axis0 N [nth a_index responsibility [];
                 nth b_index responsibility []] in
  let effective_membership_k := np_sum responsibility_k in
  let mu_k :=
    map (fun s => s / effective_membership_k)
        (weighted_sum D responsibility_k y) in
  let offset := sub_row y mu_k in
  let cov_k :=
    mdiv (scatter D responsibility_k offset) (effective_membership_k - 1) in
  (weight_k, responsibility_k, mu_k, cov_k).

(** The mixture handed to expectation-maximization. *)
Definition merge_perturbation (y mu : mat) (cov : list mat) (weight : vec)
    (responsibility : mat) (index : nat)
  : result (mat * list mat * vec * mat) :=
  let D_kl := merge_D_kl mu cov weight index in
  let '(a_index, b_index) := (index, np_argmin D_kl) in
  let '(weight_k, responsibility_k, mu_k, cov_k) :=
    merged_component y weight responsibility a_index b_index in
  let del_index := Nat.max a_index b_index in
  let keep_index := Nat.min a_index b_index in
  let new_mu := np_delete mu del_index in
  let new_cov := np_delete cov del_index in
  let new_weight := np_delete weight del_index in
  let new_responsibility := np_delete responsibility del_index in
  if negb (Nat.ltb keep_index (length new_weight)) then raise IndexError else
  ret (set_item new_mu keep_index mu_k,
       set_item new_cov keep_index cov_k,
       set_item new_weight keep_index weight_k,
       set_item new_responsibility keep_index responsibility_k).

Definition merge_component (y mu : mat) (cov : list mat) (weight : vec)
    (responsibility : mat) (index : nat) (covariance_type : string)
    (threshold : R) (max_em_iterations : nat) : result Candidate :=
  (if negb (Nat.ltb index (length weight)) then raise IndexError else
   p <- merge_perturbation y mu cov weight responsibility index ;;
   let '(new_mu, new_cov, new_weight, new_responsibility) := p in
   _expectation_maximization y new_mu new_cov new_weight
     (Some new_responsibility) covariance_type threshold max_em_iterations
     (Scalar 1))%result.

(** *** [GaussianMixture._fit_kasarapu_allison] *)

(** [x[1][-1]]: the last item of a value of [best_perturbations] *)
Definition last_item (v : option (nat * Candidate)) : ext :=
  match v with
  | None => Inf
  | Some (_, r) => Fin (c_dl r)
  end.

(** [if p_dl < best_perturbations[op][-1]:
       best_perturbations[op] = [m] + list(r)] *)
Definition keep_best (op : operation) (m : nat) (r : Candidate)
    (best_perturbations : defaultdict (nat * Candidate))
  : defaultdict (nat * Candidate) :=
  let '(current, best_perturbations) := dd_get best_perturbations op in
  if ext_ltb (Fin (c_dl r)) (last_item current)
  then dd_set best_perturbations op (Some (m, r))
  else best_perturbations.

(** [for m in range(M): r = perturb(.., m, ..); keep the best] *)
Fixpoint exhaust (op : operation) (perturb : nat -> result Candidate)
    (ms : list nat) (best_perturbations : defaultdict (nat * Candidate))
  : result (defaultdict (nat * Candidate)) :=
  match ms with
  | [] => ret best_perturbations
  | m :: ms' =>
      (r <- perturb m ;;
       exhaust op perturb ms' (keep_best op m r best_perturbations))%result
  end.

(** The variables of the search loop. *)
Record search_state : Type := {
  s_mu : mat;
  s_cov : list mat;
  s_weight : vec;
  s_R : mat;
  s_mindl : R;
  s_iterations : nat
}.

(** [min(best_perturbations.items(), key=lambda x: x[1][-1])] *)
Definition min_item (best_perturbations : defaultdict (nat * Candidate))
  : result (operation * option (nat * Candidate)) :=
  match best_perturbations with
  | [] => raise ValueError
  | first :: _ =>
      ret (nth (np_argmin (map (fun x => last_item (snd x)) best_perturbations))
               best_perturbations first)
  end.

(** The first half of a round: every perturbation is tried and the best
    one is taken and unpacked, [b_m, b_mu, .., b_dl = bp]. *)
Definition best_perturbation (y : mat) (covariance_type : string)
    (threshold : R) (max_em_iterations : nat) (s : search_state)
  : result (operation * nat * Candidate) :=
  (let M := length (s_weight s) in
   let best_perturbations : defaultdict (nat * Candidate) := [] in
   best_perturbations <-
     exhaust split
       (fun m => split_component y (s_mu s) (s_cov s) (s_weight s) (s_R s) m
                   covariance_type threshold max_em_iterations)
       (seq 0 M) best_perturbations ;;
   best_perturbations <-
     (if Nat.ltb 1 M then
        best_perturbations <-
          exhaust delete
            (fun m => delete_component y (s_mu s) (s_cov s) (s_weight s)
                        (s_R s) m covariance_type threshold max_em_iterations)
            (seq 0 M) best_perturbations ;;
        exhaust merge
          (fun m => merge_component y (s_mu s) (s_cov s) (s_weight s)
                      (s_R s) m covariance_type threshold max_em_iterations)
          (seq 0 M) best_perturbations
      else ret best_perturbations) ;;
   '(operation, bp) <- min_item best_perturbations ;;
   match bp with
   | None => raise ValueError
   | Some (b_m, b) => ret (operation, b_m, b)
   end)%result.

(** How a round ends: the best perturbation replaces the state and the
    loop goes on, or the loop is left with the state as it was. *)
Inductive round_outcome : Type :=
| Accepted (s : search_state)
| Converged (s : search_state).

(** One round of [while True]. *)
Definition search_round (y : mat) (covariance_type : string)
    (threshold : R) (max_em_iterations : nat) (s : search_state)
  : result round_outcome :=
  (best <- best_perturbation y covariance_type threshold max_em_iterations s ;;
   let '(operation, b_m, (b_mu, b_cov, b_weight, b_R, b_meta, b_dl)) := best in
   if Rltb b_dl (s_mindl s) then
     ret (Accepted {| s_mu := b_mu; s_cov := b_cov; s_weight := b_weight;
                      s_R := b_R; s_mindl := b_dl;
                      s_iterations := S (s_iterations s) |})
   else ret (Converged s))%result.

(** The search loop; nothing bounds its rounds, [None] is a loop that has
    not left after [fuel] rounds. *)
Fixpoint search_loop (fuel : nat) (y : mat) (covariance_type : string)
    (threshold : R) (max_em_iterations : nat) (s : search_state)
  : result (option search_state) :=
  match fuel with
  | O => ret None
  | S fuel' =>
      (o <- search_round y covariance_type threshold max_em_iterations s ;;
       match o with
       | Accepted s' =>
           search_loop fuel' y covariance_type threshold max_em_iterations s'
       | Converged s' => ret (Some s')
       end)%result
  end.

Definition _fit_kasarapu_allison (fuel : nat) (self : GaussianMixture)
    (threshold : R) (max_em_iterations : nat)
  : result (option (mat * list mat * vec)) :=
  (if Rleb threshold 0 then raise ValueError
   else if Nat.ltb max_em_iterations 1 then raise ValueError
   else
     match _y self, _covariance_type self with
     | Some y, Some covariance_type =>
         let '(N, D) := shape y in
         let '(mu, cov, weight) := _initialize y in
         N_cp <- _parameters_per_component D covariance_type ;;
         let '(R0, ll, mindl) := _expectation y mu cov weight N_cp in
         final <- search_loop fuel y covariance_type threshold
                    max_em_iterations
                    {| s_mu := mu; s_cov := cov; s_weight := weight;
                       s_R := R0; s_mindl := mindl; s_iterations := 1 |} ;;
         ret (option_map (fun s => (s_mu s, s_cov s, s_weight s)) final)
     | _, _ => raise AttributeError
     end)%result.
End Program.
End mixture_ka.

(* ===================================================================== *)
(** ** snob/mixture_search.py                                             *)
(* ===================================================================== *)

Module mixture_search.

(** The covariance array of a mixture: of shape [(K, D, D)] under the
    full structure and of shape [(K, D)] under the diagonal one.  The
    program builds the array with the covariance type it later reads it
    with; reading an array with the other type is given as the
    [ValueError] numpy raises when shapes do not fit. *)
Inductive covariances : Type :=
| Full (c : list mat)
| Diag (c : mat).

(** one entry of the array, [cov[k]] *)
Inductive covariance : Type :=
| FullC (c : mat)
| DiagC (c : vec).

Definition cov_size (cov : covariances) : nat :=
  match cov with
  | Full c => length c
  | Diag c => length c
  end.

(** [cov[k]] *)
Definition cov_item (cov : covariances) (k : nat) : covariance :=
  match cov with
  | Full c => FullC (nth k c [])
  | Diag c => DiagC (nth k c [])
  end.

(** [np.delete(cov, k, axis=0)] *)
Definition cov_delete (cov : covariances) (k : nat) : covariances :=
  match cov with
  | Full c => Full (np_delete c k)
  | Diag c => Diag (np_delete c k)
  end.

(** [np.vstack([cov, [x]])] *)
Definition cov_append (cov : covariances) (x : covariance)
  : result covariances :=
  match cov, x with
  | Full c, FullC m => ret (Full (c ++ [m]))
  | Diag c, DiagC v => ret (Diag (c ++ [v]))
  | _, _ => raise ValueError
  end.

(** [cov[k] = x] *)
Definition cov_set (cov : covariances) (k : nat) (x : covariance)
  : result covariances :=
  match cov, x with
  | Full c, FullC m => ret (Full (set_item c k m))
  | Diag c, DiagC v => ret (Diag (set_item c k v))
  | _, _ => raise ValueError
  end.

(** The keyword arguments [kwds] that [fit] builds and every function
    below receives as [**kwargs]. *)
Record kwds : Type := {
  covariance_type : string;
  covariance_regularization : R;
  threshold : R;
  max_em_iterations : nat;
  dofail : bool
}.

(** [scipy.misc.logsumexp] of a one-dimensional array *)
Definition logsumexp (a : vec) : R := ln (np_sum (map exp a)).

(** [scipy.special.gammaln(M)] at a positive integer: [log((M-1)!)] *)
Definition gammaln (M : nat) : R := ln (INR (fact (pred M))).

Section Program.
Context `{Backend}.

(** *** [class GaussianMixture] *)

Record GaussianMixture : Type := {
  _threshold : option R;
  _max_em_iterations : option nat;
  _covariance_type : option string;
  _covariance_regularization : option R
}.

Definition available : list string := ["full"; "diag"]%string.

(** [GaussianMixture.__init__(self, covariance_type="full",
    covariance_regularization=0, threshold=1e-5, max_em_iterations=10000)] *)
Definition __init__ (self : GaussianMixture) (covariance_type : string)
    (covariance_regularization threshold : R) (max_em_iterations : nat)
  : GaussianMixture * result unit :=
  let covariance_type := lower (strip covariance_type) in
  if negb (in_tuple covariance_type available) then (self, raise ValueError)
  else if Rltb covariance_regularization 0 then (self, raise ValueError)
  else if Rleb threshold 0 then (self, raise ValueError)
  else if Nat.ltb max_em_iterations 1 then (self, raise ValueError)
  else
    ({| _threshold := Some threshold;
        _max_em_iterations := Some max_em_iterations;
        _covariance_type := Some covariance_type;
        _covariance_regularization := Some covariance_regularization |},
     ret tt).

(** *** [_compute_precision_cholesky(covariances, covariance_type)] *)
Fixpoint cholesky_precisions (D : nat) (c : list mat) : result (list mat) :=
  match c with
  | [] => ret []
  | covariance :: c' =>
      match linalg_cholesky covariance with
      | None => raise ValueError
      | Some cholesky_cov =>
          (rest <- cholesky_precisions D c' ;;
           ret (transpose (linalg_solve_triangular cholesky_cov (eye D))
                  :: rest))%result
      end
  end.

Definition _compute_precision_cholesky (cov : covariances)
    (covariance_type : string) : result covariances :=
  if in_str covariance_type "full" then
    match cov with
    | Full c =>
        (p <- cholesky_precisions (ncols (nth 0 c [])) c ;; ret (Full p))%result
    | Diag _ => raise ValueError
    end
  else if in_str covariance_type "diag" then
    match cov with
    | Diag c =>
        if existsb (existsb (fun x => Rleb x 0)) c then raise ValueError
        else ret (Diag (map (map (fun x => Rpower x (-0.5))) c))
    | Full _ => raise ValueError
    end
  else raise NotImplementedError.

(** *** [_compute_log_det_cholesky(matrix_chol, covariance_type, n_features)]
    for the types that reach it with an array of their own rank. *)
Definition _compute_log_det_cholesky (matrix_chol : covariances)
    (covariance_type : string) (n_features : nat) : result vec :=
  match matrix_chol with
  | Full c =>
      if String.eqb covariance_type "full"
      then ret (map (fun m => np_sum (map ln (diagonal m))) c)
      else raise ValueError
  | Diag c =>
      if String.eqb covariance_type "diag"
      then ret (map (fun v => np_sum (map ln v)) c)
      else raise ValueError
  end.

(** *** [_estimate_log_gaussian_prob(X, means, precision_cholesky,
        covariance_type)]: an array of shape [(n_samples, n_components)] *)
Definition _estimate_log_gaussian_prob (X means : mat)
    (precision_cholesky : covariances) (covariance_type : string)
  : result mat :=
  (let '(n_samples, n_features) := shape X in
   log_det <- _compute_log_det_cholesky precision_cholesky covariance_type
                n_features ;;
   log_prob <-
     match precision_cholesky with
     | Full pc =>
         ret (map (fun x =>
                     map2 (fun mu prec_chol =>
                             let y := vsub (vecmat x prec_chol)
                                           (vecmat mu prec_chol) in
                             np_sum (map Rsqr y))
                          means pc)
                  X)
     | Diag pc =>
         let precisions := map (map Rsqr) pc in
         ret (map (fun x =>
                     map2 (fun mu prec =>
                             np_sum (vmul (map Rsqr mu) prec)
                             - 2 * dot x (vmul mu prec)
                             + dot (map Rsqr x) prec)
                          means precisions)
                  X)
     end ;;
   ret (map (fun row =>
               map2 (fun lp ld =>
                       -0.5 * (INR n_features * ln (2 * PI) + lp) + ld)
                    row log_det)
            log_prob))%result.

(** *** [responsibility_matrix(y, mu, cov, weight, covariance_type,
        full_output=True, **kwargs)] *)
Definition responsibility_matrix (y mu : mat) (cov : covariances)
    (weight : vec) (kw : kwds) : result (mat * vec) :=
  (precision_cholesky <-
     _compute_precision_cholesky cov (covariance_type kw) ;;
   log_prob <- _estimate_log_gaussian_prob y mu precision_cholesky
                 (covariance_type kw) ;;
   let weighted_log_prob := map (fun row => vadd (map ln weight) row) log_prob in
   let log_likelihood := map logsumexp weighted_log_prob in
   let log_responsibility :=
     map2 (fun row ll => map (fun x => x - ll) row)
          weighted_log_prob log_likelihood in
   let responsibility :=
     map (fun k => col k (map (map exp) log_responsibility))
         (seq 0 (length mu)) in
   if dofail kw then raise NameError
   else ret (responsibility, log_likelihood))%result.

(** *** [kullback_leibler_for_multivariate_normals] *)

(** [if len(cov.shape) == 1: cov = cov * np.eye(cov.size)] *)
Definition as_matrix (c : covariance) : mat :=
  match c with
  | FullC m => m
  | DiagC v => np_diag v
  end.

Definition kullback_leibler_for_multivariate_normals
    (mu_a : vec) (cov_a : covariance) (mu_b : vec) (cov_b : covariance) : R :=
  let cov_a := as_matrix cov_a in
  let cov_b := as_matrix cov_b in
  let Ca_inv := svd_inverse cov_a in
  let Cb_inv := svd_inverse cov_b in
  let k := INR (length mu_a) in
  let offset := vsub mu_b mu_a in
  0.5 * np_sum [
    trace (matmul Ca_inv cov_b);
    dot offset (matvec Cb_inv offset);
    - k;
    ln (linalg_det cov_b / linalg_det cov_a)
  ].

(** *** [_parameters_per_mixture(D, covariance_type)] *)
Definition _parameters_per_mixture (D : nat) (covariance_type : string)
  : result nat :=
  if String.eqb covariance_type "full" then ret (D + D * (D + 1) / 2)%nat
  else if String.eqb covariance_type "diag" then ret (2 * D)%nat
  else raise ValueError.

(** *** [log_kappa(D)] *)
Definition log_kappa (D : R) : R :=
  let cd := -0.5 * D * ln (2 * PI) + 0.5 * ln (D * PI) in
  -1 + 2 * cd / D.

(** *** [_message_length(y, mu, cov, weight, responsibility, nll,
        covariance_type, dofail=False)] *)

(** The body up to the assertions: the weight code length [I_w] and the
    total [I]. *)
Definition message_length_terms (y mu : mat) (cov : covariances) (weight : vec)
    (responsibility : mat) (nll : R) (kw : kwds) : result (R * R) :=
  (let '(N, D) := shape y in
   let M := length weight in
   let I_m := INR M in
   let I_w :=
     (INR M - 1) / 2 * ln (INR N)
     - 0.5 * np_sum (map ln weight)
     - gammaln M in
   let I_w := I_w / ln 2 in
   if Nat.eqb D 1 then raise NameError
   else
     cov_ <-
       (if String.eqb (covariance_type kw) "diag" then
          match cov with
          | Diag c => ret (map np_diag c)
          | Full _ => raise ValueError
          end
        else
          match cov with
          | Full c => ret c
          | Diag _ => raise ValueError
          end) ;;
     let log_det_cov := map (fun c => ln (linalg_det c)) cov_ in
     let log_F_m :=
       map (fun r => 0.5 * INR D * (INR D + 3) * ln r)
           (sum_axis1 responsibility) in
     let log_F_m := map2 (fun f l => f + - l) log_F_m log_det_cov in
     let log_F_m :=
       map2 (fun f l => f + - (INR D * ln 2 + (INR D + 1) * l))
            log_F_m log_det_cov in
     N_cp <- _parameters_per_mixture D (covariance_type kw) ;;
     let AOM := 0.001 in
     let Il := nll - (INR D * INR N * ln AOM) in
     let Il := Il / ln 2 in
     let log_prior := 0 in
     let I_t := map (fun f => (log_prior + 0.5 * f) / ln 2) log_F_m in
     let num_free_params :=
       (0.5 * INR D * (INR D + 3) * INR M) + (INR M - 1) in
     let lattice :=
       0.5 * num_free_params * log_kappa num_free_params / ln 2 in
     let part1 := I_m + I_w + np_sum I_t + lattice in
     let part2 := Il + (0.5 * num_free_params) / ln 2 in
     let I := part1 + part2 in
     ret (I_w, I))%result.

(** The assertions and the return:
    [assert I_w >= -0.5], [assert I > 0], [if dofail: raise a], [return I]. *)
Definition _message_length (y mu : mat) (cov : covariances) (weight : vec)
    (responsibility : mat) (nll : R) (kw : kwds) : result R :=
  ('(I_w, I_) <- message_length_terms y mu cov weight responsibility nll kw ;;
   _ <- assert (Rleb (-0.5) I_w) ;;
   _ <- assert (Rltb 0 I_) ;;
   if dofail kw then raise NameError else ret I_)%result.

(** *** The covariance estimators *)

(** [denominator = nm - 1 if nm > 1 else nm] *)
Definition denominator (nm : R) : R := if Rltb 1 nm then nm - 1 else nm.

Definition _estimate_covariance_matrix_full (y responsibility mean : mat)
    (covariance_regularization : R) : list mat :=
  let '(N, D) := shape y in
  let membership := sum_axis1 responsibility in
  let I := eye D in
  map (fun '(mu, rm, nm) =>
         let diff := sub_row y mu in
         madd (mdiv (scatter D rm diff) (denominator nm))
              (mscale covariance_regularization I))
      (combine (combine mean responsibility) membership).

Definition _estimate_covariance_matrix_diag (y responsibility mean : mat)
    (covariance_regularization : R) : mat :=
  let '(N, D) := shape y in
  let membership := sum_axis1 responsibility in
  map (fun '(mu, rm, nm) =>
         let diff := sub_row y mu in
         map (fun s => s / denominator nm + covariance_regularization)
             (weighted_sum D rm (map (map (fun x => x ^ 2)) diff)))
      (combine (combine mean responsibility) membership).

Definition _estimate_covariance_matrix (y responsibility mean : mat)
    (covariance_type : string) (covariance_regularization : R)
  : result covariances :=
  if String.eqb covariance_type "full" then
    ret (Full (_estimate_covariance_matrix_full y responsibility mean
                 covariance_regularization))
  else if String.eqb covariance_type "diag" then
    ret (Diag (_estimate_covariance_matrix_diag y responsibility mean
                 covariance_regularization))
  else raise ValueError.

(** *** [_initialize(y, covariance_type, covariance_regularization)] *)
Definition _initialize (y : mat) (kw : kwds)
  : result (mat * covariances * vec) :=
  (let weight := [1] in
   let '(N, D) := shape y in
   let mean := [map (fun s => s / INR N) (sum_axis0 D y)] in
   cov <- _estimate_covariance_matrix y [ones N] mean (covariance_type kw)
            (covariance_regularization kw) ;;
   ret (mean, cov, weight))%result.

(** *** [_expectation(y, mu, cov, weight, **kwargs)] *)
Definition _expectation (y mu : mat) (cov : covariances) (weight : vec)
    (kw : kwds) : result (mat * vec * R) :=
  ('(responsibility, log_likelihood) <-
     responsibility_matrix y mu cov weight kw ;;
   let nll := - np_sum log_likelihood in
   I <- _message_length y mu cov weight responsibility nll kw ;;
   ret (responsibility, log_likelihood, I))%result.

(** *** [_maximization(y, mu, cov, weight, responsibility,
        parent_responsibility=1, **kwargs)]

    The three [assert np.all(np.isfinite(..))] before the [return] are not
    written out: they fail where a membership is 0 and the mean or the
    covariance is a quotient by it. *)
Definition _maximization (y mu : mat) (cov : covariances) (weight : vec)
    (responsibility : mat) (parent_responsibility : broadcast) (kw : kwds)
  : result (mat * covariances * vec) :=
  (let M := length weight in
   let '(N, D) := shape y in
   let effective_membership := sum_axis1 responsibility in
   let new_weight :=
     map (fun e => (e + 0.5) / (INR N + INR M / 2)) effective_membership in
   let w_responsibility := map (bmul parent_responsibility) responsibility in
   let w_effective_membership := sum_axis1 w_responsibility in
   let new_mu :=
     map (fun w_m => map (fun s => s / np_sum w_m) (weighted_sum D w_m y))
         w_responsibility in
   new_cov <- _estimate_covariance_matrix y responsibility new_mu
                (covariance_type kw) (covariance_regularization kw) ;;
   ret (new_mu, new_cov, new_weight))%result.

(** *** [_expectation_maximization] *)

Definition Candidate : Type := mat * covariances * vec * mat * Meta vec * R.

Definition c_mu (c : Candidate) : mat := let '(m, _, _, _, _, _) := c in m.
Definition c_cov (c : Candidate) : covariances :=
  let '(_, v, _, _, _, _) := c in v.
Definition c_weight (c : Candidate) : vec :=
  let '(_, _, w, _, _, _) := c in w.
Definition c_responsibility (c : Candidate) : mat :=
  let '(_, _, _, r, _, _) := c in r.
Definition c_ml (c : Candidate) : R := let '(_, _, _, _, _, d) := c in d.

Record em_state : Type := {
  em_mu : mat;
  em_cov : covariances;
  em_weight : vec;
  em_responsibility : mat;
  em_ll : vec;
  em_lls : R;
  em_dl : R;
  em_iterations : nat
}.

(** One pass of the loop body, up to the test that leaves the loop. *)
Definition em_pass (y : mat) (parent_responsibility : broadcast) (kw : kwds)
    (s : em_state) : result em_state :=
  ('(mu, cov, weight) <-
     _maximization y (em_mu s) (em_cov s) (em_weight s)
                   (em_responsibility s) parent_responsibility kw ;;
   '(responsibility, ll, dl) <- _expectation y mu cov weight kw ;;
   let lls := np_sum ll in
   ret {| em_mu := mu; em_cov := cov; em_weight := weight;
          em_responsibility := responsibility; em_ll := ll; em_lls := lls;
          em_dl := dl; em_iterations := S (em_iterations s) |})%result.

(** [relative_delta_message_length <= kwargs["threshold"]
     or iterations >= kwargs["max_em_iterations"]] *)
Definition em_stop (kw : kwds) (prev s : em_state) : bool :=
  let relative_delta_message_length :=
    Rabs ((em_lls s - em_lls prev) / em_lls prev) in
  Rleb relative_delta_message_length (threshold kw)
  || Nat.leb (max_em_iterations kw) (em_iterations s).

(** The [while True] loop, with the fuel of [mixture_ka.em_loop]: the loop
    leaves through its own test before the fuel given by
    [_expectation_maximization] is used up (lemma [search_em_loop_fuel]
    below). *)
Fixpoint em_loop (fuel : nat) (y : mat) (parent_responsibility : broadcast)
    (kw : kwds) (s : em_state) : result em_state :=
  (s' <- em_pass y parent_responsibility kw s ;;
   if em_stop kw s s' then ret s'
   else
     match fuel with
     | O => ret s'
     | S fuel' => em_loop fuel' y parent_responsibility kw s'
     end)%result.

Definition _expectation_maximization (y mu : mat) (cov : covariances)
    (weight : vec) (responsibility : option mat)
    (parent_responsibility : broadcast) (kw : kwds) : result Candidate :=
  ('(_init_responsibility, ll, dl) <- _expectation y mu cov weight kw ;;
   let responsibility :=
     match responsibility with
     | None => _init_responsibility
     | Some r => r
     end in
   let s0 := {| em_mu := mu; em_cov := cov; em_weight := weight;
                em_responsibility := responsibility; em_ll := ll;
                em_lls := np_sum ll; em_dl := dl; em_iterations := 1 |} in
   s <- em_loop (max_em_iterations kw) y parent_responsibility kw s0 ;;
   let meta :=
     {| warnflag := Nat.leb (max_em_iterations kw) (em_iterations s);
        log_likelihood := em_ll s |} in
   ret (em_mu s, em_cov s, em_weight s, em_responsibility s, meta, em_dl s)
  )%result.

(** *** [_svd(covariance, covariance_type)] *)
Definition _svd (c : covariance) (covariance_type : string)
  : result (mat * vec * mat) :=
  if String.eqb covariance_type "full" then
    match c with
    | FullC m => ret (linalg_svd m)
    | DiagC _ => raise ValueError
    end
  else if String.eqb covariance_type "diag" then
    match c with
    | DiagC v => ret (linalg_svd (np_diag v))
    | FullC _ => raise ValueError
    end
  else raise ValueError.

(** *** [split_component] *)

(** The seed of the children's responsibilities:
    [distance = np.vstack([np.sum((y - child_mu[0])**2, axis=1),
                           np.sum((y - child_mu[1])**2, axis=1)])]
    [child_responsibility = np.zeros((2, N))]
    [child_responsibility[np.argmin(distance, axis=0), np.arange(N)] = 1.0] *)
Definition split_child_responsibility (y child_mu : mat) : mat :=
  let distance :=
    [ map (fun o => np_sum (map (fun x => x ^ 2) o))
          (sub_row y (nth 0 child_mu []));
      map (fun o => np_sum (map (fun x => x ^ 2) o))
          (sub_row y (nth 1 child_mu [])) ] in
  let nearest :=
    map2 (fun d0 d1 => np_argmin [Fin d0; Fin d1])
         (nth 0 distance []) (nth 1 distance []) in
  [ map (fun a => if Nat.eqb a 0 then 1 else 0) nearest;
    map (fun a => if Nat.eqb a 1 then 1 else 0) nearest ].

Definition split_component (y mu : mat) (cov : covariances) (weight : vec)
    (responsibility : mat) (index : nat) (kw : kwds) : result Candidate :=
  (let M := length weight in
   let '(N, D) := shape y in
   if negb (Nat.ltb index M) then raise IndexError else
   '(U, s, V) <- _svd (cov_item cov index) (covariance_type kw) ;;
   let V0 := nth 0 V [] in
   let sd := sqrt (nth 0 s 0) in
   let child_mu :=
     [ vsub (nth index mu []) (vscale sd V0);
       vsub (nth index mu []) (vscale sd (map Ropp V0)) ] in
   let child_responsibility := split_child_responsibility y child_mu in
   child_cov <- _estimate_covariance_matrix y child_responsibility child_mu
                  (covariance_type kw) (covariance_regularization kw) ;;
   let child_effective_membership := sum_axis1 child_responsibility in
   let child_weight :=
     map (fun e => e / np_sum child_effective_membership)
         child_effective_membership in
   let parent_weight := nth index weight 0 in
   let parent_responsibility := nth index responsibility [] in
   if Nat.ltb 1 M then
     let weight :=
       set_item (weight ++ [parent_weight * nth 1 child_weight 0]) index
                (parent_weight * nth 0 child_weight 0) in
     let responsibility :=
       set_item
         (responsibility
            ++ [vmul parent_responsibility (nth 1 child_responsibility [])])
         index (vmul parent_responsibility (nth 0 child_responsibility [])) in
     let mu := set_item (mu ++ [nth 1 child_mu []]) index (nth 0 child_mu []) in
     cov <- cov_append cov (cov_item child_cov 1) ;;
     cov <- cov_set cov index (cov_item child_cov 0) ;;
     _expectation_maximization y mu cov weight (Some responsibility)
       (Scalar 1) kw
   else
     _expectation_maximization y child_mu child_cov child_weight
       (Some child_responsibility) (Array parent_responsibility) kw)%result.

(** *** [delete_component] *)

(** The mixture handed to expectation-maximization (Eq. 54-55); a
    quotient is finite here, so the entries that are not are none. *)
Definition delete_perturbation (mu : mat) (cov : covariances) (weight : vec)
    (responsibility : mat) (index : nat) : mat * covariances * vec * mat :=
  let parent_weight := nth index weight 0 in
  let parent_responsibility := nth index responsibility [] in
  let new_weight :=
    map (fun w => np_clip (w / (1 - parent_weight)) 0 1)
        (np_delete weight index) in
  let new_responsibility :=
    map (fun row =>
           map2 (fun r p => np_clip (r / (1 - p)) 0 1)
                row parent_responsibility)
        (np_delete responsibility index) in
  let new_mu := np_delete mu index in
  let new_cov := cov_delete cov index in
  (new_mu, new_cov, new_weight, new_responsibility).

Definition delete_component (y mu : mat) (cov : covariances) (weight : vec)
    (responsibility : mat) (index : nat) (kw : kwds) : result Candidate :=
  if negb (Nat.ltb index (length weight)) then raise IndexError else
  let '(new_mu, new_cov, new_weight, new_responsibility) :=
    delete_perturbation mu cov weight responsibility index in
  _expectation_maximization y new_mu new_cov new_weight
    (Some new_responsibility) (Scalar 1) kw.

(** *** [merge_component] *)

Definition merge_D_kl (mu : mat) (cov : covariances) (weight : vec)
    (index : nat) : list ext :=
  map (fun m =>
         if Nat.eqb m index then Inf
         else Fin (kullback_leibler_for_multivariate_normals
                     (nth index mu []) (cov_item cov index)
                     (nth m mu []) (cov_item cov m)))
      (seq 0 (length weight)).

(** The merged component: its weight, responsibility, mean and
    covariance. *)
Definition merged_component (y : mat) (weight : vec) (responsibility : mat)
    (a_index b_index : nat) (kw : kwds)
  : result (R * vec * vec * covariance) :=
  (let '(N, D) := shape y in
   let weight_k := np_sum [nth a_index weight 0; nth b_index weight 0] in
   let responsibility_k :=
     sum_axis0 N [nth a_index responsibility [];
                  nth b_index responsibility []] in
   let effective_membership_k := np_sum responsibility_k in
   let mu_k :=
     map (fun s => s / effective_membership_k)
         (weighted_sum D responsibility_k y) in
   cov_k <- _estimate_covariance_matrix y [responsibility_k] [mu_k]
              (covariance_type kw) (covariance_regularization kw) ;;
   ret (weight_k, responsibility_k, mu_k, cov_item cov_k 0))%result.

(** The mixture handed to expectation-maximization. *)
Definition merge_perturbation (y mu : mat) (cov : covariances) (weight : vec)
    (responsibility : mat) (index : nat) (kw : kwds)
  : result (mat * covariances * vec * mat) :=
  (let D_kl := merge_D_kl mu cov weight index in
   let '(a_index, b_index) := (index, np_argmin D_kl) in
   '(weight_k, responsibility_k, mu_k, cov_k) <-
     merged_component y weight responsibility a_index b_index kw ;;
   let del_index := Nat.max a_index b_index in
   let keep_index := Nat.min a_index b_index in
   let new_mu := np_delete mu del_index in
   let new_cov := cov_delete cov del_index in
   let new_weight := np_delete weight del_index in
   let new_responsibility := np_delete responsibility del_index in
   if negb (Nat.ltb keep_index (length new_weight)) then raise IndexError else
   new_cov <- cov_set new_cov keep_index cov_k ;;
   ret (set_item new_mu keep_index mu_k,
        new_cov,
        set_item new_weight keep_index weight_k,
        set_item new_responsibility keep_index responsibility_k))%result.

Definition merge_component (y mu : mat) (cov : covariances) (weight : vec)
    (responsibility : mat) (index : nat) (kw : kwds) : result Candidate :=
  (if negb (Nat.ltb index (length weight)) then raise IndexError else
   p <- merge_perturbation y mu cov weight responsibility index kw ;;
   let '(new_mu, new_cov, new_weight, new_responsibility) := p in
   _expectation_maximization y new_mu new_cov new_weight
     (Some new_responsibility) (Scalar 1) kw)%result.

(** The mixture [split_component] hands to expectation-maximization, and the
    parent responsibility it passes along: the [M + 1] components with both
    children spliced in when [M > 1], the two children alone (scaled by the
    responsibility of their parent) when [M = 1]. *)
Definition split_perturbation (y mu : mat) (cov : covariances) (weight : vec)
    (responsibility : mat) (index : nat) (kw : kwds)
  : result (mat * covariances * vec * mat * broadcast) :=
  (let M := length weight in
   let '(N, D) := shape y in
   if negb (Nat.ltb index M) then raise IndexError else
   '(U, s, V) <- _svd (cov_item cov index) (covariance_type kw) ;;
   let V0 := nth 0 V [] in
   let sd := sqrt (nth 0 s 0) in
   let child_mu :=
     [ vsub (nth index mu []) (vscale sd V0);
       vsub (nth index mu []) (vscale sd (map Ropp V0)) ] in
   let child_responsibility := split_child_responsibility y child_mu in
   child_cov <- _estimate_covariance_matrix y child_responsibility child_mu
                  (covariance_type kw) (covariance_regularization kw) ;;
   let child_effective_membership := sum_axis1 child_responsibility in
   let child_weight :=
     map (fun e => e / np_sum child_effective_membership)
         child_effective_membership in
   let parent_weight := nth index weight 0 in
   let parent_responsibility := nth index responsibility [] in
   if Nat.ltb 1 M then
     let weight :=
       set_item (weight ++ [parent_weight * nth 1 child_weight 0]) index
                (parent_weight * nth 0 child_weight 0) in
     let responsibility :=
       set_item
         (responsibility
            ++ [vmul parent_responsibility (nth 1 child_responsibility [])])
         index (vmul parent_responsibility (nth 0 child_responsibility [])) in
     let mu := set_item (mu ++ [nth 1 child_mu []]) index (nth 0 child_mu []) in
     cov <- cov_append cov (cov_item child_cov 1) ;;
     cov <- cov_set cov index (cov_item child_cov 0) ;;
     ret (mu, cov, weight, responsibility, Scalar 1)
   else
     ret (child_mu, child_cov, child_weight, child_responsibility,
          Array parent_responsibility))%result.

(** *** [_total_parameters(K, D)] *)
Definition _total_parameters (K D : R) : R :=
  (0.5 * D * (D + 3) * K) + (K - 1).

(** *** [_approximate_sum_log_weights(target_K)] *)
Definition _approximate_sum_log_weights (target_K : R) : R :=
  - target_K * ln target_K.

(** *** [GaussianMixture.fit(self, y, num_components)]

    The body that runs is the loop that splits until the mixture has
    [num_components] components; the statements after its [return] are never
    reached.  [num_components] is a number here: with the default [None] the
    comparison [K >= num_components] is a [TypeError]. *)

(** [meta]: before the loop the dictionary holds the total log-likelihood,
    after a round it is the [meta] of the best split; both hold the message
    length. *)
Inductive fit_meta : Type :=
| initial_meta (log_likelihood message_length : R)
| split_meta (meta : Meta vec) (message_length : R).

(** The variables of the loop. *)
Record fit_state : Type := {
  f_mu : mat;
  f_cov : covariances;
  f_weight : vec;
  f_R : mat;
  f_message_length : R;
  f_meta : fit_meta
}.

(** [x[1][-1]]: the last item of a value of [best_perturbations] *)
Definition last_item (v : option (nat * Candidate)) : ext :=
  match v with
  | None => Inf
  | Some (_, p) => Fin (c_ml p)
  end.

(** [if p[-1] < best_perturbations[op][-1]:
       best_perturbations[op] = [k] + list(p)] *)
Definition keep_best (op : operation) (k : nat) (p : Candidate)
    (best_perturbations : defaultdict (nat * Candidate))
  : defaultdict (nat * Candidate) :=
  let '(current, best_perturbations) := dd_get best_perturbations op in
  if ext_ltb (Fin (c_ml p)) (last_item current)
  then dd_set best_perturbations op (Some (k, p))
  else best_perturbations.

(** [for k in range(K): p = split_component(.., k, ..); keep the best] *)
Fixpoint exhaust (op : operation) (perturb : nat -> result Candidate)
    (ks : list nat) (best_perturbations : defaultdict (nat * Candidate))
  : result (defaultdict (nat * Candidate)) :=
  match ks with
  | [] => ret best_perturbations
  | k :: ks' =>
      (p <- perturb k ;;
       exhaust op perturb ks' (keep_best op k p best_perturbations))%result
  end.

(** [min(best_perturbations.items(), key=lambda x: x[1][-1])] *)
Definition min_item (best_perturbations : defaultdict (nat * Candidate))
  : result (operation * option (nat * Candidate)) :=
  match best_perturbations with
  | [] => raise ValueError
  | first :: _ =>
      ret (nth (np_argmin (map (fun x => last_item (snd x)) best_perturbations))
               best_perturbations first)
  end.

(** A round of the loop up to the unpacking
    [b_m, b_mu, b_cov, b_weight, b_R, b_meta, b_ml = bp]. *)
Definition best_split (y : mat) (kw : kwds) (s : fit_state)
  : result (operation * nat * Candidate) :=
  (let K := length (f_weight s) in
   let best_perturbations : defaultdict (nat * Candidate) := [] in
   best_perturbations <-
     exhaust split
       (fun k => split_component y (f_mu s) (f_cov s) (f_weight s) (f_R s) k kw)
       (seq 0 K) best_perturbations ;;
   '(bop, bp) <- min_item best_perturbations ;;
   match bp with
   | None => raise ValueError
   | Some (b_m, b) => ret (bop, b_m, b)
   end)%result.

(** The state after a round: the best split, whatever its message length. *)
Definition fit_round (y : mat) (kw : kwds) (s : fit_state) : result fit_state :=
  (best <- best_split y kw s ;;
   let '(bop, b_m, (b_mu, b_cov, b_weight, b_R, b_meta, b_ml)) := best in
   ret {| f_mu := b_mu; f_cov := b_cov; f_weight := b_weight; f_R := b_R;
          f_message_length := b_ml; f_meta := split_meta b_meta b_ml |})%result.

(** The [while True] loop; [None] is a loop that has not left after [fuel]
    rounds. *)
Fixpoint fit_loop (fuel : nat) (y : mat) (num_components : nat) (kw : kwds)
    (s : fit_state) : result (option fit_state) :=
  let K := length (f_weight s) in
  if Nat.leb num_components K then ret (Some s)
  else
    match fuel with
    | O => ret None
    | S fuel' =>
        (s' <- fit_round y kw s ;;
         fit_loop fuel' y num_components kw s')%result
    end.

Definition fit (fuel : nat) (self : GaussianMixture) (y : mat)
    (num_components : nat)
  : result (option (mat * covariances * vec * fit_meta)) :=
  match _threshold self, _max_em_iterations self, _covariance_type self,
        _covariance_regularization self with
  | Some thr, Some max_it, Some ct, Some reg =>
      (let kwds_ := {| covariance_type := ct;
                       covariance_regularization := reg;
                       threshold := thr;
                       max_em_iterations := max_it;
                       dofail := false |} in
       '(mu, cov, weight) <- _initialize y kwds_ ;;
       '(R0, ll, message_length) <- _expectation y mu cov weight kwds_ ;;
       let meta := initial_meta (np_sum ll) message_length in
       final <- fit_loop fuel y num_components kwds_
                  {| f_mu := mu; f_cov := cov; f_weight := weight; f_R := R0;
                     f_message_length := message_length; f_meta := meta |} ;;
       ret (option_map (fun s => (f_mu s, f_cov s, f_weight s, f_meta s))
                       final))%result
  | _, _, _, _ => raise AttributeError
  end.
End Program.
End mixture_search.

(* ===================================================================== *)
(** ** The vocabulary of the specification                                *)
(* ===================================================================== *)

(** [a] equals [b] within the tolerance [tol] *)
Definition within (tol a b : R) : Prop := Rabs (a - b) <= tol.

(** an array of shape [(_, n)] *)
Definition rectangular (n : nat) (m : mat) : Prop :=
  Forall (fun row => length row = n) m.

(** every entry lies in [0, 1] *)
Definition entries_in_unit_interval (m : mat) : Prop :=
  Forall (Forall (fun x => 0 <= x <= 1)) m.

(** every column (one observation) sums to 1 *)
Definition columns_sum_to_one (n : nat) (m : mat) : Prop :=
  forall i, (i < n)%nat -> np_sum (col i m) = 1.

(** A responsibility matrix of the data model: one row per component, one
    column per observation, the entries in [0, 1] and the columns summing
    to 1. *)
Definition responsibility_matrix_of (n : nat) (m : mat) : Prop :=
  rectangular n m /\ entries_in_unit_interval m /\ columns_sum_to_one n m.

(** What the specification asks of a responsibility matrix of [k]
    components over [n] observations: the entries in [0, 1] and every column
    summing to 1 within 1e-8. *)
Definition valid_responsibility (n k : nat) (m : mat) : Prop :=
  length m = k /\ rectangular n m /\ entries_in_unit_interval m /\
  forall i, (i < n)%nat -> within 1e-8 (np_sum (col i m)) 1.


(** The weights both [_maximization] functions compute *)
Definition smoothed_weights (N K : nat) (responsibility : mat) : vec :=
  map (fun e => (e + 0.5) / (INR N + INR K / 2)) (sum_axis1 responsibility).

(** The distance as the docstring of
    [kullback_leibler_for_multivariate_normals] states it:
    [1/2 (Tr(Sigma_b^-1 Sigma_a) + (mu_b - mu_a)^T Sigma_b^-1 (mu_b - mu_a)
          - k + ln(det Sigma_b / det Sigma_a))]. *)
Definition kullback_leibler_documented `{Backend}
    (mu_a : vec) (cov_a : mat) (mu_b : vec) (cov_b : mat) : R :=
  let Cb_inv := svd_inverse cov_b in
  let k := INR (length mu_a) in
  let offset := vsub mu_b mu_a in
  0.5 * (trace (matmul Cb_inv cov_a)
         + dot offset (matvec Cb_inv offset)
         - k
         + ln (linalg_det cov_b / linalg_det cov_a)).

(** A call that does not raise the unsupported-feature error *)
Definition supported {A : Type} (r : result A) : Prop :=
  r <> inr NotImplementedError.

(** [b] is the partner of [index] among [K] components: another component,
    of least distance [dist] from [index], and the first of those. *)
Definition closest_partner (dist : nat -> R) (K index b : nat) : Prop :=
  (b < K)%nat /\ b <> index
  /\ (forall m, (m < K)%nat -> m <> index -> dist b <= dist m)
  /\ (forall m, (m < b)%nat -> m <> index -> dist b < dist m).

(** [new] is [old] with the entry at [del] deleted and the entry that then
    sits at [keep] replaced by [merged]; every other entry is the old one. *)
Definition replaced_at {A : Type} (old new : list A) (del keep : nat)
    (merged d : A) : Prop :=
  length new = pred (length old)
  /\ nth keep new d = merged
  /\ forall j, (j < length new)%nat -> j <> keep ->
       nth j new d = nth (if Nat.ltb j del then j else S j) old d.

(** The covariance array is of the rank its covariance type says. *)
Definition typed (covariance_type : string) (cov : mixture_search.covariances)
  : Prop :=
  match cov with
  | mixture_search.Full _ => covariance_type = "full"%string
  | mixture_search.Diag _ => covariance_type = "diag"%string
  end.

(** The covariance that the estimators of mixture_search give a single
    component of responsibility row [r_k] and mean [mu_k]. *)
Definition merged_covariance (y : mat) (r_k mu_k : vec) (reg : R)
    (cov : mixture_search.covariances) : mixture_search.covariance :=
  let nm := np_sum r_k in
  let diff := sub_row y mu_k in
  match cov with
  | mixture_search.Full _ =>
      mixture_search.FullC
        (madd (mdiv (scatter (ncols y) r_k diff) (mixture_search.denominator nm))
              (mscale reg (eye (ncols y))))
  | mixture_search.Diag _ =>
      mixture_search.DiagC
        (map (fun s => s / mixture_search.denominator nm + reg)
             (weighted_sum (ncols y) r_k (map (map (fun x => x ^ 2)) diff)))
  end.

(** [replaced_at] on a covariance array *)
Definition cov_replaced_at (old new : mixture_search.covariances)
    (del keep : nat) (merged : mixture_search.covariance) : Prop :=
  match old, new, merged with
  | mixture_search.Full c, mixture_search.Full c', mixture_search.FullC m =>
      replaced_at c c' del keep m []
  | mixture_search.Diag c, mixture_search.Diag c', mixture_search.DiagC v =>
      replaced_at c c' del keep v []
  | _, _, _ => False
  end.

(** Every array of the state of the expectation-maximization loop has [n]
    entries along its first axis. *)
Definition em_shape (n : nat) (s : mixture_ka.em_state) : Prop :=
  length (mixture_ka.em_mu s) = n /\ length (mixture_ka.em_cov s) = n
  /\ length (mixture_ka.em_weight s) = n
  /\ length (mixture_ka.em_responsibility s) = n.

(** A perturbation result of [n] components. *)
Definition candidate_size (n : nat) (c : mixture_ka.Candidate) : Prop :=
  length (mixture_ka.c_mu c) = n /\ length (mixture_ka.c_cov c) = n
  /\ length (mixture_ka.c_weight c) = n
  /\ length (mixture_ka.c_responsibility c) = n.

(** The arrays of the search state have one entry per component. *)
Definition well_formed (s : mixture_ka.search_state) : Prop :=
  length (mixture_ka.s_mu s) = length (mixture_ka.s_weight s)
  /\ length (mixture_ka.s_cov s) = length (mixture_ka.s_weight s)
  /\ length (mixture_ka.s_R s) = length (mixture_ka.s_weight s).

(** The results of [perturb] at the indices [ms], each with the operation
    and the index it belongs to, in the order of the calls; the first call
    that raises ends the evaluation. *)
Fixpoint evaluate (op : operation)
    (perturb : nat -> result mixture_ka.Candidate) (ms : list nat)
  : result (list (operation * nat * mixture_ka.Candidate)) :=
  match ms with
  | [] => ret []
  | m :: ms' =>
      (r <- perturb m ;;
       rest <- evaluate op perturb ms' ;;
       ret ((op, m, r) :: rest))%result
  end.

(** The candidates a round of the search has to evaluate on a mixture of
    [K] components: the split of every component and, if [K > 1], the
    deletion of every component and the merge of every component. *)
Definition round_candidates `{Backend} (y : mat) (covariance_type : string)
    (threshold : R) (max_em_iterations : nat) (s : mixture_ka.search_state)
  : result (list (operation * nat * mixture_ka.Candidate)) :=
  (let K := length (mixture_ka.s_weight s) in
   splits <-
     evaluate split
       (fun m => mixture_ka.split_component y (mixture_ka.s_mu s)
                   (mixture_ka.s_cov s) (mixture_ka.s_weight s)
                   (mixture_ka.s_R s) m covariance_type threshold
                   max_em_iterations)
       (seq 0 K) ;;
   if Nat.ltb 1 K then
     deletes <-
       evaluate delete
         (fun m => mixture_ka.delete_component y (mixture_ka.s_mu s)
                     (mixture_ka.s_cov s) (mixture_ka.s_weight s)
                     (mixture_ka.s_R s) m covariance_type threshold
                     max_em_iterations)
         (seq 0 K) ;;
     merges <-
       evaluate merge
         (fun m => mixture_ka.merge_component y (mixture_ka.s_mu s)
                     (mixture_ka.s_cov s) (mixture_ka.s_weight s)
                     (mixture_ka.s_R s) m covariance_type threshold
                     max_em_iterations)
         (seq 0 K) ;;
     ret (splits ++ deletes ++ merges)
   else ret splits)%result.

(** The operations and indices of the candidates of a round on [K]
    components. *)
Definition round_calls (K : nat) : list (operation * nat) :=
  map (pair split) (seq 0 K)
  ++ (if Nat.ltb 1 K
      then map (pair delete) (seq 0 K) ++ map (pair merge) (seq 0 K)
      else []).

(** The search state after the candidate [c] is accepted. *)
Definition accept (s : mixture_ka.search_state) (c : mixture_ka.Candidate)
  : mixture_ka.search_state :=
  {| mixture_ka.s_mu := mixture_ka.c_mu c;
     mixture_ka.s_cov := mixture_ka.c_cov c;
     mixture_ka.s_weight := mixture_ka.c_weight c;
     mixture_ka.s_R := mixture_ka.c_responsibility c;
     mixture_ka.s_mindl := mixture_ka.c_dl c;
     mixture_ka.s_iterations := S (mixture_ka.s_iterations s) |}.

(** The dictionary after the candidates [l] have been offered to it. *)
Definition record (d : defaultdict (nat * mixture_ka.Candidate))
    (l : list (operation * nat * mixture_ka.Candidate))
  : defaultdict (nat * mixture_ka.Candidate) :=
  fold_left
    (fun d x => mixture_ka.keep_best (fst (fst x)) (snd (fst x)) (snd x) d)
    l d.

(** The dictionary [d] holds, under each operation that has a candidate
    among [seen], a candidate of that operation of least message length. *)
Definition best_so_far (d : defaultdict (nat * mixture_ka.Candidate))
    (seen : list (operation * nat * mixture_ka.Candidate)) : Prop :=
  NoDup (map fst d)
  /\ (forall k v, dd_find d k = Some v ->
        exists m r, v = Some (m, r) /\ In (k, m, r) seen
                    /\ forall m' r', In (k, m', r') seen ->
                          mixture_ka.c_dl r <= mixture_ka.c_dl r')
  /\ (forall k m r, In (k, m, r) seen -> dd_find d k <> None).

(** The perturbation [op] of component [m] of the search state. *)
Definition perturb `{Backend} (y : mat) (covariance_type : string)
    (threshold : R) (max_em_iterations : nat) (s : mixture_ka.search_state)
    (op : operation) (m : nat) : result mixture_ka.Candidate :=
  match op with
  | split => mixture_ka.split_component
  | delete => mixture_ka.delete_component
  | merge => mixture_ka.merge_component
  end y (mixture_ka.s_mu s) (mixture_ka.s_cov s) (mixture_ka.s_weight s)
      (mixture_ka.s_R s) m covariance_type threshold max_em_iterations.

(** The number of components after the operation on [K] components. *)
Definition components_after (op : operation) (K : nat) : nat :=
  match op with
  | split => (K + 1)%nat
  | delete | merge => (K - 1)%nat
  end.

(** A call that raises. *)
Definition raises {A : Type} (r : result A) : Prop := exists e, r = inr e.

(** Mixing weights: strictly positive and summing to 1. *)
Definition mixing_weights (w : vec) : Prop :=
  Forall (fun x => 0 < x) w /\ np_sum w = 1.

(** A square matrix of side [d]. *)
Definition square (d : nat) (m : mat) : Prop :=
  length m = d /\ rectangular d m.

(** The state of the loop of [mixture_ka._expectation_maximization] is one
    of [K] components over [N] observations whose responsibility matrix is
    one of the data model. *)
Definition em_normalized (N K : nat) (s : mixture_ka.em_state) : Prop :=
  length (mixture_ka.em_mu s) = K /\ length (mixture_ka.em_cov s) = K
  /\ length (mixture_ka.em_weight s) = K
  /\ length (mixture_ka.em_responsibility s) = K
  /\ responsibility_matrix_of N (mixture_ka.em_responsibility s).

(** Every array of the state of the loop of mixture_search has [n] entries
    along its first axis. *)
Definition search_em_shape (n : nat) (s : mixture_search.em_state) : Prop :=
  length (mixture_search.em_mu s) = n
  /\ mixture_search.cov_size (mixture_search.em_cov s) = n
  /\ length (mixture_search.em_weight s) = n
  /\ length (mixture_search.em_responsibility s) = n.

(** The same with a responsibility matrix of the data model. *)
Definition search_em_normalized (N K : nat) (s : mixture_search.em_state)
  : Prop :=
  search_em_shape K s
  /\ responsibility_matrix_of N (mixture_search.em_responsibility s).

(** A perturbation result of mixture_search of [n] components. *)
Definition search_candidate_size (n : nat) (c : mixture_search.Candidate)
  : Prop :=
  length (mixture_search.c_mu c) = n
  /\ mixture_search.cov_size (mixture_search.c_cov c) = n
  /\ length (mixture_search.c_weight c) = n
  /\ length (mixture_search.c_responsibility c) = n.

(** The state of the loop of [mixture_search.fit] after the candidate [c] is
    installed. *)
Definition installed (c : mixture_search.Candidate) : mixture_search.fit_state :=
  let '(b_mu, b_cov, b_weight, b_R, b_meta, b_ml) := c in
  {| mixture_search.f_mu := b_mu; mixture_search.f_cov := b_cov;
     mixture_search.f_weight := b_weight; mixture_search.f_R := b_R;
     mixture_search.f_message_length := b_ml;
     mixture_search.f_meta := mixture_search.split_meta b_meta b_ml |}.

(** The arrays of the state of [mixture_search.fit] have one entry per
    component. *)
Definition fit_well_formed (s : mixture_search.fit_state) : Prop :=
  length (mixture_search.f_mu s) = length (mixture_search.f_weight s)
  /\ mixture_search.cov_size (mixture_search.f_cov s)
     = length (mixture_search.f_weight s)
  /\ length (mixture_search.f_R s) = length (mixture_search.f_weight s).

(** A configuration of mixture_search for worked examples: diagonal
    covariances with unit regularization and the default threshold. *)
Definition kw_ex : mixture_search.kwds :=
  {| mixture_search.covariance_type := "diag";
     mixture_search.covariance_regularization := 1;
     mixture_search.threshold := 1e-5;
     mixture_search.max_em_iterations := 100;
     mixture_search.dofail := false |}.


(** Data for worked examples of mixture_ka: three observations on a line.
    Their mean is 0 and their sample variance 1. *)
Definition y_ex : mat := [[-1]; [0]; [1]].

(** The message length that [mixture_ka._expectation] gives the
    one-component mixture of mean 0 and variance 1 on [y_ex], with the two
    parameters of a free covariance in one dimension. *)
Definition dl_ex : R := 3 / 2 * ln (2 * PI) + 1 + 3 / 2 * ln 3.

(** The state in which [_fit_kasarapu_allison] enters its loop on [y_ex]. *)
Definition s_ex : mixture_ka.search_state :=
  {| mixture_ka.s_mu := [[0]]; mixture_ka.s_cov := [[[1]]];
     mixture_ka.s_weight := [1]; mixture_ka.s_R := [[1; 1; 1]];
     mixture_ka.s_mindl := dl_ex; mixture_ka.s_iterations := 1 |}.

(* ===================================================================== *)
(** * Part II: properties                                                 *)
(* ===================================================================== *)

(** Equality of arrays of numbers, entry by entry. *)
Ltac array_eq tac :=
  repeat match goal with
         | |- (_, _) = (_, _) => apply f_equal2
         | |- (_ :: _) = (_ :: _) => apply f_equal2
         | |- [] = [] => reflexivity
         | |- _ = _ => tac
         end.

(** ** Arrays *)

Section ArrayFacts.

Lemma map2_length {A B C : Type} (f : A -> B -> C) xs ys :
  length (map2 f xs ys) = Nat.min (length xs) (length ys).
Proof.
  revert ys; induction xs as [|x xs IH]; intros [|y ys]; simpl; auto.
Qed.

Lemma map2_length_same {A B C : Type} (f : A -> B -> C) xs ys n :
  length xs = n -> length ys = n -> length (map2 f xs ys) = n.
Proof. intros Hx Hy. rewrite map2_length, Hx, Hy. apply Nat.min_id. Qed.

Lemma map2_nth {A B C : Type} (f : A -> B -> C) xs ys i da db dc :
  (i < length xs)%nat -> (i < length ys)%nat ->
  nth i (map2 f xs ys) dc = f (nth i xs da) (nth i ys db).
Proof.
  revert ys i; induction xs as [|x xs IH]; intros [|y ys] [|i]; simpl;
    intros Hx Hy; try lia; auto.
  apply IH; lia.
Qed.

Lemma np_sum_app a b : np_sum (a ++ b) = np_sum a + np_sum b.
Proof. induction a as [|x a IH]; simpl; [lra | rewrite IH; lra]. Qed.

Lemma np_sum_div l c : np_sum (map (fun x => x / c) l) = np_sum l / c.
Proof.
  induction l as [|x l IH]; simpl; [unfold Rdiv; lra | rewrite IH].
  unfold Rdiv; lra.
Qed.

Lemma np_sum_repeat c n : np_sum (repeat c n) = INR n * c.
Proof.
  induction n as [|n IH]; [simpl; lra|].
  rewrite S_INR. simpl. rewrite IH. lra.
Qed.

Lemma np_sum_nonneg l : Forall (fun x => 0 <= x) l -> 0 <= np_sum l.
Proof.
  induction 1 as [|x l Hx _ IH]; simpl; lra.
Qed.

Lemma np_sum_shift l c :
  np_sum (map (fun x => x + c) l) = np_sum l + INR (length l) * c.
Proof.
  induction l as [|x l IH]; [simpl; lra|].
  cbn [map np_sum fold_right length]. fold (np_sum (map (fun x => x + c) l)).
  fold (np_sum l). rewrite IH, S_INR. lra.
Qed.

Lemma np_sum_vadd a b :
  length a = length b -> np_sum (vadd a b) = np_sum a + np_sum b.
Proof.
  revert b; induction a as [|x a IH]; intros [|y b]; simpl; intros Hl;
    try discriminate; [lra|].
  fold (vadd a b). fold (np_sum (vadd a b)). fold (np_sum a). fold (np_sum b).
  rewrite IH by lia. lra.
Qed.

Lemma zeros_length n : length (zeros n) = n.
Proof. apply repeat_length. Qed.

Lemma sum_axis0_length n m :
  Forall (fun row => length row = n) m -> length (sum_axis0 n m) = n.
Proof.
  induction 1 as [|row m Hrow _ IH]; simpl; [apply zeros_length|].
  apply map2_length_same; auto.
Qed.

Lemma nth_zeros i n : nth i (zeros n) 0 = 0.
Proof.
  unfold zeros. destruct (Nat.lt_ge_cases i n) as [Hi|Hi].
  - apply nth_repeat_lt; exact Hi.
  - apply nth_overflow. rewrite repeat_length. exact Hi.
Qed.

(** an entry of the column sums is the sum of the column *)
Lemma sum_axis0_nth n m i :
  Forall (fun row => length row = n) m -> (i < n)%nat ->
  nth i (sum_axis0 n m) 0 = np_sum (col i m).
Proof.
  intros Hm Hi. induction Hm as [|row m Hrow Hm IH]; simpl.
  - apply nth_zeros.
  - unfold vadd. rewrite (map2_nth Rplus row _ i 0 0 0).
    + fold (sum_axis0 n m). rewrite IH. reflexivity.
    + lia.
    + fold (sum_axis0 n m). rewrite sum_axis0_length; auto.
Qed.

(** summing rows first or columns first gives the same total *)
Lemma sum_axis1_axis0 n m :
  Forall (fun row => length row = n) m ->
  np_sum (sum_axis1 m) = np_sum (sum_axis0 n m).
Proof.
  induction 1 as [|row m Hrow Hm IH]; simpl.
  - change (np_sum (zeros n)) with (np_sum (repeat 0 n)).
    rewrite np_sum_repeat. lra.
  - fold (sum_axis0 n m). fold (np_sum (sum_axis1 m)).
    rewrite np_sum_vadd, IH; [reflexivity|].
    rewrite sum_axis0_length; auto.
Qed.

Lemma np_sum_all_ones v n :
  length v = n -> (forall i, (i < n)%nat -> nth i v 0 = 1) ->
  np_sum v = INR n.
Proof.
  revert n; induction v as [|x v IH]; intros n Hl Hv; simpl in Hl; subst n.
  - simpl. reflexivity.
  - rewrite S_INR. simpl. fold (np_sum v).
    rewrite (IH (length v) eq_refl).
    + specialize (Hv 0%nat (Nat.lt_0_succ _)). simpl in Hv. lra.
    + intros i Hi. apply (Hv (S i)). simpl. lia.
Qed.

Lemma np_delete_length {A : Type} (l : list A) i :
  (i < length l)%nat -> length (np_delete l i) = pred (length l).
Proof.
  intros Hi. unfold np_delete.
  rewrite length_app, length_firstn, length_skipn. lia.
Qed.

Lemma set_item_length {A : Type} (l : list A) i v :
  (i < length l)%nat -> length (set_item l i v) = length l.
Proof.
  intros Hi. unfold set_item.
  rewrite length_app, length_firstn. cbn [length]. rewrite length_skipn. lia.
Qed.

Lemma split_at {A : Type} (l : list A) i d :
  (i < length l)%nat -> l = firstn i l ++ nth i l d :: skipn (S i) l.
Proof.
  revert i; induction l as [|x l IH]; intros [|i] Hi; simpl in *; try lia.
  - reflexivity.
  - f_equal. apply IH. lia.
Qed.

(** the sum of an array is the deleted entry plus the sum of the rest *)
Lemma np_sum_delete l i :
  (i < length l)%nat -> np_sum l = nth i l 0 + np_sum (np_delete l i).
Proof.
  intros Hi. rewrite (split_at l i 0 Hi) at 1. unfold np_delete.
  rewrite !np_sum_app. simpl. lra.
Qed.

Lemma np_sum_set_item l i v :
  (i < length l)%nat -> np_sum (set_item l i v) = np_sum l - nth i l 0 + v.
Proof.
  intros Hi. rewrite (split_at l i 0 Hi) at 2. unfold set_item.
  rewrite !np_sum_app. simpl. lra.
Qed.

Lemma np_clip_bounds x lo hi : lo <= hi -> lo <= np_clip x lo hi <= hi.
Proof.
  intros Hle. unfold np_clip, Rmin, Rmax.
  repeat destruct Rle_dec; lra.
Qed.

Lemma np_clip_id x lo hi : lo <= x <= hi -> np_clip x lo hi = x.
Proof.
  intros Hx. unfold np_clip, Rmin, Rmax.
  repeat destruct Rle_dec; lra.
Qed.

Lemma eps_pos : 0 < eps.
Proof. unfold eps. apply Rinv_0_lt_compat. apply pow_lt. lra. Qed.

Lemma eps_le_1 : eps <= 1.
Proof.
  unfold eps. rewrite <- Rinv_1. apply Rinv_le_contravar; [lra|].
  apply pow_R1_Rle. lra.
Qed.

Lemma Rltb_true x y : Rltb x y = true <-> x < y.
Proof. unfold Rltb. destruct Rlt_dec; split; intros; auto; discriminate. Qed.

Lemma Rltb_false x y : Rltb x y = false <-> y <= x.
Proof.
  unfold Rltb. destruct Rlt_dec; split; intros; auto; try discriminate; lra.
Qed.

Lemma Rleb_true x y : Rleb x y = true <-> x <= y.
Proof. unfold Rleb. destruct Rle_dec; split; intros; auto; discriminate. Qed.

Lemma Rleb_false x y : Rleb x y = false <-> y < x.
Proof.
  unfold Rleb. destruct Rle_dec; split; intros; auto; try discriminate; lra.
Qed.

End ArrayFacts.

Lemma combine_nth_lt {A B : Type} (a : list A) (b : list B) i da db :
  (i < length a)%nat -> (i < length b)%nat ->
  nth i (combine a b) (da, db) = (nth i a da, nth i b db).
Proof.
  revert b i; induction a as [|x a IH]; intros [|y b] [|i]; simpl;
    intros Ha Hb; try lia; auto.
  apply IH; lia.
Qed.

Lemma map_nth_lt {A B : Type} (f : A -> B) (l : list A) i da db :
  (i < length l)%nat -> nth i (map f l) db = f (nth i l da).
Proof.
  revert i; induction l as [|x l IH]; intros [|i]; simpl; intros Hi;
    try lia; auto.
  apply IH; lia.
Qed.

Lemma sum_axis1_nth m k :
  nth k (sum_axis1 m) 0 = np_sum (nth k m []).
Proof.
  unfold sum_axis1. change 0 with (np_sum []) at 1. apply map_nth.
Qed.

Lemma Forall_nth_lt {A : Type} (P : A -> Prop) (l : list A) i d :
  Forall P l -> (i < length l)%nat -> P (nth i l d).
Proof. intros HP Hi. rewrite Forall_forall in HP. apply HP, nth_In, Hi. Qed.

(** ** The divisor of the covariance estimators (mixture_search) *)

Section CovarianceEstimators.
Import mixture_search.

Lemma denominator_cases nm :
  (1 < nm -> denominator nm = nm - 1) /\ (nm <= 1 -> denominator nm = nm).
Proof.
  unfold denominator, Rltb. destruct (Rlt_dec 1 nm); split; intros; auto; lra.
Qed.

Lemma denominator_positive nm : 0 < nm -> 0 < denominator nm.
Proof.
  intros Hnm. destruct (denominator_cases nm) as [Hgt Hle].
  destruct (Rlt_dec 1 nm); [rewrite Hgt | rewrite Hle]; lra.
Qed.

Lemma estimate_full_nth y responsibility mean reg m :
  (m < length mean)%nat -> (m < length responsibility)%nat ->
  nth m (_estimate_covariance_matrix_full y responsibility mean reg) [] =
  madd (mdiv (scatter (ncols y) (nth m responsibility [])
                      (sub_row y (nth m mean [])))
             (denominator (np_sum (nth m responsibility []))))
       (mscale reg (eye (ncols y))).
Proof.
  intros Hm Hr. unfold _estimate_covariance_matrix_full, shape.
  cbv beta iota zeta.
  rewrite (@map_nth_lt (vec * vec * R) mat _ _ m ([], [], 0) []).
  - rewrite (@combine_nth_lt (vec * vec) R _ _ m ([], []) 0).
    + rewrite (@combine_nth_lt vec vec _ _ m [] []) by assumption.
      rewrite sum_axis1_nth. reflexivity.
    + rewrite length_combine. lia.
    + unfold sum_axis1. rewrite length_map. exact Hr.
  - rewrite !length_combine. unfold sum_axis1. rewrite length_map. lia.
Qed.

Lemma estimate_diag_nth y responsibility mean reg m :
  (m < length mean)%nat -> (m < length responsibility)%nat ->
  nth m (_estimate_covariance_matrix_diag y responsibility mean reg) [] =
  map (fun s => s / denominator (np_sum (nth m responsibility [])) + reg)
      (weighted_sum (ncols y) (nth m responsibility [])
         (map (map (fun x => x ^ 2)) (sub_row y (nth m mean [])))).
Proof.
  intros Hm Hr. unfold _estimate_covariance_matrix_diag, shape.
  cbv beta iota zeta.
  rewrite (@map_nth_lt (vec * vec * R) vec _ _ m ([], [], 0) []).
  - rewrite (@combine_nth_lt (vec * vec) R _ _ m ([], []) 0).
    + rewrite (@combine_nth_lt vec vec _ _ m [] []) by assumption.
      rewrite sum_axis1_nth. reflexivity.
    + rewrite length_combine. lia.
    + unfold sum_axis1. rewrite length_map. exact Hr.
  - rewrite !length_combine. unfold sum_axis1. rewrite length_map. lia.
Qed.

(** C10.  In both covariance estimators of mixture_search, the covariance of
    component [m] is the weighted scatter of its responsibility row divided
    by [denominator nm], where [nm] is the effective membership of the row;
    whenever [nm] is strictly positive that divisor is strictly positive: it
    is [nm - 1] when [nm > 1] and [nm] itself otherwise. *)
Theorem covariance_divisor_positive :
  forall (y responsibility mean : mat) (reg : R) (m : nat),
    (m < length mean)%nat -> (m < length responsibility)%nat ->
    0 < np_sum (nth m responsibility []) ->
    let rm := nth m responsibility [] in
    let nm := np_sum rm in
    let diff := sub_row y (nth m mean []) in
    nth m (_estimate_covariance_matrix_full y responsibility mean reg) [] =
      madd (mdiv (scatter (ncols y) rm diff) (denominator nm))
           (mscale reg (eye (ncols y)))
    /\ nth m (_estimate_covariance_matrix_diag y responsibility mean reg) [] =
      map (fun s => s / denominator nm + reg)
          (weighted_sum (ncols y) rm (map (map (fun x => x ^ 2)) diff))
    /\ 0 < denominator nm
    /\ (1 < nm -> denominator nm = nm - 1)
    /\ (nm <= 1 -> denominator nm = nm).
Proof.
  intros y responsibility mean reg m Hm Hr Hpos rm nm diff.
  split; [apply estimate_full_nth; assumption|].
  split; [apply estimate_diag_nth; assumption|].
  split; [apply denominator_positive; exact Hpos|].
  apply denominator_cases.
Qed.

(** A row of half responsibilities over one observation: the divisor is the
    membership itself, 1/2. *)
Lemma covariance_divisor_positive_witness :
  0 < denominator (np_sum [1 / 2]) /\ denominator (np_sum [1 / 2]) = 1 / 2.
Proof.
  assert (Hpos : 0 < np_sum (nth 0 [[1 / 2]] [])) by (simpl; lra).
  destruct (covariance_divisor_positive [[0; 0]] [[1 / 2]] [[0; 0]] 0 0
              (Nat.lt_0_succ 0) (Nat.lt_0_succ 0) Hpos)
    as (_ & _ & Hd & _ & Hle).
  split; [exact Hd|].
  simpl in Hle. replace (np_sum [1 / 2]) with (1 / 2 + 0) by reflexivity.
  rewrite Hle; lra.
Defined.

End CovarianceEstimators.

(** ** The weights after deleting a component *)

Section DeleteRenormalization.

Lemma np_sum_ge_member l x :
  Forall (fun w => 0 <= w) l -> In x l -> x <= np_sum l.
Proof.
  induction 1 as [|w l Hw Hl IH]; simpl; intros Hin; [contradiction|].
  pose proof (np_sum_nonneg l Hl) as Hs. fold (np_sum l).
  destruct Hin as [->|Hin]; [lra|]. specialize (IH Hin). lra.
Qed.

Lemma Forall_take {A : Type} (P : A -> Prop) (l : list A) n :
  Forall P l -> Forall P (firstn n l).
Proof.
  intros HP. revert n. induction HP as [|x l Hx HP IH]; intros [|n]; simpl;
    constructor; auto.
Qed.

Lemma Forall_drop {A : Type} (P : A -> Prop) (l : list A) n :
  Forall P l -> Forall P (skipn n l).
Proof.
  intros HP. revert n. induction HP as [|x l Hx HP IH]; intros [|n]; simpl;
    auto.
Qed.

Lemma Forall_np_delete {A : Type} (P : A -> Prop) (l : list A) i :
  Forall P l -> Forall P (np_delete l i).
Proof.
  intros HP. unfold np_delete. apply Forall_app. split.
  - apply Forall_take. exact HP.
  - apply Forall_drop. exact HP.
Qed.

Lemma within_refl tol a : 0 <= tol -> within tol a a.
Proof.
  intros Htol. unfold within. replace (a - a) with 0 by lra.
  rewrite Rabs_R0. exact Htol.
Qed.

(** dividing what is left by one minus what was removed *)
Lemma renormalized_sum weight index :
  (index < length weight)%nat -> np_sum weight = 1 ->
  nth index weight 0 < 1 ->
  np_sum (map (fun w => w / (1 - nth index weight 0))
              (np_delete weight index)) = 1.
Proof.
  intros Hi Hsum Hlt. rewrite np_sum_div.
  pose proof (np_sum_delete weight index Hi) as Hd.
  replace (np_sum (np_delete weight index)) with (1 - nth index weight 0)
    by lra.
  field. lra.
Qed.

(** on a mixture the clip of mixture_search changes nothing *)
Lemma renormalized_clip weight index :
  (index < length weight)%nat -> np_sum weight = 1 ->
  nth index weight 0 < 1 -> Forall (fun w => 0 <= w) weight ->
  map (fun w => np_clip (w / (1 - nth index weight 0)) 0 1)
      (np_delete weight index)
  = map (fun w => w / (1 - nth index weight 0)) (np_delete weight index).
Proof.
  intros Hi Hsum Hlt Hpos. apply map_ext_in. intros w Hw.
  apply np_clip_id.
  pose proof (np_sum_delete weight index Hi) as Hd.
  pose proof (np_sum_ge_member _ w (Forall_np_delete _ _ index Hpos) Hw) as Hle.
  assert (H0 : 0 <= w).
  { pose proof (Forall_np_delete _ _ index Hpos) as HF.
    rewrite Forall_forall in HF. apply HF, Hw. }
  split.
  - apply Rmult_le_pos; [exact H0|]. left. apply Rinv_0_lt_compat. lra.
  - apply Rmult_le_reg_r with (1 - nth index weight 0); [lra|].
    unfold Rdiv. rewrite Rmult_assoc, Rinv_l by lra. lra.
Qed.

(** C7.  Let the weights of a mixture sum to 1 and let the weight at [index]
    be strictly less than 1.  The weights that [delete_component] hands to
    expectation-maximization, each remaining weight divided by one minus the
    removed weight, sum to 1 within 1e-8: in mixture_ka as they are, and in
    mixture_search, which also clips them into [0, 1], for the non-negative
    weights of a mixture. *)
Theorem delete_weights_sum_to_one :
  forall (mu : mat) (cov : list mat) (cov' : mixture_search.covariances)
         (weight : vec) (responsibility : mat) (index : nat),
    (index < length weight)%nat ->
    np_sum weight = 1 ->
    nth index weight 0 < 1 ->
    let '(_, _, new_weight, _) :=
      mixture_ka.delete_perturbation mu cov weight responsibility index in
    let '(_, _, new_weight', _) :=
      mixture_search.delete_perturbation mu cov' weight responsibility index in
    new_weight = map (fun w => w / (1 - nth index weight 0))
                     (np_delete weight index)
    /\ within 1e-8 (np_sum new_weight) 1
    /\ (Forall (fun w => 0 <= w) weight ->
        new_weight' = new_weight /\ within 1e-8 (np_sum new_weight') 1).
Proof.
  intros mu cov cov' weight responsibility index Hi Hsum Hlt.
  unfold mixture_ka.delete_perturbation, mixture_search.delete_perturbation.
  cbv beta iota zeta.
  split; [reflexivity|].
  split.
  - rewrite renormalized_sum by assumption. apply within_refl. lra.
  - intros Hpos. rewrite renormalized_clip by assumption.
    split; [reflexivity|].
    rewrite renormalized_sum by assumption. apply within_refl. lra.
Qed.

(** Deleting the first of three components with weights 1/2, 1/4, 1/4. *)
Lemma delete_weights_sum_to_one_witness :
  within 1e-8 (np_sum [(1 / 4) / (1 - 1 / 2); (1 / 4) / (1 - 1 / 2)]) 1.
Proof.
  assert (Hsum : np_sum [1 / 2; 1 / 4; 1 / 4] = 1) by (simpl; lra).
  assert (Hlt : nth 0 [1 / 2; 1 / 4; 1 / 4] 0 < 1) by (simpl; lra).
  assert (Hi : (0 < length [1 / 2; 1 / 4; 1 / 4])%nat) by (simpl; lia).
  pose proof (delete_weights_sum_to_one [] [] (mixture_search.Full [])
                [1 / 2; 1 / 4; 1 / 4] [] 0 Hi Hsum Hlt) as Hthm.
  cbv beta iota zeta delta [mixture_ka.delete_perturbation
                            mixture_search.delete_perturbation] in Hthm.
  destruct Hthm as (_ & Hwithin & _). exact Hwithin.
Defined.

End DeleteRenormalization.

(** ** The weights of the M-step *)

Section MaximizationWeights.

Lemma ka_maximization_weight y mu cov weight responsibility parent :
  snd (mixture_ka._maximization y mu cov weight responsibility parent)
  = smoothed_weights (length y) (length weight) responsibility.
Proof. reflexivity. Qed.

Lemma search_maximization_weight y mu cov weight responsibility parent kw r :
  mixture_search._maximization y mu cov weight responsibility parent kw = inl r ->
  snd r = smoothed_weights (length y) (length weight) responsibility.
Proof.
  unfold mixture_search._maximization, shape. cbv beta iota zeta.
  destruct (mixture_search._estimate_covariance_matrix _ _ _ _ _) as [c|e];
    simpl; intros Hr; [|discriminate].
  injection Hr as <-. reflexivity.
Qed.


Lemma effective_membership_total N responsibility :
  rectangular N responsibility -> columns_sum_to_one N responsibility ->
  np_sum (sum_axis1 responsibility) = INR N.
Proof.
  intros Hrect Hcols. rewrite (sum_axis1_axis0 N) by exact Hrect.
  apply np_sum_all_ones.
  - apply sum_axis0_length. exact Hrect.
  - intros i Hi. rewrite sum_axis0_nth by assumption. apply Hcols, Hi.
Qed.

Lemma smoothed_weights_sum N K responsibility :
  length responsibility = K -> (0 < K)%nat ->
  rectangular N responsibility -> columns_sum_to_one N responsibility ->
  np_sum (smoothed_weights N K responsibility) = 1.
Proof.
  intros HK Hpos Hrect Hcols. unfold smoothed_weights.
  rewrite <- (map_map (fun e => e + 0.5) (fun x => x / (INR N + INR K / 2))).
  rewrite np_sum_div, np_sum_shift.
  rewrite (effective_membership_total N) by assumption.
  unfold sum_axis1. rewrite length_map, HK.
  assert (0 < INR K) by (apply lt_0_INR; exact Hpos).
  pose proof (pos_INR N).
  replace (INR N + INR K * 0.5) with (INR N + INR K / 2) by lra.
  apply Rdiv_diag. lra.
Qed.

Lemma smoothed_weights_positive N K responsibility :
  (0 < K)%nat -> entries_in_unit_interval responsibility ->
  Forall (fun w => 0 < w) (smoothed_weights N K responsibility).
Proof.
  intros Hpos Hunit. unfold smoothed_weights, sum_axis1.
  rewrite map_map. apply Forall_map.
  assert (0 < INR K) by (apply lt_0_INR; exact Hpos).
  pose proof (pos_INR N).
  induction Hunit as [|row m Hrow _ IH]; constructor; [|exact IH].
  assert (0 <= np_sum row).
  { apply np_sum_nonneg. eapply Forall_impl; [|exact Hrow].
    simpl. intros a Ha. lra. }
  apply Rdiv_lt_0_compat; lra.
Qed.



End MaximizationWeights.

(** ** The responsibility matrix *)

Section Normalization.

Lemma In_map2 {A B C : Type} (f : A -> B -> C) xs ys z da db :
  In z (map2 f xs ys) ->
  exists i, (i < length xs)%nat /\ (i < length ys)%nat /\
            z = f (nth i xs da) (nth i ys db).
Proof.
  revert ys; induction xs as [|x xs IH]; intros [|y ys]; simpl;
    try contradiction.
  intros [<-|Hin].
  - exists 0%nat. repeat split; lia.
  - destruct (IH ys Hin) as (i & Hx & Hy & ->).
    exists (S i). repeat split; lia.
Qed.

Lemma col_length i m : length (col i m) = length m.
Proof. unfold col. apply length_map. Qed.

Lemma col_In i n m row :
  rectangular n m -> In row m -> In (nth i row 0) (col i m).
Proof. intros _ Hin. unfold col. apply (in_map (fun r => nth i r 0)), Hin. Qed.

Lemma col_Forall (P : R -> Prop) i n m :
  rectangular n m -> (i < n)%nat -> Forall (Forall P) m -> Forall P (col i m).
Proof.
  intros Hrect Hi HP. unfold col, rectangular in *. apply Forall_map.
  rewrite Forall_forall in *. intros row Hrow.
  specialize (HP row Hrow). specialize (Hrect row Hrow).
  apply Forall_nth_lt; [exact HP | lia].
Qed.

Lemma np_sum_positive l :
  l <> [] -> Forall (fun x => 0 < x) l -> 0 < np_sum l.
Proof.
  intros Hne HP. destruct HP as [|x l Hx HP]; [contradiction|].
  simpl. fold (np_sum l).
  assert (0 <= np_sum l).
  { apply np_sum_nonneg. eapply Forall_impl; [|exact HP]. simpl; intros; lra. }
  lra.
Qed.

(** column [i] of a matrix whose rows are divided entrywise by [t] *)
Lemma col_map_vdiv n c t i :
  rectangular n c -> length t = n -> (i < n)%nat ->
  col i (map (fun row => vdiv row t) c)
  = map (fun x => x / nth i t 0) (col i c).
Proof.
  intros Hrect Ht Hi. unfold col. rewrite !map_map.
  apply map_ext_in. intros row Hrow.
  unfold rectangular in Hrect. rewrite Forall_forall in Hrect.
  specialize (Hrect row Hrow).
  unfold vdiv. apply (map2_nth Rdiv row t i 0 0 0); lia.
Qed.

(** [responsibility /= np.sum(responsibility, axis=0)] on positive entries *)
Lemma normalized_by_columns n c :
  c <> [] -> rectangular n c -> Forall (Forall (fun x => 0 < x)) c ->
  responsibility_matrix_of n (map (fun row => vdiv row (sum_axis0 n c)) c).
Proof.
  intros Hne Hrect Hpos.
  assert (Ht : length (sum_axis0 n c) = n) by (apply sum_axis0_length, Hrect).
  assert (Hcolpos : forall i, (i < n)%nat -> 0 < np_sum (col i c)).
  { intros i Hi. apply np_sum_positive.
    - destruct c; [contradiction | discriminate].
    - apply (col_Forall _ i n); assumption. }
  split; [|split].
  - unfold rectangular in *. apply Forall_map.
    eapply Forall_impl; [|exact Hrect]. simpl. intros row Hrow.
    unfold vdiv. apply map2_length_same; assumption.
  - unfold entries_in_unit_interval. apply Forall_map.
    rewrite Forall_forall. intros row Hrow. rewrite Forall_forall.
    intros z Hz. unfold vdiv in Hz.
    destruct (In_map2 Rdiv row _ z 0 0 Hz) as (i & Hi & _ & ->).
    unfold rectangular in Hrect. pose proof Hrect as Hrect'.
    rewrite Forall_forall in Hrect'. rewrite (Hrect' row Hrow) in Hi.
    rewrite sum_axis0_nth by assumption.
    specialize (Hcolpos i Hi).
    assert (Hx : 0 < nth i row 0).
    { rewrite Forall_forall in Hpos. specialize (Hpos row Hrow).
      apply Forall_nth_lt; [exact Hpos|]. rewrite (Hrect' row Hrow). exact Hi. }
    assert (Hle : nth i row 0 <= np_sum (col i c)).
    { apply np_sum_ge_member.
      - apply (col_Forall (fun x => 0 <= x) i n); try assumption.
        eapply Forall_impl; [|exact Hpos]. simpl. intros r Hr.
        eapply Forall_impl; [|exact Hr]. simpl; intros; lra.
      - apply (col_In i n); assumption. }
    split.
    + apply Rmult_le_pos; [lra|]. left. apply Rinv_0_lt_compat. exact Hcolpos.
    + apply Rmult_le_reg_r with (np_sum (col i c)); [exact Hcolpos|].
      unfold Rdiv. rewrite Rmult_assoc, Rinv_l by lra. lra.
  - intros i Hi. rewrite (col_map_vdiv n) by assumption.
    rewrite np_sum_div, sum_axis0_nth by assumption.
    apply Rdiv_diag. specialize (Hcolpos i Hi). lra.
Qed.

Lemma responsibility_matrix_of_valid n k m :
  length m = k -> responsibility_matrix_of n m -> valid_responsibility n k m.
Proof.
  intros Hk (Hrect & Hunit & Hcols). repeat split; try assumption.
  intros i Hi. rewrite (Hcols i Hi). apply within_refl. lra.
Qed.

End Normalization.

Section ResponsibilityKA.
Context `{Backend}.

Lemma sub_row_length y m : length (sub_row y m) = length y.
Proof. unfold sub_row. apply length_map. Qed.

(** mixture_ka: after the clip and the division by the column sums the
    result is a responsibility matrix, whatever the densities were *)
Lemma ka_responsibility_matrix_of y mu cov weight :
  combine (combine mu cov) weight <> [] ->
  let R0 := fst (fst (mixture_ka.responsibility_matrix y mu cov weight)) in
  length R0 = length (combine (combine mu cov) weight)
  /\ responsibility_matrix_of (length y) R0.
Proof.
  intros Hne. unfold mixture_ka.responsibility_matrix, shape.
  cbv beta iota zeta. cbn [fst].
  set (numerator := map _ (combine (combine mu cov) weight)).
  set (denominator := map _ (sum_axis0 (length y) numerator)).
  set (clipped :=
         map (fun row => map (fun x => np_clip x eps 1) (vdiv row denominator))
             numerator).
  assert (Hnum : rectangular (length y) numerator).
  { unfold rectangular, numerator. apply Forall_map.
    apply Forall_forall. intros [[mu_k cov_k] w_k] _.
    rewrite length_map. apply sub_row_length. }
  assert (Hden : length denominator = length y).
  { unfold denominator. rewrite length_map. apply sum_axis0_length, Hnum. }
  split.
  - unfold clipped, numerator. rewrite !length_map. reflexivity.
  - apply normalized_by_columns.
    + unfold clipped, numerator.
      destruct (combine (combine mu cov) weight); [contradiction|discriminate].
    + unfold rectangular, clipped. apply Forall_map.
      eapply Forall_impl; [|exact Hnum]. simpl. intros row Hrow.
      rewrite length_map. unfold vdiv. apply map2_length_same; assumption.
    + unfold clipped. apply Forall_map. apply Forall_forall. intros row _.
      apply Forall_map. apply Forall_forall. intros x _.
      pose proof (np_clip_bounds x eps 1 eps_le_1). pose proof eps_pos. lra.
Qed.

End ResponsibilityKA.

Section ResponsibilitySearch.
Context `{Backend}.
Import mixture_search.

(** a row of [exp(weighted_log_prob - logsumexp(weighted_log_prob))] *)
Lemma softmax_row (w : vec) :
  w <> [] ->
  let e := map exp (map (fun x => x - logsumexp w) w) in
  Forall (fun x => 0 <= x <= 1) e /\ np_sum e = 1.
Proof.
  intros Hne. cbv zeta. unfold logsumexp.
  assert (Hpos : Forall (fun x => 0 < x) (map exp w)).
  { apply Forall_map, Forall_forall. intros x _. apply exp_pos. }
  assert (HS : 0 < np_sum (map exp w)).
  { apply np_sum_positive; [|exact Hpos]. destruct w; [contradiction|discriminate]. }
  assert (Heq : map exp (map (fun x => x - ln (np_sum (map exp w))) w)
                = map (fun x => x / np_sum (map exp w)) (map exp w)).
  { rewrite !map_map. apply map_ext. intros x.
    unfold Rminus. rewrite exp_plus, exp_Ropp, exp_ln by exact HS.
    reflexivity. }
  rewrite Heq. split.
  - apply Forall_map. apply Forall_forall. intros x Hx.
    assert (Hx0 : 0 < x).
    { rewrite Forall_forall in Hpos. apply Hpos, Hx. }
    assert (Hle : x <= np_sum (map exp w)).
    { apply np_sum_ge_member; [|exact Hx].
      eapply Forall_impl; [|exact Hpos]. simpl; intros; lra. }
    split.
    + apply Rmult_le_pos; [lra|]. left. apply Rinv_0_lt_compat, HS.
    + apply Rmult_le_reg_r with (np_sum (map exp w)); [exact HS|].
      unfold Rdiv. rewrite Rmult_assoc, Rinv_l by lra. lra.
  - rewrite np_sum_div. apply Rdiv_diag. lra.
Qed.

Lemma nth_seq_self (v : vec) :
  map (fun k => nth k v 0) (seq 0 (length v)) = v.
Proof.
  apply (nth_ext _ _ 0 0).
  - rewrite length_map, length_seq. reflexivity.
  - intros i Hi. rewrite length_map, length_seq in Hi.
    rewrite (map_nth_lt _ _ i 0%nat 0) by (rewrite length_seq; exact Hi).
    rewrite seq_nth by exact Hi. reflexivity.
Qed.

(** [e.T] of an array [e] of shape [(n, k)] *)
Lemma transposed_responsibility n k (e : mat) :
  length e = n -> rectangular k e ->
  Forall (fun row => Forall (fun x => 0 <= x <= 1) row /\ np_sum row = 1) e ->
  let t := map (fun j => col j e) (seq 0 k) in
  length t = k /\ responsibility_matrix_of n t.
Proof.
  intros Hn Hrect He. cbv zeta. split; [|split; [|split]].
  - rewrite length_map, length_seq. reflexivity.
  - unfold rectangular. apply Forall_map, Forall_forall. intros j _.
    rewrite col_length. exact Hn.
  - unfold entries_in_unit_interval. apply Forall_map, Forall_forall.
    intros j Hj. apply in_seq in Hj. unfold col.
    apply Forall_map. unfold rectangular in Hrect.
    rewrite Forall_forall in *. intros row Hrow.
    apply Forall_nth_lt; [apply (He row Hrow)|].
    rewrite (Hrect row Hrow). lia.
  - intros i Hi. unfold col at 1. rewrite map_map.
    assert (Hrow : In (nth i e []) e) by (apply nth_In; lia).
    unfold rectangular in Hrect. rewrite Forall_forall in Hrect, He.
    replace (map (fun j => nth i (col j e) 0) (seq 0 k)) with (nth i e []).
    + apply (He _ Hrow).
    + rewrite <- (nth_seq_self (nth i e [])) at 1.
      rewrite (Hrect _ Hrow). apply map_ext. intros j.
      unfold col. symmetry.
      apply (@map_nth_lt vec R (fun row => nth j row 0) e i [] 0). lia.
Qed.

Lemma map2_map_self {A B C : Type} (f : A -> B -> C) (g : A -> B) l :
  map2 f l (map g l) = map (fun x => f x (g x)) l.
Proof. induction l as [|x l IH]; simpl; [reflexivity | rewrite IH; reflexivity]. Qed.

Lemma cholesky_precisions_length D c p :
  cholesky_precisions D c = inl p -> length p = length c.
Proof.
  revert p; induction c as [|m c IH]; simpl; intros p Hp.
  - injection Hp as <-. reflexivity.
  - destruct (linalg_cholesky m); [|discriminate].
    destruct (cholesky_precisions D c) as [rest|e]; simpl in Hp;
      [|discriminate].
    injection Hp as <-. simpl. f_equal. apply IH. reflexivity.
Qed.


Lemma precision_cholesky_size cov ct pc :
  _compute_precision_cholesky cov ct = inl pc -> cov_size pc = cov_size cov.
Proof.
  unfold _compute_precision_cholesky.
  destruct (in_str ct "full").
  - destruct cov as [c|c]; [|discriminate].
    destruct (cholesky_precisions _ c) as [p|e] eqn:Hp; simpl;
      [|discriminate].
    intros Heq. injection Heq as <-. simpl.
    apply (cholesky_precisions_length _ _ _ Hp).
  - destruct (in_str ct "diag"); [|discriminate].
    destruct cov as [c|c]; [discriminate|].
    destruct (existsb (existsb (fun x => Rleb x 0)) c); [discriminate|].
    intros Heq. injection Heq as <-. simpl. apply length_map.
Qed.

Lemma log_det_length pc ct n ld :
  _compute_log_det_cholesky pc ct n = inl ld -> length ld = cov_size pc.
Proof.
  unfold _compute_log_det_cholesky. destruct pc as [c|c].
  - destruct (String.eqb ct "full"); [|discriminate].
    intros Heq. injection Heq as <-. apply length_map.
  - destruct (String.eqb ct "diag"); [|discriminate].
    intros Heq. injection Heq as <-. apply length_map.
Qed.

Lemma log_gaussian_prob_shape X means pc ct lp :
  _estimate_log_gaussian_prob X means pc ct = inl lp ->
  length means = cov_size pc ->
  length lp = length X /\ rectangular (length means) lp.
Proof.
  unfold _estimate_log_gaussian_prob, shape. cbv beta iota zeta.
  destruct (_compute_log_det_cholesky pc ct (ncols X)) as [ld|e] eqn:Hld;
    simpl; [|discriminate].
  apply log_det_length in Hld.
  destruct pc as [c|c]; simpl; intros Heq Hlen; injection Heq as <-;
    simpl in Hlen, Hld.
  - split; [rewrite !length_map; reflexivity|].
    unfold rectangular. rewrite map_map. apply Forall_map, Forall_forall.
    intros x _.
    apply map2_length_same; [|exact (eq_trans Hld (eq_sym Hlen))].
    apply map2_length_same; [reflexivity | exact (eq_sym Hlen)].
  - split; [rewrite !length_map; reflexivity|].
    unfold rectangular. rewrite map_map. apply Forall_map, Forall_forall.
    intros x _.
    apply map2_length_same; [|exact (eq_trans Hld (eq_sym Hlen))].
    apply map2_length_same; [reflexivity|].
    rewrite length_map. exact (eq_sym Hlen).
Qed.

(** mixture_search: what [responsibility_matrix] returns is a responsibility
    matrix *)
Lemma search_responsibility_matrix_of y mu cov weight kw R0 ll :
  (0 < length mu)%nat ->
  cov_size cov = length mu -> length weight = length mu ->
  responsibility_matrix y mu cov weight kw = inl (R0, ll) ->
  length R0 = length mu /\ responsibility_matrix_of (length y) R0.
Proof.
  intros HK Hcov Hw. unfold responsibility_matrix.
  destruct (_compute_precision_cholesky cov (covariance_type kw))
    as [pc|e] eqn:Hpc; simpl; [|discriminate].
  apply precision_cholesky_size in Hpc.
  destruct (_estimate_log_gaussian_prob y mu pc (covariance_type kw))
    as [lp|e] eqn:Hlp; simpl; [|discriminate].
  apply log_gaussian_prob_shape in Hlp; [|lia].
  destruct Hlp as [Hlen Hrect].
  destruct (dofail kw); [discriminate|].
  intros Heq. injection Heq as <- _.
  rewrite map2_map_self, map_map.
  apply transposed_responsibility.
  - rewrite !length_map. exact Hlen.
  - unfold rectangular in *. rewrite map_map. apply Forall_map.
    eapply Forall_impl; [|exact Hrect]. simpl. intros row Hrow.
    rewrite !length_map. unfold vadd. apply map2_length_same; [|exact Hrow].
    rewrite length_map. exact Hw.
  - rewrite map_map. apply Forall_map. unfold rectangular in Hrect.
    eapply Forall_impl; [|exact Hrect]. simpl. intros row Hrow.
    apply softmax_row. intros Hnil.
    apply (f_equal (@length R)) in Hnil. unfold vadd in Hnil.
    rewrite (map2_length_same Rplus _ _ (length mu)) in Hnil;
      [simpl in Hnil; lia | rewrite length_map; exact Hw | exact Hrow].
Qed.


Lemma existsb_nonpositive_false (c : mat) :
  Forall (Forall (fun x => 0 < x)) c ->
  existsb (existsb (fun x => Rleb x 0)) c = false.
Proof.
  induction 1 as [|row c Hrow _ IH]; simpl; [reflexivity|].
  rewrite IH, orb_false_r.
  induction Hrow as [|x row Hx _ IHrow]; simpl; [reflexivity|].
  rewrite IHrow, orb_false_r. apply Rleb_false. exact Hx.
Qed.


End ResponsibilitySearch.



(** ** The Kullback-Leibler distance *)

Section KullbackLeibler.

Lemma ln_half_negative : ln (1 / 2) < - / 2.
Proof.
  replace (1 / 2) with (/ 2) by lra.
  rewrite ln_Rinv by lra. pose proof ln_lt_2. lra.
Qed.

Lemma ln_2_lt_1 : ln 2 < 1.
Proof.
  rewrite <- (ln_exp 1). apply ln_increasing; [lra|].
  pose proof (exp_ineq1 1). lra.
Qed.

(** C4.  At the unit normal [a] and the normal [b] of the same mean and of
    variance 1/2 (one dimension), both implementations return
    [1/2 (1/2 - 1 + ln(1/2))], which is negative, where the distance of the
    docstring, whose trace term is [Tr(Sigma_b^-1 Sigma_a)], is
    [1/2 (2 - 1 + ln(1/2)) > 0]: the code takes the trace of
    [Sigma_a^-1 Sigma_b] instead. *)
Theorem kullback_leibler_negative :
  let mu_a := [0] in
  let cov_a := [[1]] in
  let mu_b := [0] in
  let cov_b := [[1 / 2]] in
  @mixture_ka.kullback_leibler_for_multivariate_normals backend_1d
    mu_a cov_a mu_b cov_b = 0.5 * (1 / 2 - 1 + ln (1 / 2))
  /\ @mixture_search.kullback_leibler_for_multivariate_normals backend_1d
       mu_a (mixture_search.FullC cov_a) mu_b (mixture_search.FullC cov_b)
     = 0.5 * (1 / 2 - 1 + ln (1 / 2))
  /\ @mixture_search.kullback_leibler_for_multivariate_normals backend_1d
       mu_a (mixture_search.DiagC [1]) mu_b (mixture_search.DiagC [1 / 2])
     = 0.5 * (1 / 2 - 1 + ln (1 / 2))
  /\ 0.5 * (1 / 2 - 1 + ln (1 / 2)) < 0
  /\ @kullback_leibler_documented backend_1d mu_a cov_a mu_b cov_b
     = 0.5 * (2 - 1 + ln (1 / 2))
  /\ 0 < 0.5 * (2 - 1 + ln (1 / 2)).
Proof.
  cbv zeta.
  assert (Hln : ln (1 / 2 / 1) = ln (1 / 2)) by (f_equal; lra).
  repeat split.
  - unfold mixture_ka.kullback_leibler_for_multivariate_normals.
    cbn. unfold entry11. cbn. rewrite Hln. lra.
  - unfold mixture_search.kullback_leibler_for_multivariate_normals.
    cbn. unfold entry11. cbn. rewrite Hln. lra.
  - unfold mixture_search.kullback_leibler_for_multivariate_normals.
    cbn. unfold entry11. cbn. rewrite Hln. lra.
  - pose proof ln_half_negative. lra.
  - unfold kullback_leibler_documented.
    cbn. unfold entry11. cbn. rewrite Hln. lra.
  - replace (1 / 2) with (/ 2) by lra. rewrite ln_Rinv by lra.
    pose proof ln_2_lt_1. lra.
Qed.

End KullbackLeibler.

(** ** The seed of a split *)

Section SplitSeed.

Lemma Rabs_of_pos x : 0 <= x -> Rabs x = x.
Proof. intros Hx. apply Rabs_pos_eq. exact Hx. Qed.

(** mixture_search: each observation gets responsibility 1 for the child
    whose mean is nearer in Euclidean distance (the first child when they are
    equally near) and 0 for the other child. *)
Lemma search_split_hard_assignment (y child_mu : mat) (i : nat) :
  (i < length y)%nat ->
  let d0 := np_sum (map (fun x => x ^ 2) (vsub (nth i y []) (nth 0 child_mu []))) in
  let d1 := np_sum (map (fun x => x ^ 2) (vsub (nth i y []) (nth 1 child_mu []))) in
  let r := mixture_search.split_child_responsibility y child_mu in
  (d0 <= d1 -> nth i (nth 0 r []) 0 = 1 /\ nth i (nth 1 r []) 0 = 0)
  /\ (d1 < d0 -> nth i (nth 0 r []) 0 = 0 /\ nth i (nth 1 r []) 0 = 1).
Proof.
  intros Hi d0 d1 r. subst r. unfold mixture_search.split_child_responsibility.
  cbv zeta. cbn [nth].
  assert (Hlen : forall m, length (map (fun o => np_sum (map (fun x => x ^ 2) o))
                                       (sub_row y m)) = length y).
  { intros m. rewrite length_map. apply sub_row_length. }
  assert (Hd : forall m,
             nth i (map (fun o => np_sum (map (fun x => x ^ 2) o)) (sub_row y m)) 0
             = np_sum (map (fun x => x ^ 2) (vsub (nth i y []) m))).
  { intros m. unfold sub_row. rewrite map_map.
    apply (@map_nth_lt vec R
             (fun o => np_sum (map (fun x => x ^ 2) (vsub o m))) y i [] 0).
    exact Hi. }
  rewrite !(@map_nth_lt nat R _ _ i 0%nat 0)
    by (rewrite (map2_length_same _ _ _ (length y)); auto).
  rewrite (map2_nth _ _ _ i 0 0 0%nat) by (rewrite Hlen; exact Hi).
  rewrite !Hd. fold d0 d1.
  unfold np_argmin, argmin_from, ext_ltb, Rltb.
  split; intros Hcmp; destruct (Rlt_dec d1 d0); try lra; simpl; auto.
Qed.

(** C6.  In mixture_ka the seed is not a hard assignment.  Splitting the
    unit normal at 0 (one dimension) puts the children at 1 and -1; the
    observation 2 is nearer to the first child, and the seed gives it
    responsibility 1/4 for that child and 3/4 for the other, where
    mixture_search gives 1 and 0. *)
Theorem split_seed_not_hard_assignment :
  let y := [[2]] in
  let child_mu := @mixture_ka.split_child_mu backend_1d [[0]] [[[1]]] 0 in
  child_mu = [[1]; [-1]]
  /\ mixture_ka.split_child_responsibility y child_mu = [[1 / 4]; [3 / 4]]
  /\ mixture_search.split_child_responsibility y child_mu = [[1]; [0]].
Proof.
  cbv zeta.
  assert (Hmu : @mixture_ka.split_child_mu backend_1d [[0]] [[[1]]] 0
                = [[1]; [-1]]).
  { unfold mixture_ka.split_child_mu. cbn. rewrite sqrt_1.
    repeat f_equal; lra. }
  rewrite Hmu. split; [reflexivity|]. split.
  - unfold mixture_ka.split_child_responsibility. cbn.
    replace (2 - 1) with 1 by lra. replace (2 - -1) with 3 by lra.
    rewrite (Rabs_of_pos 1), (Rabs_of_pos 3) by lra.
    repeat f_equal; lra.
  - unfold mixture_search.split_child_responsibility. cbn.
    unfold ext_ltb, Rltb.
    destruct (Rlt_dec _ _) as [Hlt|Hge]; [exfalso; lra|]. reflexivity.
Qed.

End SplitSeed.

(** ** The sign of the message length *)

Section MessageLengthSign.



Lemma assert_cases (b : bool) :
  assert b = if b then inl tt else inr AssertionError.
Proof. destruct b; reflexivity. Qed.

(** mixture_search: what the assertions do with the total *)
Lemma message_length_checked `{Backend} y mu cov weight responsibility nll kw :
  mixture_search._message_length y mu cov weight responsibility nll kw =
  match mixture_search.message_length_terms y mu cov weight responsibility nll kw
  with
  | inl (I_w, I0) =>
      if Rleb (-0.5) I_w && Rltb 0 I0
      then if mixture_search.dofail kw then inr NameError else inl I0
      else inr AssertionError
  | inr e => inr e
  end.
Proof.
  unfold mixture_search._message_length.
  destruct (mixture_search.message_length_terms _ _ _ _ _ _ _)
    as [[I_w I0]|e]; simpl; [|reflexivity].
  destruct (Rleb (-0.5) I_w), (Rltb 0 I0); reflexivity.
Qed.

Lemma message_length_positive `{Backend} y mu cov weight responsibility nll kw I0 :
  mixture_search._message_length y mu cov weight responsibility nll kw = inl I0 ->
  0 < I0.
Proof.
  rewrite message_length_checked.
  destruct (mixture_search.message_length_terms _ _ _ _ _ _ _)
    as [[I_w I1]|e]; [|discriminate].
  destruct (Rleb (-0.5) I_w); simpl; [|discriminate].
  destruct (Rltb 0 I1) eqn:Hpos; [|discriminate].
  destruct (mixture_search.dofail kw); [discriminate|].
  intros Heq. injection Heq as <-. apply Rltb_true. exact Hpos.
Qed.


Lemma ln_2pi_le : ln (2 * PI) <= 3 * ln 2.
Proof.
  pose proof PI_4. pose proof PI_RGT_0.
  replace (3 * ln 2) with (ln (2 ^ 3)) by (rewrite ln_pow by lra; simpl; lra).
  destruct (Req_dec (2 * PI) (2 ^ 3)) as [->|Hne]; [lra|].
  left. apply ln_increasing; lra.
Qed.

Lemma ln_thousandth_lt : ln 0.001 < - (9 * ln 2).
Proof.
  replace 0.001 with (/ 1000) by lra. rewrite ln_Rinv by lra.
  replace (9 * ln 2) with (ln (2 ^ 9)) by (rewrite ln_pow by lra; simpl; lra).
  assert (ln (2 ^ 9) < ln 1000) by (apply ln_increasing; lra). lra.
Qed.

Lemma ln_5pi_pos : 0 < ln (5 * PI).
Proof.
  pose proof PI2_3_2. rewrite <- ln_1. apply ln_increasing; lra.
Qed.


End MessageLengthSign.

(** ** The tied covariance structures *)

Section TiedStructures.

Lemma ret_supported {A : Type} (a : A) : supported (ret a).
Proof. unfold supported, ret. discriminate. Qed.

Lemma raise_supported {A : Type} (e : exn) :
  e <> NotImplementedError -> supported (@raise A e).
Proof. unfold supported, raise. intros He Heq. injection Heq as ->. auto. Qed.

Lemma bind_supported {A B : Type} (c : result A) (k : A -> result B) :
  supported c -> (forall a, supported (k a)) -> supported (bind c k).
Proof.
  unfold supported, bind. intros Hc Hk. destruct c as [a|e]; [apply Hk|].
  intros Heq. apply Hc. injection Heq as ->. reflexivity.
Qed.

Ltac supported_step :=
  match goal with
  | |- supported (bind _ _) => apply bind_supported; [|intros]
  | |- supported (ret _) => apply ret_supported
  | |- supported (raise _) => apply raise_supported; discriminate
  | |- supported (if ?b then _ else _) => destruct b
  | |- supported (match ?x with _ => _ end) => destruct x
  end.

Context `{Backend}.

Lemma parameters_supported D ct :
  supported (mixture_ka._parameters_per_component D ct).
Proof. unfold mixture_ka._parameters_per_component. repeat supported_step. Qed.

Lemma em_supported y mu cov weight responsibility ct thr max_it parent :
  supported (mixture_ka._expectation_maximization
               y mu cov weight responsibility ct thr max_it parent).
Proof.
  unfold mixture_ka._expectation_maximization.
  supported_step; [apply parameters_supported|].
  repeat supported_step.
Qed.

Lemma split_supported y mu cov weight responsibility index ct thr max_it :
  supported (mixture_ka.split_component
               y mu cov weight responsibility index ct thr max_it).
Proof.
  unfold mixture_ka.split_component, shape. cbv beta iota zeta.
  supported_step; [supported_step|].
  supported_step; [apply em_supported|].
  destruct a as [[[[[? ?] ?] ?] ?] ?].
  supported_step; [apply em_supported | supported_step].
Qed.

Lemma delete_supported y mu cov weight responsibility index ct thr max_it :
  supported (mixture_ka.delete_component
               y mu cov weight responsibility index ct thr max_it).
Proof.
  unfold mixture_ka.delete_component, mixture_ka.delete_perturbation.
  cbv beta iota zeta.
  supported_step; [supported_step | apply em_supported].
Qed.

Lemma merge_supported y mu cov weight responsibility index ct thr max_it :
  supported (mixture_ka.merge_component
               y mu cov weight responsibility index ct thr max_it).
Proof.
  unfold mixture_ka.merge_component, mixture_ka.merge_perturbation,
    mixture_ka.merged_component, shape.
  cbv beta iota zeta.
  supported_step; [supported_step|].
  supported_step.
  - repeat supported_step.
  - destruct a as [[[? ?] ?] ?]. apply em_supported.
Qed.

Lemma exhaust_supported op perturb ms bp :
  (forall m, supported (perturb m)) ->
  supported (mixture_ka.exhaust op perturb ms bp).
Proof.
  intros Hp. revert bp. induction ms as [|m ms IH]; intros bp; simpl.
  - apply ret_supported.
  - apply bind_supported; [apply Hp | intros r; apply IH].
Qed.

Lemma best_perturbation_supported y ct thr max_it s :
  supported (mixture_ka.best_perturbation y ct thr max_it s).
Proof.
  unfold mixture_ka.best_perturbation. cbv zeta.
  supported_step.
  { apply exhaust_supported. intros m. apply split_supported. }
  supported_step.
  { supported_step; [|apply ret_supported].
    supported_step.
    - apply exhaust_supported. intros m. apply delete_supported.
    - apply exhaust_supported. intros m. apply merge_supported. }
  supported_step.
  { unfold mixture_ka.min_item. repeat supported_step. }
  destruct a1 as [operation [[b_m b]|]]; supported_step.
Qed.

Lemma search_round_supported y ct thr max_it s :
  supported (mixture_ka.search_round y ct thr max_it s).
Proof.
  unfold mixture_ka.search_round.
  supported_step; [apply best_perturbation_supported|].
  destruct a as [[operation b_m] [[[[[? ?] ?] ?] ?] ?]].
  repeat supported_step.
Qed.

Lemma search_loop_supported fuel y ct thr max_it s :
  supported (mixture_ka.search_loop fuel y ct thr max_it s).
Proof.
  revert s. induction fuel as [|fuel IH]; intros s; simpl.
  - apply ret_supported.
  - apply bind_supported; [apply search_round_supported|].
    intros [s'|s']; [apply IH | apply ret_supported].
Qed.

Lemma fit_supported fuel self thr max_it :
  supported (mixture_ka._fit_kasarapu_allison fuel self thr max_it).
Proof.
  unfold mixture_ka._fit_kasarapu_allison, shape.
  supported_step; [supported_step|].
  supported_step; [supported_step|].
  destruct (mixture_ka._y self) as [y|]; [|supported_step].
  destruct (mixture_ka._covariance_type self) as [ct|]; [|supported_step].
  repeat first [ apply parameters_supported
               | apply search_loop_supported
               | supported_step ].
Qed.

End TiedStructures.

Section TiedStructuresClaim.
Local Open Scope string_scope.

(** mixture_ka: constructing with the tied-diagonal structure does not
    succeed; it raises the unsupported-feature error. *)
Lemma tied_diag_construction_raises :
  mixture_ka.__init__
    {| mixture_ka._y := None; mixture_ka._covariance_type := None |}
    [[0]] "tied_diag"
  = ({| mixture_ka._y := None; mixture_ka._covariance_type := None |},
     inr NotImplementedError).
Proof. reflexivity. Qed.

Lemma ka_init_raise_unmutated self y ct e :
  snd (mixture_ka.__init__ self y ct) = inr e ->
  fst (mixture_ka.__init__ self y ct) = self.
Proof.
  unfold mixture_ka.__init__. cbv zeta.
  destruct (negb (in_tuple (lower (strip ct)) mixture_ka.available));
    [reflexivity|].
  destruct (negb (in_tuple (lower (strip ct)) ["free"; "tied"]));
    [reflexivity|].
  simpl. discriminate.
Qed.

Lemma search_init_raise_unmutated self ct reg thr max_it e :
  snd (mixture_search.__init__ self ct reg thr max_it) = inr e ->
  fst (mixture_search.__init__ self ct reg thr max_it) = self.
Proof.
  unfold mixture_search.__init__. cbv zeta.
  destruct (negb (in_tuple (lower (strip ct)) mixture_search.available));
    [reflexivity|].
  destruct (Rltb reg 0); [reflexivity|].
  destruct (Rleb thr 0); [reflexivity|].
  destruct (Nat.ltb max_it 1); [reflexivity|].
  simpl. discriminate.
Qed.

Lemma search_tied_first_use `{Backend} y mu cov weight kw :
  mixture_search.covariance_type kw = "tied"
  \/ mixture_search.covariance_type kw = "tied_diag" ->
  mixture_search.responsibility_matrix y mu cov weight kw
  = inr NotImplementedError.
Proof.
  intros Hct. unfold mixture_search.responsibility_matrix,
                mixture_search._compute_precision_cholesky.
  destruct Hct as [-> | ->]; reflexivity.
Qed.

(** C9 (as amended).  mixture_ka: constructing with the tied-diagonal
    structure raises the unsupported-feature error, constructing with the
    tied structure succeeds, a constructor that raises leaves the instance as
    it was, and after construction with the tied structure no call of [fit]
    raises the unsupported-feature error (the tied structure is fitted, with
    [D] parameters for a component).  mixture_search: constructing with
    either structure raises [ValueError], leaving the instance as it was, and
    [responsibility_matrix], and with it [_expectation] and
    [_expectation_maximization], called with either raises the
    unsupported-feature error before anything else is computed. *)
Theorem tied_structures :
  forall `{Backend} (self : mixture_ka.GaussianMixture)
         (self' : mixture_search.GaussianMixture) (y : mat),
    mixture_ka.__init__ self y "tied_diag" = (self, inr NotImplementedError)
    /\ mixture_ka.__init__ self y "tied"
       = ({| mixture_ka._y := Some y;
             mixture_ka._covariance_type := Some "tied" |}, inl tt)
    /\ (forall ct e,
          snd (mixture_ka.__init__ self y ct) = inr e ->
          fst (mixture_ka.__init__ self y ct) = self)
    /\ (forall D, mixture_ka._parameters_per_component D "tied" = inl D)
    /\ (forall fuel thr max_it,
          supported (mixture_ka._fit_kasarapu_allison
                       fuel (fst (mixture_ka.__init__ self y "tied"))
                       thr max_it))
    /\ (forall ct reg thr max_it,
          ct = "tied" \/ ct = "tied_diag" ->
          mixture_search.__init__ self' ct reg thr max_it
          = (self', inr ValueError))
    /\ (forall ct reg thr max_it e,
          snd (mixture_search.__init__ self' ct reg thr max_it) = inr e ->
          fst (mixture_search.__init__ self' ct reg thr max_it) = self')
    /\ (forall mu cov weight kw,
          mixture_search.covariance_type kw = "tied"
          \/ mixture_search.covariance_type kw = "tied_diag" ->
          mixture_search.responsibility_matrix y mu cov weight kw
          = inr NotImplementedError
          /\ mixture_search._expectation y mu cov weight kw
             = inr NotImplementedError
          /\ forall responsibility parent,
               mixture_search._expectation_maximization
                 y mu cov weight responsibility parent kw
               = inr NotImplementedError).
Proof.
  intros B self self' y.
  split; [reflexivity|]. split; [reflexivity|].
  split; [apply ka_init_raise_unmutated|].
  split; [reflexivity|].
  split; [intros; apply fit_supported|].
  split; [intros ct reg thr max_it [-> | ->]; reflexivity|].
  split; [apply search_init_raise_unmutated|].
  intros mu cov weight kw Hct.
  pose proof (search_tied_first_use y mu cov weight kw Hct) as Hfirst.
  assert (Hexp : mixture_search._expectation y mu cov weight kw
                 = inr NotImplementedError).
  { unfold mixture_search._expectation. rewrite Hfirst. reflexivity. }
  split; [exact Hfirst|]. split; [exact Hexp|].
  intros responsibility parent.
  unfold mixture_search._expectation_maximization. rewrite Hexp. reflexivity.
Qed.

(** The expectation step of mixture_search called with the tied structure
    on the one-dimensional backend. *)
Lemma tied_structures_witness :
  @mixture_search._expectation backend_1d [[0; 0]] [[0; 0]]
    (mixture_search.Full [[[1; 0]; [0; 1]]]) [1]
    {| mixture_search.covariance_type := "tied";
       mixture_search.covariance_regularization := 0;
       mixture_search.threshold := 1e-5;
       mixture_search.max_em_iterations := 100;
       mixture_search.dofail := false |}
  = inr NotImplementedError.
Proof.
  destruct (@tied_structures backend_1d
              {| mixture_ka._y := None; mixture_ka._covariance_type := None |}
              {| mixture_search._threshold := None;
                 mixture_search._max_em_iterations := None;
                 mixture_search._covariance_type := None;
                 mixture_search._covariance_regularization := None |}
              [[0; 0]])
    as (_ & _ & _ & _ & _ & _ & _ & Huse).
  apply Huse. left. reflexivity.
Defined.

End TiedStructuresClaim.

(** ** The first least entry *)

Section ArgMin.

Lemma ext_ltb_lt a b : ext_ltb a b = true <-> ext_lt a b.
Proof.
  destruct a as [x|], b as [y|]; simpl; try apply Rltb_true;
    split; intros; auto; discriminate.
Qed.

Lemma ext_ltb_irrefl a : ext_ltb a a = false.
Proof.
  destruct a as [x|]; simpl; [|reflexivity]. apply Rltb_false. lra.
Qed.

Lemma ext_ltb_trans a b c :
  ext_ltb a b = true -> ext_ltb b c = true -> ext_ltb a c = true.
Proof.
  rewrite !ext_ltb_lt. destruct a, b, c; simpl; intros; auto; try lra;
    contradiction.
Qed.

Lemma ext_ltb_asym a b : ext_ltb a b = true -> ext_ltb b a = false.
Proof.
  intros Hab. destruct (ext_ltb b a) eqn:Hba; [|reflexivity].
  pose proof (ext_ltb_trans _ _ _ Hab Hba) as Haa.
  rewrite ext_ltb_irrefl in Haa. discriminate.
Qed.

(** [a < b] and not [c < b] give [a < c] *)
Lemma ext_ltb_below a b c :
  ext_ltb a b = true -> ext_ltb c b = false -> ext_ltb a c = true.
Proof.
  intros Hab Hcb. destruct (ext_ltb a c) eqn:Hac; [reflexivity|].
  destruct a as [x|], b as [y|], c as [z|]; simpl in *;
    try discriminate; try reflexivity.
  apply Rltb_true in Hab. apply Rltb_false in Hcb, Hac. lra.
Qed.

Lemma ext_ltb_not_below a b c :
  ext_ltb a b = true -> ext_ltb c b = false -> ext_ltb c a = false.
Proof.
  intros Hab Hcb. apply ext_ltb_asym. eapply ext_ltb_below; eassumption.
Qed.

Lemma argmin_from_spec l :
  forall best vbest i,
    let b := argmin_from best vbest i l in
    (b = best /\ Forall (fun x => ext_ltb x vbest = false) l)
    \/ (exists k, b = (i + k)%nat /\ (k < length l)%nat
                  /\ ext_ltb (nth k l Inf) vbest = true
                  /\ Forall (fun x => ext_ltb x (nth k l Inf) = false) l
                  /\ forall j, (j < k)%nat ->
                       ext_ltb (nth k l Inf) (nth j l Inf) = true).
Proof.
  induction l as [|x l IH]; intros best vbest i; simpl.
  - left. split; [reflexivity | constructor].
  - destruct (ext_ltb x vbest) eqn:Hx.
    + right. destruct (IH i x (S i)) as [[Hb Hall] | (k & Hb & Hk & Hlt & Hall & Hfirst)].
      * exists 0%nat. simpl. repeat split; try lia; auto.
        constructor; [apply ext_ltb_irrefl | exact Hall].
      * exists (S k). simpl. repeat split; try lia.
        -- eapply ext_ltb_trans; eassumption.
        -- constructor; [apply ext_ltb_asym; exact Hlt | exact Hall].
        -- intros [|j] Hj; [exact Hlt | apply Hfirst; lia].
    + destruct (IH best vbest (S i)) as [[Hb Hall] | (k & Hb & Hk & Hlt & Hall & Hfirst)].
      * left. split; [exact Hb | constructor; assumption].
      * right. exists (S k). simpl. repeat split; try lia; auto.
        -- constructor; [|exact Hall].
           eapply ext_ltb_not_below; eassumption.
        -- intros [|j] Hj; [|apply Hfirst; lia].
           eapply ext_ltb_below; eassumption.
Qed.

(** [np_argmin]: an index of the list, no entry is less than the entry
    there, and every earlier entry is greater *)
Lemma np_argmin_spec l :
  l <> [] ->
  let b := np_argmin l in
  (b < length l)%nat
  /\ Forall (fun x => ext_ltb x (nth b l Inf) = false) l
  /\ forall j, (j < b)%nat -> ext_ltb (nth b l Inf) (nth j l Inf) = true.
Proof.
  destruct l as [|x l]; [contradiction|]. intros _. simpl.
  destruct (argmin_from_spec l 0%nat x 1%nat)
    as [[Hb Hall] | (k & Hb & Hk & Hlt & Hall & Hfirst)].
  - rewrite Hb. simpl. repeat split; try lia.
    constructor; [apply ext_ltb_irrefl | exact Hall].
  - rewrite Hb. simpl. repeat split; try lia.
    + constructor; [apply ext_ltb_asym; exact Hlt | exact Hall].
    + intros [|j] Hj; [exact Hlt | apply Hfirst; lia].
Qed.

End ArgMin.

(** ** Merging two components *)

Section MergeLayout.

Lemma nth_np_delete {A : Type} (l : list A) i j d :
  nth j (np_delete l i) d = nth (if Nat.ltb j i then j else S j) l d.
Proof.
  unfold np_delete. revert l j. induction i as [|i IH]; intros l j.
  - simpl. destruct l as [|x l]; [destruct j; reflexivity | reflexivity].
  - destruct l as [|x l].
    + simpl. destruct (Nat.ltb j (S i)); destruct j; reflexivity.
    + destruct j as [|j]; [reflexivity|].
      change (nth (S j) (firstn (S i) (x :: l) ++ skipn (S (S i)) (x :: l)) d)
        with (nth j (firstn i l ++ skipn (S i) l) d).
      rewrite IH. change (Nat.ltb (S j) (S i)) with (Nat.ltb j i).
      destruct (Nat.ltb j i); reflexivity.
Qed.

Lemma nth_set_item {A : Type} (l : list A) i v j d :
  (i < length l)%nat ->
  nth j (set_item l i v) d = if Nat.eqb j i then v else nth j l d.
Proof.
  unfold set_item. revert i j. induction l as [|x l IH]; intros i j Hi;
    simpl in Hi; [lia|].
  destruct i as [|i], j as [|j]; try reflexivity.
  change (nth (S j) (firstn (S i) (x :: l) ++ v :: skipn (S (S i)) (x :: l)) d)
    with (nth j (firstn i l ++ v :: skipn (S i) l) d).
  rewrite IH by lia. reflexivity.
Qed.

(** deleting at [del] and then storing at [keep < del] *)
Lemma merged_layout {A : Type} (old : list A) del keep v d :
  (keep < del)%nat -> (del < length old)%nat ->
  replaced_at old (set_item (np_delete old del) keep v) del keep v d.
Proof.
  intros Hkd Hdel.
  assert (Hlen : length (np_delete old del) = pred (length old))
    by (apply np_delete_length; exact Hdel).
  assert (Hkeep : (keep < length (np_delete old del))%nat) by lia.
  split; [|split].
  - rewrite set_item_length by exact Hkeep. exact Hlen.
  - rewrite nth_set_item by exact Hkeep. rewrite Nat.eqb_refl. reflexivity.
  - intros j Hj Hne. rewrite nth_set_item by exact Hkeep.
    apply Nat.eqb_neq in Hne. rewrite Hne. apply nth_np_delete.
Qed.

(** the partner that [np.nanargmin(D_kl)] picks *)
Lemma argmin_distances (dist : nat -> R) K index :
  (1 < K)%nat -> (index < K)%nat ->
  closest_partner dist K index
    (np_argmin (map (fun m => if Nat.eqb m index then Inf else Fin (dist m))
                    (seq 0 K))).
Proof.
  intros HK Hindex.
  set (f := fun m => if Nat.eqb m index then Inf else Fin (dist m)).
  set (l := map f (seq 0 K)).
  assert (Hlen : length l = K) by (unfold l; rewrite length_map, length_seq; reflexivity).
  assert (Hnth : forall m, (m < K)%nat -> nth m l Inf = f m).
  { intros m Hm. unfold l. rewrite (map_nth_lt f _ m 0%nat Inf)
      by (rewrite length_seq; exact Hm).
    rewrite seq_nth by exact Hm. reflexivity. }
  destruct (np_argmin_spec l) as (Hb & Hmin & Hfirst).
  { intros Hnil. rewrite Hnil in Hlen. simpl in Hlen. lia. }
  set (b := np_argmin l) in *. rewrite Hlen in Hb.
  rewrite Forall_forall in Hmin.
  assert (Hle : forall m, (m < K)%nat -> ext_ltb (f m) (f b) = false).
  { intros m Hm. rewrite <- (Hnth m Hm), <- (Hnth b Hb). apply Hmin.
    apply nth_In. rewrite Hlen. exact Hm. }
  assert (Hbne : b <> index).
  { intros Heq.
    set (m := if Nat.eqb index 0 then 1%nat else 0%nat).
    assert (Hm : (m < K)%nat /\ m <> index).
    { unfold m. destruct (Nat.eqb_spec index 0); lia. }
    specialize (Hle m (proj1 Hm)). unfold f in Hle.
    rewrite Heq, Nat.eqb_refl in Hle.
    destruct Hm as [_ Hm]. apply Nat.eqb_neq in Hm. rewrite Hm in Hle.
    discriminate. }
  assert (Hfb : f b = Fin (dist b)).
  { unfold f. apply Nat.eqb_neq in Hbne. rewrite Hbne. reflexivity. }
  repeat split; try assumption.
  - intros m Hm Hne. specialize (Hle m Hm). rewrite Hfb in Hle.
    unfold f in Hle. apply Nat.eqb_neq in Hne. rewrite Hne in Hle.
    simpl in Hle. apply Rltb_false in Hle. exact Hle.
  - intros m Hm Hne. specialize (Hfirst m Hm).
    rewrite (Hnth b Hb), (Hnth m) in Hfirst by lia.
    rewrite Hfb in Hfirst. unfold f in Hfirst.
    apply Nat.eqb_neq in Hne. rewrite Hne in Hfirst.
    simpl in Hfirst. apply Rltb_true in Hfirst. exact Hfirst.
Qed.

End MergeLayout.

Section MergeKA.
Context `{Backend}.

Lemma replaced_at_merged {A : Type} (old new : list A) del keep v v' d :
  v = v' -> replaced_at old new del keep v d -> replaced_at old new del keep v' d.
Proof. intros ->. auto. Qed.

Lemma sum_axis0_pair n (a b : vec) i :
  length a = n -> length b = n -> (i < n)%nat ->
  nth i (sum_axis0 n [a; b]) 0 = nth i a 0 + nth i b 0.
Proof.
  intros Ha Hb Hi. rewrite sum_axis0_nth.
  - simpl. lra.
  - repeat constructor; assumption.
  - exact Hi.
Qed.

Lemma min_lt_max_of_ne a b : a <> b -> (Nat.min a b < Nat.max a b)%nat.
Proof. lia. Qed.

Lemma ka_merge_component_spec y mu cov weight responsibility index ct thr max_it :
  let K := length weight in
  (1 < K)%nat -> (index < K)%nat ->
  length mu = K -> length cov = K -> length responsibility = K ->
  let dist := fun m =>
    mixture_ka.kullback_leibler_for_multivariate_normals
      (nth index mu []) (nth index cov []) (nth m mu []) (nth m cov []) in
  let b := np_argmin (mixture_ka.merge_D_kl mu cov weight index) in
  let del := Nat.max index b in
  let keep := Nat.min index b in
  let r_k := sum_axis0 (length y)
               [nth index responsibility []; nth b responsibility []] in
  let mu_k := map (fun s => s / np_sum r_k) (weighted_sum (ncols y) r_k y) in
  let cov_k :=
    mdiv (scatter (ncols y) r_k (sub_row y mu_k)) (np_sum r_k - 1) in
  closest_partner dist K index b
  /\ exists mu' cov' weight' responsibility',
       mixture_ka.merge_perturbation y mu cov weight responsibility index
       = inl (mu', cov', weight', responsibility')
       /\ replaced_at weight weight' del keep
            (nth index weight 0 + nth b weight 0) 0
       /\ replaced_at responsibility responsibility' del keep r_k []
       /\ replaced_at mu mu' del keep mu_k []
       /\ replaced_at cov cov' del keep cov_k []
       /\ mixture_ka.merge_component
            y mu cov weight responsibility index ct thr max_it
          = mixture_ka._expectation_maximization
              y mu' cov' weight' (Some responsibility') ct thr max_it
              (Scalar 1).
Proof.
  intros K HK Hindex Hmu Hcov HR dist b del keep r_k mu_k cov_k.
  assert (Hpartner : closest_partner dist K index b).
  { apply (argmin_distances dist K index HK Hindex). }
  split; [exact Hpartner|].
  destruct Hpartner as (Hb & Hne & _ & _).
  assert (Hkd : (keep < del)%nat) by (apply min_lt_max_of_ne; auto).
  assert (Hdel : (del < K)%nat) by (unfold del; lia).
  assert (Hkeep : Nat.ltb keep (length (np_delete weight del)) = true).
  { apply Nat.ltb_lt. rewrite np_delete_length by exact Hdel. fold K. lia. }
  assert (Hpert :
    mixture_ka.merge_perturbation y mu cov weight responsibility index
    = inl (set_item (np_delete mu del) keep mu_k,
           set_item (np_delete cov del) keep cov_k,
           set_item (np_delete weight del) keep
                    (np_sum [nth index weight 0; nth b weight 0]),
           set_item (np_delete responsibility del) keep r_k)).
  { unfold mixture_ka.merge_perturbation, mixture_ka.merged_component, shape.
    cbv beta iota zeta. fold b. fold del keep. rewrite Hkeep. reflexivity. }
  do 4 eexists. split; [exact Hpert|].
  split; [|split; [|split; [|split]]].
  - eapply replaced_at_merged; [|apply merged_layout; [exact Hkd | exact Hdel]].
    simpl. lra.
  - apply merged_layout; [exact Hkd | rewrite HR; exact Hdel].
  - apply merged_layout; [exact Hkd | rewrite Hmu; exact Hdel].
  - apply merged_layout; [exact Hkd | rewrite Hcov; exact Hdel].
  - unfold mixture_ka.merge_component. fold K.
    apply Nat.ltb_lt in Hindex. rewrite Hindex. simpl negb. cbv iota.
    rewrite Hpert. reflexivity.
Qed.

End MergeKA.

Section MergeSearch.
Context `{Backend}.
Import mixture_search.

Lemma search_merge_component_spec y mu cov weight responsibility index kw :
  let K := length weight in
  (1 < K)%nat -> (index < K)%nat ->
  length mu = K -> cov_size cov = K -> length responsibility = K ->
  typed (covariance_type kw) cov ->
  let dist := fun m =>
    kullback_leibler_for_multivariate_normals
      (nth index mu []) (cov_item cov index) (nth m mu []) (cov_item cov m) in
  let b := np_argmin (merge_D_kl mu cov weight index) in
  let del := Nat.max index b in
  let keep := Nat.min index b in
  let r_k := sum_axis0 (length y)
               [nth index responsibility []; nth b responsibility []] in
  let mu_k := map (fun s => s / np_sum r_k) (weighted_sum (ncols y) r_k y) in
  let cov_k :=
    merged_covariance y r_k mu_k (covariance_regularization kw) cov in
  closest_partner dist K index b
  /\ exists mu' cov' weight' responsibility',
       merge_perturbation y mu cov weight responsibility index kw
       = inl (mu', cov', weight', responsibility')
       /\ replaced_at weight weight' del keep
            (nth index weight 0 + nth b weight 0) 0
       /\ replaced_at responsibility responsibility' del keep r_k []
       /\ replaced_at mu mu' del keep mu_k []
       /\ cov_replaced_at cov cov' del keep cov_k
       /\ merge_component y mu cov weight responsibility index kw
          = _expectation_maximization
              y mu' cov' weight' (Some responsibility') (Scalar 1) kw.
Proof.
  intros K HK Hindex Hmu Hcov HR Htyped dist b del keep r_k mu_k cov_k.
  assert (Hpartner : closest_partner dist K index b).
  { apply (argmin_distances dist K index HK Hindex). }
  split; [exact Hpartner|].
  destruct Hpartner as (Hb & Hne & _ & _).
  assert (Hkd : (keep < del)%nat) by (apply min_lt_max_of_ne; auto).
  assert (Hdel : (del < K)%nat) by (unfold del; lia).
  assert (Hkeep : Nat.ltb keep (length (np_delete weight del)) = true).
  { apply Nat.ltb_lt. rewrite np_delete_length by exact Hdel. fold K. lia. }
  assert (Hpert : exists cov',
    merge_perturbation y mu cov weight responsibility index kw
    = inl (set_item (np_delete mu del) keep mu_k,
           cov',
           set_item (np_delete weight del) keep
                    (np_sum [nth index weight 0; nth b weight 0]),
           set_item (np_delete responsibility del) keep r_k)
    /\ cov_replaced_at cov cov' del keep cov_k).
  { unfold merge_perturbation, merged_component, shape.
    cbv beta iota zeta. fold b. fold del keep. fold r_k. fold mu_k.
    unfold _estimate_covariance_matrix.
    destruct cov as [c|c]; simpl in Htyped, Hcov; rewrite Htyped.
    - change (String.eqb "full" "full") with true. cbv iota.
      cbn [bind ret]. rewrite Hkeep. cbn [negb cov_delete cov_set bind ret].
      eexists. split; [reflexivity|].
      unfold cov_k, merged_covariance.
      apply merged_layout; [exact Hkd | rewrite Hcov; exact Hdel].
    - change (String.eqb "diag" "full") with false.
      change (String.eqb "diag" "diag") with true. cbv iota.
      cbn [bind ret]. rewrite Hkeep. cbn [negb cov_delete cov_set bind ret].
      eexists. split; [reflexivity|].
      unfold cov_k, merged_covariance.
      apply merged_layout; [exact Hkd | rewrite Hcov; exact Hdel]. }
  destruct Hpert as (cov' & Hpert & Hcovlayout).
  do 4 eexists. split; [exact Hpert|].
  split; [|split; [|split; [|split]]].
  - eapply replaced_at_merged; [|apply merged_layout; [exact Hkd | exact Hdel]].
    simpl. lra.
  - apply merged_layout; [exact Hkd | rewrite HR; exact Hdel].
  - apply merged_layout; [exact Hkd | rewrite Hmu; exact Hdel].
  - exact Hcovlayout.
  - unfold merge_component. fold K.
    apply Nat.ltb_lt in Hindex. rewrite Hindex. simpl negb. cbv iota.
    rewrite Hpert. reflexivity.
Qed.

End MergeSearch.

(** X27.  On a mixture of [K > 1] components and an index below [K],
    [merge_component] of either module takes the value that the module's
    [kullback_leibler_for_multivariate_normals] returns from the indexed
    component to every other component and picks as partner [b] the first
    component of least value.  When the merged mixture is built, the merged
    component has the sum of the two weights, the sum of the two
    responsibility rows, and the mean and covariance estimated from that
    combined row; the original at the higher of the two indices is deleted
    and the merged component is stored at the lower one, every other
    component staying as it was; and expectation-maximization is run on the
    resulting [K - 1] components. *)
Theorem merge_component_spec :
  forall `{Backend} (y mu : mat) (cov : list mat)
         (cov_s : mixture_search.covariances) (weight : vec)
         (responsibility : mat) (index : nat) (ct : string) (thr : R)
         (max_it : nat) (kw : mixture_search.kwds),
    let K := length weight in
    (1 < K)%nat -> (index < K)%nat ->
    length mu = K -> length cov = K -> mixture_search.cov_size cov_s = K ->
    length responsibility = K ->
    rectangular (length y) responsibility ->
    typed (mixture_search.covariance_type kw) cov_s ->
    (* mixture_ka *)
    (let dist := fun m =>
       mixture_ka.kullback_leibler_for_multivariate_normals
         (nth index mu []) (nth index cov []) (nth m mu []) (nth m cov []) in
     let b := np_argmin (mixture_ka.merge_D_kl mu cov weight index) in
     let del := Nat.max index b in
     let keep := Nat.min index b in
     let r_k := sum_axis0 (length y)
                  [nth index responsibility []; nth b responsibility []] in
     let mu_k := map (fun s => s / np_sum r_k) (weighted_sum (ncols y) r_k y) in
     let cov_k :=
       mdiv (scatter (ncols y) r_k (sub_row y mu_k)) (np_sum r_k - 1) in
     closest_partner dist K index b
     /\ (forall i, (i < length y)%nat ->
           nth i r_k 0 = nth i (nth index responsibility []) 0
                         + nth i (nth b responsibility []) 0)
     /\ forall mu' cov' weight' responsibility',
          mixture_ka.merge_perturbation y mu cov weight responsibility index
          = inl (mu', cov', weight', responsibility') ->
          length weight' = pred K
          /\ replaced_at weight weight' del keep
               (nth index weight 0 + nth b weight 0) 0
          /\ replaced_at responsibility responsibility' del keep r_k []
          /\ replaced_at mu mu' del keep mu_k []
          /\ replaced_at cov cov' del keep cov_k []
          /\ mixture_ka.merge_component
               y mu cov weight responsibility index ct thr max_it
             = mixture_ka._expectation_maximization
                 y mu' cov' weight' (Some responsibility') ct thr max_it
                 (Scalar 1))
    (* mixture_search *)
    /\ (let dist := fun m =>
          mixture_search.kullback_leibler_for_multivariate_normals
            (nth index mu []) (mixture_search.cov_item cov_s index)
            (nth m mu []) (mixture_search.cov_item cov_s m) in
        let b := np_argmin (mixture_search.merge_D_kl mu cov_s weight index) in
        let del := Nat.max index b in
        let keep := Nat.min index b in
        let r_k := sum_axis0 (length y)
                     [nth index responsibility []; nth b responsibility []] in
        let mu_k :=
          map (fun s => s / np_sum r_k) (weighted_sum (ncols y) r_k y) in
        let cov_k :=
          merged_covariance y r_k mu_k
            (mixture_search.covariance_regularization kw) cov_s in
        closest_partner dist K index b
        /\ (forall i, (i < length y)%nat ->
              nth i r_k 0 = nth i (nth index responsibility []) 0
                            + nth i (nth b responsibility []) 0)
        /\ forall mu' cov' weight' responsibility',
             mixture_search.merge_perturbation
               y mu cov_s weight responsibility index kw
             = inl (mu', cov', weight', responsibility') ->
             length weight' = pred K
             /\ replaced_at weight weight' del keep
                  (nth index weight 0 + nth b weight 0) 0
             /\ replaced_at responsibility responsibility' del keep r_k []
             /\ replaced_at mu mu' del keep mu_k []
             /\ cov_replaced_at cov_s cov' del keep cov_k
             /\ mixture_search.merge_component
                  y mu cov_s weight responsibility index kw
                = mixture_search._expectation_maximization
                    y mu' cov' weight' (Some responsibility') (Scalar 1) kw).
Proof.
  intros B y mu cov cov_s weight responsibility index ct thr max_it kw K
         HK Hindex Hmu Hcov Hcov_s HR Hrect Htyped.
  assert (Hrow : forall m, (m < K)%nat ->
                           length (nth m responsibility []) = length y).
  { intros m Hm. unfold rectangular in Hrect.
    apply (Forall_nth_lt _ _ m [] Hrect).
    apply Nat.lt_le_trans with K; [exact Hm|].
    apply Nat.eq_le_incl. symmetry. exact HR. }
  split.
  - destruct (ka_merge_component_spec y mu cov weight responsibility index
                ct thr max_it HK Hindex Hmu Hcov HR)
      as (Hpartner & mu' & cov' & w' & R' & Hpert & Hw & HR' & Hmu' & Hcov'
          & Hem).
    cbv zeta. split; [exact Hpartner|]. split.
    + intros i Hi. apply sum_axis0_pair; try assumption.
      * apply Hrow. exact Hindex.
      * apply Hrow. apply Hpartner.
    + intros mu1 cov1 w1 R1 Hret. rewrite Hpert in Hret.
      injection Hret as <- <- <- <-.
      repeat split; try assumption;
        try apply Hw; try apply HR'; try apply Hmu'; try apply Hcov'.
  - destruct (search_merge_component_spec y mu cov_s weight responsibility
                index kw HK Hindex Hmu Hcov_s HR Htyped)
      as (Hpartner & mu' & cov' & w' & R' & Hpert & Hw & HR' & Hmu' & Hcov'
          & Hem).
    cbv zeta. split; [exact Hpartner|]. split.
    + intros i Hi. apply sum_axis0_pair; try assumption.
      * apply Hrow. exact Hindex.
      * apply Hrow. apply Hpartner.
    + intros mu1 cov1 w1 R1 Hret. rewrite Hpert in Hret.
      injection Hret as <- <- <- <-.
      repeat split; try assumption;
        try apply Hw; try apply HR'; try apply Hmu'.
Qed.

(** Two one-dimensional components over two observations: merging the
    first leaves one component, of weight 1, whose responsibilities are the
    sums of those of the two. *)
Lemma merge_component_spec_witness :
  @mixture_ka.merge_perturbation backend_1d [[0]; [1]] [[0]; [1]]
    [[[1]]; [[1]]] [1 / 2; 1 / 2] [[1; 0]; [0; 1]] 0
  = inl ([[1 / 2]], [[[1 / 2]]], [1], [[1; 1]])
  /\ @mixture_ka.merge_component backend_1d [[0]; [1]] [[0]; [1]]
       [[[1]]; [[1]]] [1 / 2; 1 / 2] [[1; 0]; [0; 1]] 0 "free" 1e-5 100
     = @mixture_ka._expectation_maximization backend_1d [[0]; [1]]
         [[1 / 2]] [[[1 / 2]]] [1] (Some [[1; 1]]) "free" 1e-5 100 (Scalar 1).
Proof.
  assert (Hpert :
    @mixture_ka.merge_perturbation backend_1d [[0]; [1]] [[0]; [1]]
      [[[1]]; [[1]]] [1 / 2; 1 / 2] [[1; 0]; [0; 1]] 0
    = inl ([[1 / 2]], [[[1 / 2]]], [1], [[1; 1]])).
  { cbn -[Rdiv]. unfold ret. apply f_equal. array_eq ltac:(field). }
  split; [exact Hpert|].
  destruct (@merge_component_spec backend_1d [[0]; [1]] [[0]; [1]]
              [[[1]]; [[1]]] (mixture_search.Full [[[1]]; [[1]]])
              [1 / 2; 1 / 2] [[1; 0]; [0; 1]] 0 "free" 1e-5 100
              {| mixture_search.covariance_type := "full";
                 mixture_search.covariance_regularization := 0;
                 mixture_search.threshold := 1e-5;
                 mixture_search.max_em_iterations := 100;
                 mixture_search.dofail := false |})
    as [(_ & _ & Hka) _].
  - simpl; lia.
  - simpl; lia.
  - reflexivity.
  - reflexivity.
  - reflexivity.
  - reflexivity.
  - repeat constructor.
  - reflexivity.
  - apply (Hka _ _ _ _ Hpert).
Defined.

(** ** The partner of a merge *)

Section MergePartner.

(** C5.  Three one-dimensional components of mean 0 and of variances 1, 1/2
    and 1, over six observations.  For component 0 both modules pick
    component 1 as the partner of the merge (its distance is computed as
    [1/2 (1/2 - 1 + ln(1/2)) < 0]), and [merge_component] of mixture_ka
    merges the two and leaves component 2, of variance 1.  By the distance
    of the docstring component 2, which is the same distribution as
    component 0, is at distance 0 and component 1 at a positive distance:
    the partner of least Kullback-Leibler distance is component 2. *)
Theorem merge_partner_not_nearest :
  let y := [[-1]; [-1]; [0]; [0]; [1]; [1]] in
  let mu := [[0]; [0]; [0]] in
  let cov := [[[1]]; [[1 / 2]]; [[1]]] in
  let weight := [1 / 3; 1 / 3; 1 / 3] in
  let third := [1 / 3; 1 / 3; 1 / 3; 1 / 3; 1 / 3; 1 / 3] in
  let responsibility := [third; third; third] in
  np_argmin (@mixture_ka.merge_D_kl backend_1d mu cov weight 0) = 1%nat
  /\ np_argmin (@mixture_search.merge_D_kl backend_1d mu
                  (mixture_search.Full cov) weight 0) = 1%nat
  /\ (exists mu' cov_k weight' responsibility',
        @mixture_ka.merge_perturbation backend_1d y mu cov weight
          responsibility 0
        = inl (mu', [cov_k; [[1]]], weight', responsibility'))
  /\ @kullback_leibler_documented backend_1d [0] [[1]] [0] [[1]] = 0
  /\ 0 < @kullback_leibler_documented backend_1d [0] [[1]] [0] [[1 / 2]].
Proof.
  cbv zeta.
  assert (Hln : ln (1 / 2 / 1) = ln (1 / 2)) by (f_equal; lra).
  assert (Hln1 : ln (1 / 1) = 0) by (replace (1 / 1) with 1 by lra; apply ln_1).
  assert (Hd1 : @mixture_ka.kullback_leibler_for_multivariate_normals backend_1d
                  [0] [[1]] [0] [[1 / 2]] = 0.5 * (1 / 2 - 1 + ln (1 / 2))).
  { unfold mixture_ka.kullback_leibler_for_multivariate_normals.
    cbn. unfold entry11. cbn. rewrite Hln. lra. }
  assert (Hd2 : @mixture_ka.kullback_leibler_for_multivariate_normals backend_1d
                  [0] [[1]] [0] [[1]] = 0).
  { unfold mixture_ka.kullback_leibler_for_multivariate_normals.
    cbn. unfold entry11. cbn. rewrite Hln1. lra. }
  assert (Hneg : 0.5 * (1 / 2 - 1 + ln (1 / 2)) < 0)
    by (pose proof ln_half_negative; lra).
  assert (Hka : np_argmin (@mixture_ka.merge_D_kl backend_1d [[0]; [0]; [0]]
                  [[[1]]; [[1 / 2]]; [[1]]] [1 / 3; 1 / 3; 1 / 3] 0) = 1%nat).
  { unfold mixture_ka.merge_D_kl.
    cbn [length seq map Nat.eqb nth]. rewrite Hd1, Hd2.
    cbn [np_argmin argmin_from ext_ltb].
    assert (Hcmp : Rltb 0 (0.5 * (1 / 2 - 1 + ln (1 / 2))) = false)
      by (apply Rltb_false; lra).
    rewrite Hcmp. reflexivity. }
  split; [exact Hka|]. split; [|split; [|split]].
  - unfold mixture_search.merge_D_kl.
    cbn [length seq map Nat.eqb nth mixture_search.cov_item].
    change (@mixture_search.kullback_leibler_for_multivariate_normals backend_1d
              [0] (mixture_search.FullC [[1]]) [0] (mixture_search.FullC [[1 / 2]]))
      with (@mixture_ka.kullback_leibler_for_multivariate_normals backend_1d
              [0] [[1]] [0] [[1 / 2]]).
    change (@mixture_search.kullback_leibler_for_multivariate_normals backend_1d
              [0] (mixture_search.FullC [[1]]) [0] (mixture_search.FullC [[1]]))
      with (@mixture_ka.kullback_leibler_for_multivariate_normals backend_1d
              [0] [[1]] [0] [[1]]).
    rewrite Hd1, Hd2. cbn [np_argmin argmin_from ext_ltb].
    assert (Hcmp : Rltb 0 (0.5 * (1 / 2 - 1 + ln (1 / 2))) = false)
      by (apply Rltb_false; lra).
    rewrite Hcmp. reflexivity.
  - unfold mixture_ka.merge_perturbation. rewrite Hka.
    unfold mixture_ka.merged_component, shape.
    cbn -[Rdiv]. do 4 eexists. reflexivity.
  - unfold kullback_leibler_documented. cbn. unfold entry11. cbn.
    rewrite Hln1. lra.
  - unfold kullback_leibler_documented. cbn. unfold entry11. cbn.
    rewrite Hln. replace (1 / 2) with (/ 2) by lra. rewrite ln_Rinv by lra.
    pose proof ln_2_lt_1. lra.
Qed.

End MergePartner.

(** ** Expectation-maximization in mixture_ka *)

Section ExpectationMaximizationKA.
Context `{Backend}.
Import mixture_ka.

(** The loop of [_expectation_maximization] leaves through its own test:
    the fuel it is given is never used up. *)
Lemma em_loop_leaves_by_test fuel y N_cp parent thr max_it s :
  (max_it <= em_iterations s + 1 + fuel)%nat ->
  em_run y N_cp parent thr max_it s (em_loop fuel y N_cp parent thr max_it s).
Proof.
  revert s. induction fuel as [|fuel IH]; intros s Hfuel; simpl.
  - destruct (em_stop thr max_it s (em_pass y N_cp parent s)) eqn:Hstop.
    + apply em_run_leave. exact Hstop.
    + exfalso. unfold em_stop in Hstop. apply orb_false_elim in Hstop.
      destruct Hstop as [_ Hit]. apply Nat.leb_gt in Hit.
      unfold em_pass in Hit.
      destruct (_maximization _ _ _ _ _ _) as [[? ?] ?].
      destruct (_expectation _ _ _ _ _) as [[? ?] ?].
      simpl in Hit. lia.
  - destruct (em_stop thr max_it s (em_pass y N_cp parent s)) eqn:Hstop.
    + apply em_run_leave. exact Hstop.
    + apply em_run_again; [exact Hstop|]. apply IH.
      unfold em_pass.
      destruct (_maximization _ _ _ _ _ _) as [[? ?] ?].
      destruct (_expectation _ _ _ _ _) as [[? ?] ?].
      simpl. lia.
Qed.

Lemma responsibility_matrix_rows y mu cov weight :
  length (fst (fst (responsibility_matrix y mu cov weight)))
  = length (combine (combine mu cov) weight).
Proof.
  unfold responsibility_matrix, shape. cbv beta iota zeta. cbn [fst].
  rewrite !length_map. reflexivity.
Qed.

Lemma maximization_shape y mu cov weight responsibility parent :
  let '(mu', cov', weight') :=
    _maximization y mu cov weight responsibility parent in
  length mu' = length responsibility
  /\ length cov' = length responsibility
  /\ length weight' = length responsibility.
Proof.
  unfold _maximization, shape. cbv beta iota zeta.
  split; [|split].
  - rewrite !length_map. reflexivity.
  - apply map2_length_same; rewrite !length_map; reflexivity.
  - unfold sum_axis1. rewrite !length_map. reflexivity.
Qed.

Lemma em_pass_shape y N_cp parent s n :
  length (em_responsibility s) = n ->
  em_shape n (em_pass y N_cp parent s).
Proof.
  intros Hn. unfold em_pass.
  pose proof (maximization_shape y (em_mu s) (em_cov s) (em_weight s)
                (em_responsibility s) parent) as Hmax.
  destruct (_maximization _ _ _ _ _ _) as [[new_mu new_cov] new_weight].
  destruct Hmax as (Hmu & Hcov & Hweight).
  unfold _expectation.
  pose proof (responsibility_matrix_rows y new_mu new_cov new_weight) as Hrows.
  destruct (responsibility_matrix y new_mu new_cov new_weight)
    as [[responsibility numerator] normalization].
  cbn [fst] in Hrows. unfold shape, em_shape. cbn.
  repeat split; try congruence.
  rewrite Hrows, !length_combine. lia.
Qed.

Lemma em_loop_shape fuel y N_cp parent thr max_it s n :
  length (em_responsibility s) = n ->
  em_shape n (em_loop fuel y N_cp parent thr max_it s).
Proof.
  revert s. induction fuel as [|fuel IH]; intros s Hn; simpl;
    pose proof (em_pass_shape y N_cp parent s n Hn) as Hpass.
  - destruct (em_stop _ _ _ _); exact Hpass.
  - destruct (em_stop _ _ _ _); [exact Hpass|]. apply IH. apply Hpass.
Qed.

(** What [_expectation_maximization] returns has as many components as the
    responsibility matrix it was given has rows. *)
Lemma em_result_shape y mu cov weight responsibility ct thr max_it parent c :
  _expectation_maximization y mu cov weight (Some responsibility) ct thr
                            max_it parent = inl c ->
  length (c_mu c) = length responsibility
  /\ length (c_cov c) = length responsibility
  /\ length (c_weight c) = length responsibility
  /\ length (c_responsibility c) = length responsibility.
Proof.
  unfold _expectation_maximization.
  destruct (_parameters_per_component (ncols y) ct) as [N_cp|e]; simpl;
    [|discriminate].
  destruct (_expectation y mu cov weight N_cp) as [[R0 ll] dl].
  intros Heq. injection Heq as <-.
  match goal with
  | |- context [em_loop ?f ?y ?n ?p ?t ?m ?s] =>
      pose proof (em_loop_shape f y n p t m s (length responsibility) eq_refl)
        as Hshape
  end.
  exact Hshape.
Qed.

(** [_expectation_maximization] returns whenever the covariance type is one
    of the four it knows. *)
Lemma em_returns y mu cov weight responsibility ct thr max_it parent :
  in_tuple ct available = true ->
  exists c,
    _expectation_maximization y mu cov weight responsibility ct thr max_it
                              parent = inl c.
Proof.
  intros Hct. unfold _expectation_maximization.
  assert (Hpar : exists n, _parameters_per_component (ncols y) ct = inl n).
  { unfold _parameters_per_component.
    unfold in_tuple, available in Hct. simpl in Hct.
    destruct (String.eqb ct "free"); [eexists; reflexivity|].
    destruct (String.eqb ct "diag"); [eexists; reflexivity|].
    destruct (String.eqb ct "tied"); [eexists; reflexivity|].
    destruct (String.eqb ct "tied_diag"); [eexists; reflexivity|].
    discriminate. }
  destruct Hpar as [n Hn]. rewrite Hn. cbn [bind].
  destruct (_expectation y mu cov weight n) as [[R0 ll] dl].
  eexists. reflexivity.
Qed.

End ExpectationMaximizationKA.

(** ** The size of a perturbed mixture (mixture_ka) *)

Section PerturbationSizes.
Context `{Backend}.
Import mixture_ka.

Lemma em_candidate_size y mu cov weight responsibility ct thr max_it parent c :
  _expectation_maximization y mu cov weight (Some responsibility) ct thr
                            max_it parent = inl c ->
  candidate_size (length responsibility) c.
Proof. apply em_result_shape. Qed.

Lemma split_child_responsibility_rows y child_mu :
  length (split_child_responsibility y child_mu) = 2%nat.
Proof. unfold split_child_responsibility, shape. reflexivity. Qed.

(** a split returns one component more *)
Lemma split_component_size y mu cov weight responsibility index ct thr max_it c :
  length responsibility = length weight ->
  split_component y mu cov weight responsibility index ct thr max_it = inl c ->
  candidate_size (S (length weight)) c.
Proof.
  intros HR. unfold split_component, shape. cbv beta iota zeta.
  destruct (Nat.ltb index (length weight)) eqn:Hindex; [|discriminate].
  apply Nat.ltb_lt in Hindex. cbn [negb].
  match goal with
  | |- bind ?em _ = _ -> _ => destruct em as [child|e] eqn:Hchild
  end; [|discriminate].
  cbn [bind].
  destruct child as [[[[[child_mu child_cov] child_weight] child_R] meta] dl].
  destruct (Nat.ltb 1 (length weight)) eqn:HM.
  - intros Hem. apply em_candidate_size in Hem.
    unfold mat, vec in *.
    rewrite set_item_length in Hem
      by (rewrite length_app; simpl; lia).
    rewrite length_app in Hem. simpl in Hem.
    replace (S (length weight)) with (length responsibility + 1)%nat by lia.
    exact Hem.
  - intros Heq. injection Heq as <-.
    apply Nat.ltb_ge in HM. assert (HK : length weight = 1%nat) by lia.
    rewrite HK. apply em_candidate_size in Hchild.
    rewrite split_child_responsibility_rows in Hchild. exact Hchild.
Qed.

(** a deletion returns one component less *)
Lemma delete_component_size y mu cov weight responsibility index ct thr max_it c :
  length responsibility = length weight ->
  delete_component y mu cov weight responsibility index ct thr max_it = inl c ->
  candidate_size (pred (length weight)) c.
Proof.
  intros HR. unfold delete_component, delete_perturbation.
  cbv beta iota zeta.
  destruct (Nat.ltb index (length weight)) eqn:Hindex; [|discriminate].
  apply Nat.ltb_lt in Hindex. cbn [negb].
  intros Hem. apply em_candidate_size in Hem.
  unfold mat, vec in *.
  rewrite !length_map, np_delete_length in Hem by lia.
  rewrite HR in Hem. exact Hem.
Qed.

(** a merge returns one component less *)
Lemma merge_component_size y mu cov weight responsibility index ct thr max_it c :
  (1 < length weight)%nat ->
  length mu = length weight -> length cov = length weight ->
  length responsibility = length weight ->
  merge_component y mu cov weight responsibility index ct thr max_it = inl c ->
  candidate_size (pred (length weight)) c.
Proof.
  intros HK Hmu Hcov HR Hmerge.
  assert (Hindex : (index < length weight)%nat).
  { unfold merge_component in Hmerge.
    destruct (Nat.ltb index (length weight)) eqn:Hi; [|discriminate].
    apply Nat.ltb_lt. exact Hi. }
  destruct (ka_merge_component_spec y mu cov weight responsibility index
              ct thr max_it HK Hindex Hmu Hcov HR)
    as (_ & mu' & cov' & w' & R' & _ & _ & (HlenR & _) & _ & _ & Hem).
  rewrite Hem in Hmerge. apply em_candidate_size in Hmerge.
  unfold mat, vec in *.
  rewrite HlenR, HR in Hmerge. exact Hmerge.
Qed.

End PerturbationSizes.

(** ** The dictionary of best perturbations *)

Section DefaultDictFacts.
Variable V : Type.
Implicit Types (d : defaultdict V) (k : operation) (v : option V).

Lemma operation_eqb_eq k k' : operation_eqb k k' = true <-> k = k'.
Proof. destruct k, k'; simpl; split; intros; auto; discriminate. Qed.

Lemma operation_eqb_refl k : operation_eqb k k = true.
Proof. apply operation_eqb_eq. reflexivity. Qed.

Lemma operation_eqb_neq k k' : operation_eqb k k' = false <-> k <> k'.
Proof.
  split.
  - intros Hf Heq. apply operation_eqb_eq in Heq. congruence.
  - intros Hne. destruct (operation_eqb k k') eqn:He; [|reflexivity].
    apply operation_eqb_eq in He. contradiction.
Qed.

Lemma dd_find_set_same d k v :
  In k (map fst d) -> dd_find (dd_set d k v) k = Some v.
Proof.
  induction d as [|[k' v'] d IH]; simpl; intros Hin; [contradiction|].
  destruct (operation_eqb k k') eqn:He; simpl; rewrite He; [reflexivity|].
  apply IH. destruct Hin as [<-|Hin]; [|exact Hin].
  rewrite operation_eqb_refl in He. discriminate.
Qed.

Lemma dd_find_set_other d k k' v :
  k <> k' -> dd_find (dd_set d k v) k' = dd_find d k'.
Proof.
  intros Hne. induction d as [|[k0 v0] d IH]; simpl.
  - apply not_eq_sym, operation_eqb_neq in Hne. rewrite Hne. reflexivity.
  - destruct (operation_eqb k k0) eqn:He; simpl.
    + apply operation_eqb_eq in He. subst k0.
      apply not_eq_sym, operation_eqb_neq in Hne. rewrite Hne. reflexivity.
    + rewrite IH. reflexivity.
Qed.

Lemma dd_set_keys d k v :
  In k (map fst d) -> map fst (dd_set d k v) = map fst d.
Proof.
  induction d as [|[k' v'] d IH]; simpl; intros Hin; [contradiction|].
  destruct (operation_eqb k k') eqn:He; simpl; [reflexivity|].
  f_equal. apply IH. destruct Hin as [<-|Hin]; [|exact Hin].
  rewrite operation_eqb_refl in He. discriminate.
Qed.

Lemma dd_find_None d k : dd_find d k = None <-> ~ In k (map fst d).
Proof.
  induction d as [|[k' v'] d IH]; simpl.
  - split; auto.
  - destruct (operation_eqb k k') eqn:He.
    + apply operation_eqb_eq in He. subst. split; [discriminate|].
      intros Hn. exfalso. apply Hn. left. reflexivity.
    + apply operation_eqb_neq in He. rewrite IH. split.
      * intros Hn [Heq|Hin]; [congruence | contradiction].
      * intros Hn Hin. apply Hn. right. exact Hin.
Qed.

Lemma dd_find_app d k v :
  dd_find d k = None ->
  forall k', dd_find (d ++ [(k, v)]) k'
             = if operation_eqb k' k then Some v else dd_find d k'.
Proof.
  intros Hnone k'. induction d as [|[k0 v0] d IH]; simpl in *.
  - reflexivity.
  - destruct (operation_eqb k k0) eqn:He; [discriminate|].
    destruct (operation_eqb k' k0) eqn:He'.
    + apply operation_eqb_eq in He'. subst k0.
      destruct (operation_eqb k' k) eqn:He2; [|reflexivity].
      apply operation_eqb_eq in He2. subst.
      rewrite operation_eqb_refl in He. discriminate.
    + apply IH. exact Hnone.
Qed.

Lemma In_dd_find d k v :
  NoDup (map fst d) -> In (k, v) d -> dd_find d k = Some v.
Proof.
  induction d as [|[k' v'] d IH]; simpl; intros Hnd Hin; [contradiction|].
  inversion Hnd as [|? ? Hnotin Hnd']; subst.
  destruct Hin as [Heq|Hin].
  - injection Heq as -> ->. rewrite operation_eqb_refl. reflexivity.
  - destruct (operation_eqb k k') eqn:He.
    + apply operation_eqb_eq in He. subst. exfalso. apply Hnotin.
      apply (in_map fst) in Hin. exact Hin.
    + apply IH; assumption.
Qed.

End DefaultDictFacts.

Lemma dd_find_In {V : Type} (d : defaultdict V) k v :
  dd_find d k = Some v -> In (k, v) d.
Proof.
  induction d as [|[k' v'] d IH]; simpl; [discriminate|].
  destruct (operation_eqb k k') eqn:He.
  - apply operation_eqb_eq in He. subst. intros Heq. injection Heq as ->.
    left. reflexivity.
  - intros Hf. right. apply IH. exact Hf.
Qed.

(** ** A round of the search (mixture_ka) *)

Section BestSoFar.
Import mixture_ka.

Lemma best_so_far_nil : best_so_far [] [].
Proof.
  split; [constructor|]. split.
  - intros k v Hf. discriminate.
  - intros k m r [].
Qed.

(** the entry of [op] is replaced by a candidate no worse than those seen *)
Lemma best_so_far_replace d d' seen op m r :
  best_so_far d seen ->
  NoDup (map fst d') ->
  dd_find d' op = Some (Some (m, r)) ->
  (forall k, k <> op -> dd_find d' k = dd_find d k) ->
  (forall m' r', In (op, m', r') seen -> c_dl r <= c_dl r') ->
  best_so_far d' (seen ++ [(op, m, r)]).
Proof.
  intros (Hnd & Hbest & Hall) Hnd' Hop Hother Hmin.
  split; [exact Hnd'|]. split.
  - intros k v Hf. destruct (operation_eqb k op) eqn:He.
    + apply operation_eqb_eq in He. subst k. rewrite Hop in Hf.
      injection Hf as <-. exists m, r. split; [reflexivity|]. split.
      * apply in_or_app. right. left. reflexivity.
      * intros m' r' Hin. apply in_app_or in Hin. destruct Hin as [Hin|[Heq|[]]].
        -- apply Hmin with m'. exact Hin.
        -- injection Heq as _ <-. lra.
    + apply operation_eqb_neq in He. rewrite (Hother k He) in Hf.
      destruct (Hbest k v Hf) as (m1 & r1 & -> & Hin & Hle).
      exists m1, r1. split; [reflexivity|]. split.
      * apply in_or_app. left. exact Hin.
      * intros m' r' Hin'. apply in_app_or in Hin'.
        destruct Hin' as [Hin'|[Heq|[]]]; [apply Hle with m'; exact Hin'|].
        injection Heq as Hk _ _. congruence.
  - intros k m' r' Hin. apply in_app_or in Hin.
    destruct (operation_eqb k op) eqn:He.
    + apply operation_eqb_eq in He. subst k. rewrite Hop. discriminate.
    + apply operation_eqb_neq in He. rewrite (Hother k He).
      destruct Hin as [Hin|[Heq|[]]]; [apply (Hall k m' r' Hin)|].
      injection Heq as Hk _ _. congruence.
Qed.

(** the entry of [op] stays: it is no worse than the new candidate *)
Lemma best_so_far_keep d seen op m r m0 r0 :
  best_so_far d seen ->
  dd_find d op = Some (Some (m0, r0)) ->
  c_dl r0 <= c_dl r ->
  best_so_far d (seen ++ [(op, m, r)]).
Proof.
  intros (Hnd & Hbest & Hall) Hop Hle.
  split; [exact Hnd|]. split.
  - intros k v Hf. destruct (Hbest k v Hf) as (m1 & r1 & -> & Hin & Hmin).
    exists m1, r1. split; [reflexivity|]. split.
    + apply in_or_app. left. exact Hin.
    + intros m' r' Hin'. apply in_app_or in Hin'.
      destruct Hin' as [Hin'|[Heq|[]]]; [apply Hmin with m'; exact Hin'|].
      injection Heq as -> _ <-. rewrite Hop in Hf. injection Hf as _ <-.
      exact Hle.
  - intros k m' r' Hin. apply in_app_or in Hin.
    destruct Hin as [Hin|[Heq|[]]]; [apply (Hall k m' r' Hin)|].
    injection Heq as -> _ _. rewrite Hop. discriminate.
Qed.

Lemma NoDup_snoc {A : Type} (l : list A) x :
  NoDup l -> ~ In x l -> NoDup (l ++ [x]).
Proof.
  induction 1 as [|a l Ha Hnd IH]; simpl; intros Hx.
  - constructor; [simpl; tauto | constructor].
  - constructor.
    + intros Hin. apply in_app_or in Hin. destruct Hin as [Hin|[Heq|[]]].
      * contradiction.
      * subst. apply Hx. left. reflexivity.
    + apply IH. intros Hin. apply Hx. right. exact Hin.
Qed.

Lemma keep_best_ok d seen op m r :
  best_so_far d seen ->
  best_so_far (keep_best op m r d) (seen ++ [(op, m, r)]).
Proof.
  intros Hok. pose proof Hok as (Hnd & Hbest & Hall).
  unfold keep_best, dd_get.
  destruct (dd_find d op) as [v|] eqn:Hfind.
  - destruct (Hbest op v Hfind) as (m0 & r0 & -> & Hin & Hmin).
    assert (Hkey : In op (map fst d)).
    { apply dd_find_In in Hfind. apply (in_map fst) in Hfind. exact Hfind. }
    cbn [last_item ext_ltb].
    destruct (Rltb (c_dl r) (c_dl r0)) eqn:Hlt.
    + apply Rltb_true in Hlt.
      apply best_so_far_replace with d.
      * exact Hok.
      * rewrite dd_set_keys by exact Hkey. exact Hnd.
      * apply dd_find_set_same. exact Hkey.
      * intros k Hne. apply dd_find_set_other. auto.
      * intros m' r' Hin'. specialize (Hmin m' r' Hin'). lra.
    + apply Rltb_false in Hlt.
      apply best_so_far_keep with m0 r0; assumption.
  - cbn [last_item ext_ltb].
    assert (Hnotin : ~ In op (map fst d)) by (apply dd_find_None; exact Hfind).
    assert (Hkey : In op (map fst (d ++ [(op, @None (nat * Candidate))]))).
    { rewrite map_app. apply in_or_app. right. left. reflexivity. }
    apply best_so_far_replace with d.
    + exact Hok.
    + rewrite dd_set_keys by exact Hkey. rewrite map_app.
      apply NoDup_snoc; assumption.
    + apply dd_find_set_same. exact Hkey.
    + intros k Hne. rewrite dd_find_set_other by auto.
      rewrite (dd_find_app _ d op None Hfind k).
      apply operation_eqb_neq in Hne. rewrite Hne. reflexivity.
    + intros m' r' Hin'. exfalso. apply (Hall op m' r' Hin'). exact Hfind.
Qed.

Lemma record_ok l : forall d seen,
  best_so_far d seen -> best_so_far (record d l) (seen ++ l).
Proof.
  induction l as [|[[op m] r] l IH]; intros d seen Hok.
  - rewrite app_nil_r. exact Hok.
  - unfold record. simpl. fold (record (keep_best op m r d) l).
    replace (seen ++ (op, m, r) :: l) with ((seen ++ [(op, m, r)]) ++ l)
      by (rewrite <- app_assoc; reflexivity).
    apply IH. apply keep_best_ok. exact Hok.
Qed.

Lemma record_app d l1 l2 : record d (l1 ++ l2) = record (record d l1) l2.
Proof. unfold record. apply fold_left_app. Qed.

(** taking the least item of the dictionary and unpacking it *)
Lemma min_item_least d seen :
  best_so_far d seen -> seen <> [] ->
  exists op m c,
    min_item d = inl (op, Some (m, c))
    /\ In (op, m, c) seen
    /\ forall x, In x seen -> c_dl c <= c_dl (snd x).
Proof.
  intros (Hnd & Hbest & Hall) Hne.
  destruct seen as [|[[k0 m0] r0] seen0]; [contradiction|].
  assert (Hd : d <> []).
  { intros ->. apply (Hall k0 m0 r0); [left; reflexivity | reflexivity]. }
  destruct d as [|first rest]; [contradiction|].
  remember (first :: rest) as d0 eqn:Hd0.
  set (l := map (fun x => last_item (snd x)) d0).
  destruct (np_argmin_spec l) as (Hb & Hmin & _).
  { unfold l. rewrite Hd0. simpl. discriminate. }
  set (b := np_argmin l) in *.
  assert (Hlen : length l = length d0) by (unfold l; apply length_map).
  rewrite Hlen in Hb.
  destruct (nth b d0 first) as [k v] eqn:Hnth.
  assert (Hin : In (k, v) d0) by (rewrite <- Hnth; apply nth_In; exact Hb).
  pose proof (In_dd_find _ d0 k v Hnd Hin) as Hfind.
  destruct (Hbest k v Hfind) as (m & r & -> & Hseen & _).
  exists k, m, r. split; [|split; [exact Hseen|]].
  - unfold min_item. rewrite Hd0. rewrite <- Hd0. fold l. fold b.
    rewrite Hnth. reflexivity.
  - intros [[k' m'] r'] Hx. simpl.
    destruct (dd_find d0 k') as [v'|] eqn:Hfind';
      [|exfalso; apply (Hall k' m' r' Hx); exact Hfind'].
    destruct (Hbest k' v' Hfind') as (m1 & r1 & -> & _ & Hle).
    specialize (Hle m' r' Hx).
    apply dd_find_In in Hfind'.
    assert (Hl : In (last_item (Some (m1, r1))) l).
    { unfold l. apply (in_map (fun x => last_item (snd x)) d0 _ Hfind'). }
    rewrite Forall_forall in Hmin. specialize (Hmin _ Hl).
    assert (Hnb : nth b l Inf = Fin (c_dl r)).
    { unfold l.
      rewrite (map_nth_lt (fun x => last_item (snd x)) d0 b first Inf Hb).
      rewrite Hnth. reflexivity. }
    rewrite Hnb in Hmin. cbn [last_item ext_ltb] in Hmin.
    apply Rltb_false in Hmin. lra.
Qed.

End BestSoFar.

Section SearchRound.
Context `{Backend}.
Import mixture_ka.

Lemma exhaust_evaluate op f ms : forall d,
  exhaust op f ms d = bind (evaluate op f ms) (fun l => ret (record d l)).
Proof.
  induction ms as [|m ms IH]; intros d; simpl; [reflexivity|].
  destruct (f m) as [r|e]; simpl; [|reflexivity].
  rewrite IH. destruct (evaluate op f ms) as [l|e]; reflexivity.
Qed.

Lemma evaluate_spec op f ms : forall l,
  evaluate op f ms = inl l ->
  map fst l = map (pair op) ms
  /\ Forall (fun x => fst (fst x) = op /\ f (snd (fst x)) = inl (snd x)) l.
Proof.
  induction ms as [|m ms IH]; intros l; simpl.
  - intros Heq. injection Heq as <-. split; [reflexivity | constructor].
  - destruct (f m) as [r|e] eqn:Hf; simpl; [|discriminate].
    destruct (evaluate op f ms) as [rest|e]; simpl; [|discriminate].
    intros Heq. injection Heq as <-.
    destruct (IH rest eq_refl) as [Hcalls Hall]. split.
    + simpl. f_equal. exact Hcalls.
    + constructor; [split; [reflexivity | exact Hf] | exact Hall].
Qed.

Lemma evaluate_returns op f ms :
  (forall m, In m ms -> exists r, f m = inl r) ->
  exists l, evaluate op f ms = inl l.
Proof.
  induction ms as [|m ms IH]; intros Hf; simpl.
  - eexists. reflexivity.
  - destruct (Hf m (or_introl eq_refl)) as [r Hr]. rewrite Hr. simpl.
    destruct IH as [l Hl]; [intros m' Hm'; apply Hf; right; exact Hm'|].
    rewrite Hl. simpl. eexists. reflexivity.
Qed.

(** The first half of a round is: evaluate the candidates, offer each to
    the dictionary, take the least item. *)
Lemma best_perturbation_eq y ct thr max_it s :
  best_perturbation y ct thr max_it s
  = bind (round_candidates y ct thr max_it s)
         (fun cands =>
            bind (min_item (record [] cands))
                 (fun x => match snd x with
                           | None => raise ValueError
                           | Some (b_m, b) => ret (fst x, b_m, b)
                           end)).
Proof.
  unfold best_perturbation, round_candidates. cbv zeta.
  rewrite exhaust_evaluate.
  destruct (evaluate split _ _) as [splits|e]; [|reflexivity].
  cbn [bind ret].
  destruct (Nat.ltb 1 (length (s_weight s))).
  - rewrite exhaust_evaluate.
    destruct (evaluate delete _ _) as [deletes|e]; [|reflexivity].
    cbn [bind ret]. rewrite exhaust_evaluate.
    destruct (evaluate merge _ _) as [merges|e]; [|reflexivity].
    cbn [bind ret]. rewrite !record_app.
    destruct (min_item _) as [[op [[b_m b]|]]|e]; reflexivity.
  - cbn [bind ret].
    destruct (min_item _) as [[op [[b_m b]|]]|e]; reflexivity.
Qed.

Lemma round_candidates_spec y ct thr max_it s cands :
  round_candidates y ct thr max_it s = inl cands ->
  map fst cands = round_calls (length (s_weight s))
  /\ Forall (fun x => perturb y ct thr max_it s (fst (fst x)) (snd (fst x))
                      = inl (snd x)) cands.
Proof.
  unfold round_candidates, round_calls. cbv zeta.
  destruct (evaluate split _ _) as [splits|e] eqn:Hs; [|discriminate].
  apply evaluate_spec in Hs. destruct Hs as [Hs1 Hs2].
  cbn [bind].
  assert (Hsplits : Forall (fun x => perturb y ct thr max_it s (fst (fst x))
                                       (snd (fst x)) = inl (snd x)) splits).
  { eapply Forall_impl; [|exact Hs2]. intros [[op m] r]. simpl.
    intros [-> Hr]. exact Hr. }
  destruct (Nat.ltb 1 (length (s_weight s))).
  - destruct (evaluate delete _ _) as [deletes|e] eqn:Hd; [|discriminate].
    apply evaluate_spec in Hd. destruct Hd as [Hd1 Hd2]. cbn [bind].
    destruct (evaluate merge _ _) as [merges|e] eqn:Hm; [|discriminate].
    apply evaluate_spec in Hm. destruct Hm as [Hm1 Hm2]. cbn [bind ret].
    intros Heq. injection Heq as <-. split.
    + rewrite !map_app, Hs1, Hd1, Hm1. reflexivity.
    + apply Forall_app. split; [exact Hsplits|]. apply Forall_app. split.
      * eapply Forall_impl; [|exact Hd2]. intros [[op m] r]. simpl.
        intros [-> Hr]. exact Hr.
      * eapply Forall_impl; [|exact Hm2]. intros [[op m] r]. simpl.
        intros [-> Hr]. exact Hr.
  - cbn [ret]. intros Heq. injection Heq as <-. split.
    + rewrite app_nil_r. exact Hs1.
    + exact Hsplits.
Qed.

Lemma round_calls_in K op m :
  In (op, m) (round_calls K) ->
  (m < K)%nat /\ (op = split \/ (1 < K)%nat).
Proof.
  unfold round_calls. intros Hin. apply in_app_or in Hin.
  destruct Hin as [Hin|Hin].
  - apply in_map_iff in Hin. destruct Hin as (m' & Heq & Hm').
    injection Heq as <- <-. apply in_seq in Hm'. split; [lia | left; reflexivity].
  - destruct (Nat.ltb_spec 1 K) as [HK|HK]; [|contradiction].
    apply in_app_or in Hin. destruct Hin as [Hin|Hin];
      apply in_map_iff in Hin; destruct Hin as (m' & Heq & Hm');
      injection Heq as <- <-; apply in_seq in Hm'; split; try lia; right; exact HK.
Qed.

(** the size of a candidate of the round *)
Lemma perturb_size y ct thr max_it s op m c :
  well_formed s ->
  op = split \/ (1 < length (s_weight s))%nat ->
  perturb y ct thr max_it s op m = inl c ->
  candidate_size (components_after op (length (s_weight s))) c.
Proof.
  intros (Hmu & Hcov & HR) Hop. unfold perturb, components_after.
  destruct op.
  - intros Hc. rewrite Nat.add_1_r.
    eapply split_component_size; [|exact Hc]. exact HR.
  - intros Hc. rewrite Nat.sub_1_r.
    eapply delete_component_size; [|exact Hc]. exact HR.
  - intros Hc. rewrite Nat.sub_1_r.
    destruct Hop as [Hop|HK]; [discriminate|].
    eapply merge_component_size; [| | | |exact Hc]; assumption.
Qed.

End SearchRound.

Section SearchRoundClaim.
Context `{Backend}.
Import mixture_ka.

(** In the model no perturbation of a component of the mixture raises for a
    covariance type the program knows (the model has no error for a
    quotient by 0); this gives the worked examples their candidates. *)
Lemma perturb_returns y ct thr max_it s op m :
  in_tuple ct available = true -> well_formed s ->
  (m < length (s_weight s))%nat ->
  op = split \/ (1 < length (s_weight s))%nat ->
  exists c, perturb y ct thr max_it s op m = inl c.
Proof.
  intros Hct (Hmu & Hcov & HR) Hm Hop. unfold perturb. destruct op.
  - unfold split_component, shape. cbv beta iota zeta.
    apply Nat.ltb_lt in Hm. rewrite Hm. cbn [negb].
    match goal with
    | |- exists c, bind ?em _ = _ =>
        destruct em as [child|e] eqn:Hchild
    end.
    + cbn [bind].
      destruct child as [[[[[child_mu child_cov] child_weight] child_R] meta] dl].
      destruct (Nat.ltb 1 (length (s_weight s)));
        [apply em_returns; exact Hct | eexists; reflexivity].
    + exfalso.
      match type of Hchild with
      | _expectation_maximization ?a ?b ?c ?d ?e ?f ?g ?h ?i = _ =>
          destruct (em_returns a b c d e f g h i Hct) as [c0 Hc0]
      end.
      congruence.
  - unfold delete_component, delete_perturbation. cbv beta iota zeta.
    apply Nat.ltb_lt in Hm. rewrite Hm. cbn [negb].
    apply em_returns. exact Hct.
  - destruct Hop as [Hop|HK]; [discriminate|].
    destruct (ka_merge_component_spec y (s_mu s) (s_cov s) (s_weight s) (s_R s)
                m ct thr max_it HK Hm Hmu Hcov HR)
      as (_ & mu' & cov' & w' & R' & _ & _ & _ & _ & _ & Hem).
    rewrite Hem. apply em_returns. exact Hct.
Qed.

Lemma round_candidates_returns y ct thr max_it s :
  in_tuple ct available = true -> well_formed s ->
  exists cands, round_candidates y ct thr max_it s = inl cands.
Proof.
  intros Hct Hwf. unfold round_candidates. cbv zeta.
  destruct (evaluate_returns split
              (fun m => split_component y (s_mu s) (s_cov s) (s_weight s)
                          (s_R s) m ct thr max_it)
              (seq 0 (length (s_weight s)))) as [splits Hs].
  { intros m Hm. apply in_seq in Hm.
    apply (perturb_returns y ct thr max_it s split m Hct Hwf); [lia|].
    left. reflexivity. }
  rewrite Hs. cbn [bind].
  destruct (Nat.ltb_spec 1 (length (s_weight s))) as [HK|HK];
    [|eexists; reflexivity].
  destruct (evaluate_returns delete
              (fun m => delete_component y (s_mu s) (s_cov s) (s_weight s)
                          (s_R s) m ct thr max_it)
              (seq 0 (length (s_weight s)))) as [deletes Hd].
  { intros m Hm. apply in_seq in Hm.
    apply (perturb_returns y ct thr max_it s delete m Hct Hwf); [lia|].
    right. exact HK. }
  rewrite Hd. cbn [bind].
  destruct (evaluate_returns merge
              (fun m => merge_component y (s_mu s) (s_cov s) (s_weight s)
                          (s_R s) m ct thr max_it)
              (seq 0 (length (s_weight s)))) as [merges Hm].
  { intros m Hm. apply in_seq in Hm.
    apply (perturb_returns y ct thr max_it s merge m Hct Hwf); [lia|].
    right. exact HK. }
  rewrite Hm. cbn [bind]. eexists. reflexivity.
Qed.

(** C2.  A round of the search loop of mixture_ka on a mixture of [K >= 1]
    components evaluates exactly the [K] splits and, when [K > 1], the [K]
    deletions and the [K] merges (each candidate is the result of its
    operation on its component, and has [K + 1] components for a split and
    [K - 1] for a deletion or a merge); an operation that raises ends the
    round with its exception.  When all of them return, the round takes a
    candidate of least message length among all of them, whatever the
    operation; if that message length is strictly lower than the
    incumbent's, the candidate becomes the state (with [K + 1] or [K - 1]
    components) and the loop goes on; otherwise the loop is left with the
    incumbent unchanged. *)
Theorem search_round_spec :
  forall (y : mat) (ct : string) (thr : R) (max_it : nat) (s : search_state),
    let K := length (s_weight s) in
    (0 < K)%nat -> well_formed s ->
    match round_candidates y ct thr max_it s with
    | inr e => search_round y ct thr max_it s = inr e
    | inl cands =>
        map fst cands = round_calls K
        /\ length (filter (fun x => operation_eqb (fst (fst x)) split) cands)
           = K
        /\ length (filter (fun x => operation_eqb (fst (fst x)) delete) cands)
           = (if Nat.ltb 1 K then K else 0%nat)
        /\ length (filter (fun x => operation_eqb (fst (fst x)) merge) cands)
           = (if Nat.ltb 1 K then K else 0%nat)
        /\ Forall (fun x =>
                     perturb y ct thr max_it s (fst (fst x)) (snd (fst x))
                     = inl (snd x)
                     /\ candidate_size (components_after (fst (fst x)) K)
                                       (snd x)) cands
        /\ exists op m c,
             best_perturbation y ct thr max_it s = inl (op, m, c)
             /\ In (op, m, c) cands
             /\ (forall x, In x cands -> c_dl c <= c_dl (snd x))
             /\ (c_dl c < s_mindl s ->
                 search_round y ct thr max_it s = inl (Accepted (accept s c))
                 /\ well_formed (accept s c)
                 /\ length (s_weight (accept s c)) = components_after op K)
             /\ (s_mindl s <= c_dl c ->
                 search_round y ct thr max_it s = inl (Converged s))
    end.
Proof.
  intros y ct thr max_it s K HK Hwf.
  pose proof (best_perturbation_eq y ct thr max_it s) as Hbest.
  destruct (round_candidates y ct thr max_it s) as [cands|e] eqn:Hcands.
  2:{ unfold search_round. rewrite Hbest. reflexivity. }
  destruct (round_candidates_spec y ct thr max_it s cands Hcands)
    as [Hcalls Hperturb].
  fold K in Hcalls.
  assert (Hcount : forall op,
             length (filter (fun x => operation_eqb (fst (fst x)) op) cands)
             = length (filter (fun x => operation_eqb (fst x) op)
                              (round_calls K))).
  { intros op. rewrite <- Hcalls. clear.
    induction cands as [|[[op' m] r] cands IH]; [reflexivity|].
    simpl. destruct (operation_eqb op' op); simpl; rewrite IH; reflexivity. }
  assert (Hfilter : forall op (f : nat -> operation * nat) l,
             (forall m, operation_eqb (fst (f m)) op = true) ->
             filter (fun x => operation_eqb (fst x) op) (map f l) = map f l).
  { intros op f l Hf. induction l as [|m l IH]; [reflexivity|].
    simpl. rewrite Hf, IH. reflexivity. }
  assert (Hnone : forall op (f : nat -> operation * nat) l,
             (forall m, operation_eqb (fst (f m)) op = false) ->
             filter (fun x => operation_eqb (fst x) op) (map f l) = []).
  { intros op f l Hf. induction l as [|m l IH]; [reflexivity|].
    simpl. rewrite Hf, IH. reflexivity. }
  assert (Hsizes : Forall (fun x =>
                        perturb y ct thr max_it s (fst (fst x)) (snd (fst x))
                        = inl (snd x)
                        /\ candidate_size (components_after (fst (fst x)) K)
                                          (snd x)) cands).
  { rewrite Forall_forall in *. intros [[op m] c] Hx.
    specialize (Hperturb _ Hx). simpl in *. split; [exact Hperturb|].
    assert (Hcall : In (op, m) (round_calls K)).
    { rewrite <- Hcalls. apply (in_map fst) in Hx. exact Hx. }
    apply round_calls_in in Hcall. destruct Hcall as [_ Hop].
    apply (perturb_size y ct thr max_it s op m c Hwf Hop Hperturb). }
  split; [exact Hcalls|].
  split; [|split; [|split; [|split; [exact Hsizes|]]]].
  - rewrite Hcount. unfold round_calls. rewrite filter_app.
    rewrite Hfilter by reflexivity.
    destruct (Nat.ltb 1 K).
    + rewrite filter_app, !Hnone by reflexivity.
      rewrite app_nil_r, length_map, length_seq. reflexivity.
    + simpl. rewrite app_nil_r, length_map, length_seq. reflexivity.
  - rewrite Hcount. unfold round_calls. rewrite filter_app.
    rewrite Hnone by reflexivity.
    destruct (Nat.ltb 1 K); [|reflexivity].
    rewrite filter_app, Hfilter, Hnone by reflexivity.
    rewrite app_nil_r. cbn [app]. rewrite length_map, length_seq. reflexivity.
  - rewrite Hcount. unfold round_calls. rewrite filter_app.
    rewrite Hnone by reflexivity.
    destruct (Nat.ltb 1 K); [|reflexivity].
    rewrite filter_app, Hnone, Hfilter by reflexivity.
    cbn [app]. rewrite length_map, length_seq. reflexivity.
  - assert (Hne : cands <> []).
    { intros ->. simpl in Hcalls. unfold round_calls in Hcalls.
      destruct K; [lia|]. simpl in Hcalls. discriminate. }
    pose proof (record_ok cands [] [] best_so_far_nil) as Hok.
    simpl in Hok.
    destruct (min_item_least _ _ Hok Hne) as (op & m & c & Hmin & Hin & Hle).
    exists op, m, c.
    assert (Hbp : best_perturbation y ct thr max_it s = inl (op, m, c)).
    { rewrite Hbest. cbn [bind]. rewrite Hmin. reflexivity. }
    split; [exact Hbp|]. split; [exact Hin|]. split; [exact Hle|].
    assert (Hsize : candidate_size (components_after op K) c).
    { rewrite Forall_forall in Hsizes. apply (Hsizes _ Hin). }
    unfold search_round. rewrite Hbp. cbn [bind].
    destruct c as [[[[[b_mu b_cov] b_weight] b_R] b_meta] b_dl].
    cbn [c_dl] in *. split.
    + intros Hlt. apply Rltb_true in Hlt. rewrite Hlt.
      destruct Hsize as (Hs_mu & Hs_cov & Hs_w & Hs_R). cbn in *.
      split; [reflexivity|]. split; [|exact Hs_w].
      unfold well_formed, accept. cbn. repeat split; congruence.
    + intros Hge. apply Rltb_false in Hge. rewrite Hge. reflexivity.
Qed.

End SearchRoundClaim.

(** ** A worked example of mixture_ka

    The three observations [-1, 0, 1] of [y_ex], a free covariance, and
    [max_em_iterations = 1], so that every expectation-maximization is one
    pass.  No divisor vanishes in this run: the split of the only component
    seeds each child with an effective membership of 3/2. *)

Section Numbers.

Lemma ln_le_mono x y : 0 < x -> x <= y -> ln x <= ln y.
Proof.
  intros Hx [Hlt | ->]; [|lra]. left. apply ln_increasing; assumption.
Qed.

Lemma exp_neg_le x : 0 <= x -> exp (- x) <= / (1 + x).
Proof.
  intros Hx. rewrite exp_Ropp. apply Rinv_le_contravar; [lra|].
  apply exp_ineq1_le.
Qed.

(** [e^(5/8) <= 2] *)
Lemma ln_2_lower : 5 / 8 <= ln 2.
Proof.
  rewrite <- (ln_exp (5 / 8)). apply ln_le_mono; [apply exp_pos|].
  assert (Hq : exp (5 / 32) <= 32 / 27).
  { pose proof (exp_ineq1_le (- (5 / 32))) as Hn. rewrite exp_Ropp in Hn.
    pose proof (exp_pos (5 / 32)) as Hp.
    apply Rmult_le_reg_r with (/ exp (5 / 32));
      [apply Rinv_0_lt_compat; exact Hp|].
    rewrite Rinv_r by lra. lra. }
  pose proof (exp_pos (5 / 32)) as Hp.
  replace (5 / 8) with (5 / 32 + 5 / 32 + (5 / 32 + 5 / 32)) by lra.
  rewrite !exp_plus. set (q := exp (5 / 32)) in *.
  assert (Hqq : q * q <= 32 / 27 * (32 / 27)) by nra.
  nra.
Qed.

Lemma exp_2_lower : 5 <= exp 2.
Proof.
  pose proof (exp_ineq1_le (1 / 2)) as Hh. pose proof (exp_pos (1 / 2)) as Hp.
  replace 2 with (1 / 2 + 1 / 2 + (1 / 2 + 1 / 2)) by lra.
  rewrite !exp_plus. set (q := exp (1 / 2)) in *.
  assert (Hqq : 9 / 4 <= q * q) by nra.
  nra.
Qed.

End Numbers.

Section KAExample.
Import mixture_ka.

Lemma ka_example_initialize :
  _initialize y_ex = ([[0]], [[[1]]], [1]).
Proof.
  unfold _initialize, y_ex, shape. cbn -[INR].
  replace (INR 3) with 3 by (simpl; lra).
  array_eq ltac:(field; lra).
Qed.

Lemma ka_example_split_parts :
  @split_child_mu backend_1d [[0]] [[[1]]] 0 = [[1]; [-1]]
  /\ split_child_responsibility y_ex [[1]; [-1]] = [[1; 1 / 2; 0]; [0; 1 / 2; 1]].
Proof.
  split.
  - unfold split_child_mu. cbn. rewrite sqrt_1. repeat f_equal; lra.
  - unfold split_child_responsibility, y_ex, shape. cbn.
    repeat match goal with
           | |- context [Rabs ?a] =>
               first [rewrite (Rabs_right a) by lra
                     | rewrite (Rabs_left1 a) by lra]
           end.
    array_eq ltac:(field; lra).
Qed.

Lemma ka_example_maximization cov :
  _maximization y_ex [[1]; [-1]] cov [1 / 2; 1 / 2]
    [[1; 1 / 2; 0]; [0; 1 / 2; 1]] (Array [1; 1; 1])
  = ([[-2 / 3]; [2 / 3]], [[[2 / 3]]; [[2 / 3]]], [1 / 2; 1 / 2]).
Proof.
  unfold _maximization, y_ex, shape. cbn -[INR].
  replace (INR 3) with 3 by (simpl; lra).
  replace (INR 2) with 2 by (simpl; lra).
  replace 0.5 with (1 / 2) by lra.
  array_eq ltac:(field; lra).
Qed.

Lemma ln_clip_le x V :
  x <= V -> eps <= V -> ln (np_clip x eps (10 * 100000000)) <= ln V.
Proof.
  intros Hx HV. pose proof eps_pos as He.
  assert (Hhi : eps <= 10 * 100000000) by (pose proof eps_le_1; lra).
  pose proof (np_clip_bounds x eps (10 * 100000000) Hhi) as [Hlo _].
  apply ln_le_mono; [lra|].
  unfold np_clip, Rmin, Rmax. repeat destruct Rle_dec; lra.
Qed.

Lemma ka_example_split_length :
  dl_ex <= snd (@_expectation backend_1d y_ex [[-2 / 3]; [2 / 3]]
                  [[[2 / 3]]; [[2 / 3]]] [1 / 2; 1 / 2] 2).
Proof.
  unfold _expectation, responsibility_matrix, y_ex, shape, dl_ex.
  cbn -[INR eps Rpower exp ln PI np_clip].
  replace (INR 2) with 2 by (simpl; lra).
  replace (INR 3) with 3 by (simpl; lra).
  replace (- INR 1 / 2) with (- (1 / 2)) by (simpl; lra).
  replace (-0.5) with (- (1 / 2)) by lra.
  replace 0.5 with (1 / 2) by lra.
  repeat match goal with
         | |- context [- (1 / 2) * ((?y - ?m) * ((1 * (/ ?c * 1 + 0) + 0) * (?y - ?m) + 0) + 0)] =>
             replace (- (1 / 2) * ((y - m) * ((1 * (/ c * 1 + 0) + 0) * (y - m) + 0) + 0))
               with (- ((y - m) ^ 2 * 3 / 4)) by (field; lra)
         end.
  replace ((-1 - -2 / 3) ^ 2 * 3 / 4) with (1 / 12) by field.
  replace ((-1 - 2 / 3) ^ 2 * 3 / 4) with (25 / 12) by field.
  replace ((0 - -2 / 3) ^ 2 * 3 / 4) with (1 / 3) by field.
  replace ((0 - 2 / 3) ^ 2 * 3 / 4) with (1 / 3) by field.
  replace ((1 - -2 / 3) ^ 2 * 3 / 4) with (25 / 12) by field.
  replace ((1 - 2 / 3) ^ 2 * 3 / 4) with (1 / 12) by field.
  set (A := Rpower (2 * PI) (- (1 / 2)) * (1 / 2) * Rpower (2 / 3) (- (1 / 2))).
  assert (HA : 0 < A).
  { unfold A, Rpower. pose proof (exp_pos (- (1 / 2) * ln (2 * PI))).
    pose proof (exp_pos (- (1 / 2) * ln (2 / 3))). nra. }
  assert (Hln12 : ln (1 / 2) = - ln 2)
    by (unfold Rdiv; rewrite Rmult_1_l, ln_Rinv by lra; lra).
  assert (Hln23 : ln (2 / 3) = ln 2 - ln 3)
    by (unfold Rdiv; rewrite ln_mult, ln_Rinv by lra; lra).
  assert (HlnA : ln A = - (1 / 2) * ln (2 * PI) - ln 2 - 1 / 2 * (ln 2 - ln 3)).
  { unfold A.
    assert (Hp1 : 0 < Rpower (2 * PI) (- (1 / 2))) by (unfold Rpower; apply exp_pos).
    assert (Hp2 : 0 < Rpower (2 / 3) (- (1 / 2))) by (unfold Rpower; apply exp_pos).
    rewrite (ln_mult (Rpower (2 * PI) (- (1 / 2)) * (1 / 2))) by nra.
    rewrite (ln_mult (Rpower (2 * PI) (- (1 / 2)))) by lra.
    rewrite !ln_Rpower, Hln12, Hln23. lra. }
  assert (Hln3 : 0 < ln 3) by (rewrite <- ln_1; apply ln_increasing; lra).
  assert (Heps : eps <= A * (1 / 2)).
  { left. apply ln_lt_inv; [apply eps_pos | lra |].
    rewrite ln_mult by lra. rewrite HlnA, Hln12.
    unfold eps. rewrite ln_Rinv by (apply pow_lt; lra).
    rewrite ln_pow by lra.
    pose proof ln_2pi_le. pose proof ln_lt_2.
    replace (INR 52) with 52 by (simpl; lra). lra. }
  pose proof (exp_neg_le (1 / 12) ltac:(lra)) as He1.
  assert (He2 : exp (- (25 / 12)) <= 1 / 5).
  { apply Rle_trans with (exp (Ropp 2)).
    - left. apply exp_increasing. lra.
    - rewrite exp_Ropp. pose proof exp_2_lower.
      replace (1 / 5) with (/ 5) by lra. apply Rinv_le_contravar; lra. }
  pose proof (exp_pos (- (1 / 12))) as Hp1. pose proof (exp_pos (- (25 / 12))) as Hp2.
  pose proof (exp_pos (- (1 / 3))) as Hp3.
  assert (Hside : ln (np_clip (A * exp (- (1 / 12)) + (A * exp (- (25 / 12)) + 0))
                        eps (10 * 100000000)) <= ln A + 8 / 65).
  { apply Rle_trans with (ln (A * (73 / 65))).
    - apply ln_clip_le; [|nra].
      replace (/ (1 + 1 / 12)) with (12 / 13) in He1 by field. nra.
    - rewrite ln_mult by lra. pose proof (exp_ineq1_le (ln (73 / 65))) as Hl.
      rewrite exp_ln in Hl by lra. lra. }
  assert (Hside' : ln (np_clip (A * exp (- (25 / 12)) + (A * exp (- (1 / 12)) + 0))
                         eps (10 * 100000000)) <= ln A + 8 / 65).
  { replace (A * exp (- (25 / 12)) + (A * exp (- (1 / 12)) + 0))
      with (A * exp (- (1 / 12)) + (A * exp (- (25 / 12)) + 0)) by lra.
    exact Hside. }
  assert (Hmid : ln (np_clip (A * exp (- (1 / 3)) + (A * exp (- (1 / 3)) + 0))
                       eps (10 * 100000000)) <= ln A + ln 2 - 1 / 3).
  { apply Rle_trans with (ln (A * 2 * exp (- (1 / 3)))).
    - pose proof (exp_ineq1_le (- (1 / 3))).
      apply ln_clip_le; [lra | nra].
    - rewrite !ln_mult, ln_exp by nra. lra. }
  pose proof ln_2_lower.
  rewrite Hln12. lra.
Qed.

(** with [max_em_iterations = 1] the loop leaves after its first pass *)
Lemma em_single_pass `{Backend} y mu cov weight r ct thr parent N_cp :
  _parameters_per_component (ncols y) ct = inl N_cp ->
  _expectation_maximization y mu cov weight (Some r) ct thr 1 parent
  = inl (let '(mu', cov', weight') := _maximization y mu cov weight r parent in
         let '(R', ll, dl) := _expectation y mu' cov' weight' N_cp in
         (mu', cov', weight', R', {| warnflag := true; log_likelihood := ll |}, dl)).
Proof.
  intros Hpar. unfold _expectation_maximization. rewrite Hpar. cbn [bind].
  destruct (_expectation y mu cov weight N_cp) as [[R0 ll0] dl0].
  cbn [em_loop]. unfold em_stop, em_pass. cbn [em_mu em_cov em_weight em_responsibility].
  destruct (_maximization y mu cov weight r parent) as [[mu' cov'] weight'].
  destruct (_expectation y mu' cov' weight' N_cp) as [[R' ll] dl].
  cbn [em_iterations em_ll em_dl em_mu em_cov em_weight em_responsibility].
  rewrite orb_true_r. reflexivity.
Qed.

Lemma ka_example_split thr c :
  @split_component backend_1d y_ex [[0]] [[[1]]] [1] [[1; 1; 1]] 0 "free" thr 1
  = inl c ->
  dl_ex <= c_dl c.
Proof.
  unfold split_component.
  destruct ka_example_split_parts as [Hmu Hseed].
  change (shape y_ex) with (3%nat, 1%nat). cbv beta iota zeta.
  cbn [length Nat.ltb Nat.leb negb nth]. rewrite Hmu, Hseed.
  assert (Hclip : map (fun x => np_clip x eps 1) [1; 1; 1] = [1; 1; 1]).
  { cbn [map]. rewrite np_clip_id by (pose proof eps_le_1; lra). reflexivity. }
  rewrite Hclip.
  assert (Hw : map (fun e => e / np_sum (sum_axis1 [[1; 1 / 2; 0]; [0; 1 / 2; 1]]))
                   (sum_axis1 [[1; 1 / 2; 0]; [0; 1 / 2; 1]]) = [1 / 2; 1 / 2]).
  { cbn. array_eq ltac:(field; lra). }
  rewrite Hw.
  rewrite (em_single_pass (H := backend_1d) y_ex _ _ _ _ "free" thr _ 2 eq_refl).
  rewrite ka_example_maximization.
  pose proof ka_example_split_length as Hlen.
  destruct (_expectation y_ex [[-2 / 3]; [2 / 3]] [[[2 / 3]]; [[2 / 3]]]
              [1 / 2; 1 / 2] 2) as [[R' ll] dl].
  cbn [bind snd] in *. intros Hc. injection Hc as <-. exact Hlen.
Qed.

Lemma search_round_one_component `{Backend} y ct thr max_it s c :
  length (s_weight s) = 1%nat ->
  split_component y (s_mu s) (s_cov s) (s_weight s) (s_R s) 0 ct thr max_it
  = inl c ->
  s_mindl s <= c_dl c ->
  search_round y ct thr max_it s = inl (Converged s).
Proof.
  intros HK Hsplit Hle. unfold search_round, best_perturbation.
  rewrite HK. cbn [seq exhaust Nat.ltb Nat.leb]. rewrite Hsplit.
  cbn [bind ret]. unfold keep_best, dd_get. cbn [dd_find last_item ext_ltb app].
  cbn [dd_set operation_eqb]. cbn [min_item bind ret map snd last_item np_argmin
                                  argmin_from nth].
  destruct c as [[[[[b_mu b_cov] b_weight] b_R] b_meta] b_dl].
  cbn [c_dl] in Hle. apply Rltb_false in Hle. rewrite Hle. reflexivity.
Qed.

Lemma ka_example_round thr :
  @search_round backend_1d y_ex "free" thr 1 s_ex = inl (Converged s_ex).
Proof.
  destruct (@perturb_returns backend_1d y_ex "free" thr 1 s_ex split 0)
    as [c Hc]; try reflexivity.
  { repeat split. }
  { simpl. lia. }
  { left. reflexivity. }
  apply (search_round_one_component y_ex "free" thr 1 s_ex c eq_refl Hc).
  apply (ka_example_split thr c Hc).
Qed.

Lemma ka_example_expectation :
  @_expectation backend_1d y_ex [[0]] [[[1]]] [1] 2
  = ([[1; 1; 1]], - (3 / 2 * ln (2 * PI)) - 1, dl_ex).
Proof.
  unfold _expectation, responsibility_matrix, y_ex, shape, dl_ex.
  cbn -[INR eps Rpower exp ln PI np_clip].
  replace (INR 2) with 2 by (simpl; lra).
  replace (INR 3) with 3 by (simpl; lra).
  replace (- INR 1 / 2) with (- (1 / 2)) by (simpl; lra).
  replace (INR 1) with 1 by reflexivity.
  replace (-0.5) with (- (1 / 2)) by lra.
  replace 0.5 with (1 / 2) by lra.
  repeat match goal with
         | |- context [- (1 / 2) * ((?y - ?m) * ((1 * (/ ?c * 1 + 0) + 0) * (?y - ?m) + 0) + 0)] =>
             replace (- (1 / 2) * ((y - m) * ((1 * (/ c * 1 + 0) + 0) * (y - m) + 0) + 0))
               with (- ((y - m) ^ 2 / 2)) by (field; lra)
         end.
  replace ((-1 - 0) ^ 2 / 2) with (1 / 2) by field.
  replace ((0 - 0) ^ 2 / 2) with 0 by field.
  replace ((1 - 0) ^ 2 / 2) with (1 / 2) by field.
  rewrite Ropp_0, exp_0.
  set (A := Rpower (2 * PI) (- (1 / 2)) * 1 * Rpower 1 (- (1 / 2))).
  assert (HA : 0 < A).
  { unfold A, Rpower. pose proof (exp_pos (- (1 / 2) * ln (2 * PI))).
    pose proof (exp_pos (- (1 / 2) * ln 1)). nra. }
  assert (HlnA : ln A = - (1 / 2) * ln (2 * PI)).
  { unfold A.
    assert (Hp1 : 0 < Rpower (2 * PI) (- (1 / 2))) by (unfold Rpower; apply exp_pos).
    assert (Hp2 : 0 < Rpower 1 (- (1 / 2))) by (unfold Rpower; apply exp_pos).
    rewrite (ln_mult (Rpower (2 * PI) (- (1 / 2)) * 1)) by nra.
    rewrite (ln_mult (Rpower (2 * PI) (- (1 / 2)))) by lra.
    rewrite !ln_Rpower, ln_1. lra. }
  assert (Hclip : forall t, 0 <= t <= 1 / 2 ->
            np_clip (A * exp (- t) + 0) eps (10 * 100000000) = A * exp (- t)).
  { intros t Ht. rewrite Rplus_0_r. apply np_clip_id.
    pose proof (exp_pos (- t)) as Hp.
    assert (Hle1 : exp (- t) <= 1).
    { rewrite <- exp_0. destruct (Req_dec t 0) as [->|Hne];
        [rewrite Ropp_0; lra|]. left. apply exp_increasing. lra. }
    assert (HA1 : A <= 1).
    { rewrite <- (exp_ln A HA), <- exp_0, HlnA.
      pose proof PI2_3_2.
      assert (0 < ln (2 * PI)) by (rewrite <- ln_1; apply ln_increasing; lra).
      left. apply exp_increasing. lra. }
    split; [|nra].
    left. apply ln_lt_inv; [apply eps_pos | nra |].
    rewrite ln_mult, ln_exp, HlnA by lra.
    unfold eps. rewrite ln_Rinv by (apply pow_lt; lra).
    rewrite ln_pow by lra.
    pose proof ln_2pi_le. pose proof ln_lt_2.
    replace (INR 52) with 52 by (simpl; lra). lra. }
  replace (A * 1) with (A * exp (- 0)) by (rewrite Ropp_0, exp_0; reflexivity).
  rewrite !Hclip by lra.
  rewrite !ln_mult, !ln_exp, HlnA, ln_1 by (try apply exp_pos; lra).
  pose proof (exp_pos (- (1 / 2))) as Hp. pose proof (exp_pos (- 0)) as Hp0.
  assert (Hone : forall v, 0 < v ->
            np_clip (v / v) eps 1 / (np_clip (v / v) eps 1 + 0) = 1).
  { intros v Hv. unfold Rdiv at 2 3. rewrite Rinv_r by lra.
    rewrite np_clip_id by (pose proof eps_le_1; lra). field. }
  rewrite !Hone by nra.
  array_eq ltac:(lra).
Qed.

Lemma ka_example_loop fuel thr :
  @search_loop backend_1d (S fuel) y_ex "free" thr 1 s_ex = inl (Some s_ex).
Proof.
  cbn [search_loop]. rewrite ka_example_round. reflexivity.
Qed.

Lemma ka_example_fit fuel thr :
  0 < thr ->
  @_fit_kasarapu_allison backend_1d (S fuel)
    {| _y := Some y_ex; _covariance_type := Some "free"%string |} thr 1
  = inl (Some ([[0]], [[[1]]], [1])).
Proof.
  intros Hthr. unfold _fit_kasarapu_allison.
  apply Rleb_false in Hthr. rewrite Hthr.
  cbn [Nat.ltb Nat.leb _y _covariance_type].
  change (shape y_ex) with (3%nat, 1%nat). cbv beta iota.
  rewrite ka_example_initialize.
  change (_parameters_per_component 1 "free") with (@inl nat exn 2%nat).
  cbn [bind]. rewrite ka_example_expectation.
  fold s_ex. rewrite ka_example_loop. reflexivity.
Qed.

End KAExample.

(** The round that [_fit_kasarapu_allison] runs first on [y_ex]: the only
    candidate is the split of component 0, its message length is not below
    the incumbent's, and the loop is left with the incumbent. *)
Lemma search_round_spec_witness :
  exists cands,
    @round_candidates backend_1d y_ex "free" 1e-5 1 s_ex = inl cands
    /\ map fst cands = [(split, 0%nat)]
    /\ @mixture_ka.search_round backend_1d y_ex "free" 1e-5 1 s_ex
       = inl (mixture_ka.Converged s_ex).
Proof.
  assert (HK : (0 < length (mixture_ka.s_weight s_ex))%nat) by (simpl; lia).
  assert (Hwf : well_formed s_ex) by (repeat split; reflexivity).
  destruct (@round_candidates_returns backend_1d y_ex "free" 1e-5 1 s_ex
              eq_refl Hwf) as [cands Hcands].
  pose proof (@search_round_spec backend_1d y_ex "free" 1e-5 1 s_ex HK Hwf)
    as Hspec.
  rewrite Hcands in Hspec.
  destruct Hspec as (Hcalls & _ & _ & _ & Hall & op & m & c & _ & Hin & _ & _
                     & Hconv).
  exists cands. split; [exact Hcands|]. split; [exact Hcalls|].
  apply Hconv.
  assert (Hcall : In (op, m) (map fst cands)) by (apply (in_map fst) in Hin; exact Hin).
  rewrite Hcalls in Hcall. destruct Hcall as [Heq|[]]. injection Heq as <- <-.
  rewrite Forall_forall in Hall. destruct (Hall _ Hin) as [Hperturb _].
  apply (ka_example_split 1e-5 c Hperturb).
Defined.

(** ** Expectation-maximization in mixture_search *)

Section ExpectationMaximizationSearch.
Context `{Backend}.
Import mixture_search.

Lemma search_em_pass_iterations y parent kw s s' :
  em_pass y parent kw s = inl s' -> em_iterations s' = S (em_iterations s).
Proof.
  unfold em_pass.
  destruct (_maximization _ _ _ _ _ _ _) as [[[mu cov] weight]|e]; simpl;
    [|discriminate].
  destruct (_expectation y mu cov weight kw) as [[[R0 ll] dl]|e]; simpl;
    [|discriminate].
  intros Heq. injection Heq as <-. reflexivity.
Qed.

(** The loop of [_expectation_maximization] leaves through its own test (or
    with an exception): more fuel does not change what it returns. *)
Lemma search_em_loop_fuel fuel y parent kw : forall s,
  (max_em_iterations kw <= em_iterations s + 1 + fuel)%nat ->
  em_loop (S fuel) y parent kw s = em_loop fuel y parent kw s.
Proof.
  induction fuel as [|fuel IH]; intros s Hfuel.
  - simpl. destruct (em_pass y parent kw s) as [s'|e] eqn:Hpass;
      [|reflexivity].
    cbn [bind]. destruct (em_stop kw s s') eqn:Hstop; [reflexivity|].
    exfalso. unfold em_stop in Hstop. apply orb_false_elim in Hstop.
    destruct Hstop as [_ Hit]. apply Nat.leb_gt in Hit.
    rewrite (search_em_pass_iterations _ _ _ _ _ Hpass) in Hit. lia.
  - change (em_loop (S (S fuel)) y parent kw s)
      with (bind (em_pass y parent kw s)
                 (fun s' => if em_stop kw s s' then ret s'
                            else em_loop (S fuel) y parent kw s')).
    change (em_loop (S fuel) y parent kw s)
      with (bind (em_pass y parent kw s)
                 (fun s' => if em_stop kw s s' then ret s'
                            else em_loop fuel y parent kw s')).
    destruct (em_pass y parent kw s) as [s'|e] eqn:Hpass; [|reflexivity].
    cbn [bind]. destruct (em_stop kw s s'); [reflexivity|].
    apply IH. rewrite (search_em_pass_iterations _ _ _ _ _ Hpass). lia.
Qed.

End ExpectationMaximizationSearch.

(* ===================================================================== *)
(** * Part III: further properties of the code                            *)
(* ===================================================================== *)

(** ** The log-likelihood of mixture_ka *)

Section LogLikelihoodBounds.
Context `{Backend}.

Lemma np_sum_ln_bounds (v : vec) lo hi :
  0 < lo -> Forall (fun x => lo <= x <= hi) v ->
  INR (length v) * ln lo <= np_sum (map ln v) <= INR (length v) * ln hi.
Proof.
  intros Hlo Hv. induction Hv as [|x v [Hx1 Hx2] Hv IH].
  - simpl. lra.
  - cbn [length map np_sum fold_right]. rewrite S_INR.
    fold (np_sum (map ln v)).
    assert (ln lo <= ln x).
    { destruct (Req_dec lo x) as [->|Hne]; [lra|].
      left. apply ln_increasing; lra. }
    assert (ln x <= ln hi).
    { destruct (Req_dec x hi) as [->|Hne]; [lra|].
      left. apply ln_increasing; lra. }
    lra.
Qed.

Lemma ka_normalization_constants y mu cov weight :
  let d := snd (mixture_ka.responsibility_matrix y mu cov weight) in
  length d = length y /\ Forall (fun x => eps <= x <= 10e8) d.
Proof.
  unfold mixture_ka.responsibility_matrix, shape. cbv beta iota zeta. cbn [snd].
  split.
  - rewrite length_map. apply sum_axis0_length.
    apply Forall_forall. intros row Hrow.
    apply in_map_iff in Hrow. destruct Hrow as ([[mu_k cov_k] w_k] & <- & _).
    rewrite length_map. apply sub_row_length.
  - apply Forall_forall. intros x Hx. apply in_map_iff in Hx.
    destruct Hx as (s & <- & _). apply np_clip_bounds.
    pose proof eps_le_1. lra.
Qed.

(** X1.  Whatever the data and the mixture, the log-likelihood that
    [_expectation] of mixture_ka returns lies between [N ln(eps)] and
    [N ln(10e8)], [N] the number of observations: every normalization
    constant is clipped into [[eps, 10e8]] before its logarithm is taken. *)
Theorem ka_log_likelihood_bounds :
  forall (y mu : mat) (cov : list mat) (weight : vec) (N_component_pars : nat),
    let '(_, log_likelihood, _) :=
      mixture_ka._expectation y mu cov weight N_component_pars in
    INR (length y) * ln eps <= log_likelihood <= INR (length y) * ln 10e8.
Proof.
  intros y mu cov weight N_cp. unfold mixture_ka._expectation.
  pose proof (ka_normalization_constants y mu cov weight) as Hd.
  destruct (mixture_ka.responsibility_matrix y mu cov weight)
    as [[responsibility numerator] d].
  cbn [snd] in Hd. destruct Hd as [Hlen Hd].
  unfold shape. cbv beta iota zeta.
  rewrite <- Hlen. apply np_sum_ln_bounds; [apply eps_pos | exact Hd].
Qed.
End LogLikelihoodBounds.

(** ** The loop of expectation-maximization (mixture_ka) *)

Section EMCapKA.
Context `{Backend}.
Import mixture_ka.

Lemma em_pass_iterations y N_cp parent s :
  em_iterations (em_pass y N_cp parent s) = S (em_iterations s).
Proof.
  unfold em_pass.
  destruct (_maximization _ _ _ _ _ _) as [[? ?] ?].
  destruct (_expectation _ _ _ _ _) as [[? ?] ?]. reflexivity.
Qed.

(** what a run of the loop guarantees of the state it leaves with *)
Lemma em_run_facts y N_cp parent thr max_it s r :
  em_run y N_cp parent thr max_it s r ->
  (em_iterations s < em_iterations r)%nat
  /\ (em_iterations r <= Nat.max (S (em_iterations s)) max_it)%nat
  /\ exists prev, r = em_pass y N_cp parent prev
                  /\ em_stop thr max_it prev r = true.
Proof.
  induction 1 as [s Hstop | s r Hstop Hrun IH].
  - rewrite em_pass_iterations. split; [lia|]. split; [lia|].
    exists s. split; [reflexivity | exact Hstop].
  - rewrite em_pass_iterations in IH. destruct IH as (Hlt & Hle & Hprev).
    split; [lia|]. split; [|exact Hprev].
    unfold em_stop in Hstop. apply orb_false_elim in Hstop.
    destruct Hstop as [_ Hit]. apply Nat.leb_gt in Hit.
    rewrite em_pass_iterations in Hit. lia.
Qed.

(** X2.  When [_expectation_maximization] of mixture_ka returns, the
    covariance type has a parameter count and the state returned is the one
    the [while True] loop leaves with, after at least one pass and with
    [iterations] at most [max(2, max_em_iterations)]; the last pass either
    changed the log-likelihood by at most [threshold], relatively, or reached
    the iteration cap, and [warnflag] says whether the cap was reached. *)
Theorem ka_em_terminates_within_cap :
  forall (y mu : mat) (cov : list mat) (weight : vec)
         (responsibility : option mat) (covariance_type : string)
         (threshold : R) (max_em_iterations : nat)
         (parent_responsibility : broadcast) (c : Candidate),
    _expectation_maximization y mu cov weight responsibility covariance_type
      threshold max_em_iterations parent_responsibility = inl c ->
    exists N_cp s prev,
      _parameters_per_component (ncols y) covariance_type = inl N_cp
      /\ c = (em_mu s, em_cov s, em_weight s, em_responsibility s,
              {| warnflag := Nat.leb max_em_iterations (em_iterations s);
                 log_likelihood := em_ll s |}, em_dl s)
      /\ (2 <= em_iterations s <= Nat.max 2 max_em_iterations)%nat
      /\ s = em_pass y N_cp parent_responsibility prev
      /\ (Rabs ((em_ll s - em_ll prev) / em_ll prev) <= threshold
          \/ (max_em_iterations <= em_iterations s)%nat).
Proof.
  intros y mu cov weight responsibility ct thr max_it parent c.
  unfold _expectation_maximization.
  destruct (_parameters_per_component (ncols y) ct) as [N_cp|e] eqn:Hpar;
    [|discriminate].
  cbn [bind].
  destruct (_expectation y mu cov weight N_cp) as [[R0 ll] dl].
  cbv zeta.
  set (s0 := {| em_mu := mu; em_cov := cov; em_weight := weight;
                em_responsibility :=
                  match responsibility with Some r => r | None => R0 end;
                em_ll := ll; em_dl := dl; em_iterations := 1 |}).
  intros Hret. injection Hret as <-.
  assert (Hrun : em_run y N_cp parent thr max_it s0
                        (em_loop max_it y N_cp parent thr max_it s0)).
  { apply em_loop_leaves_by_test. lia. }
  destruct (em_run_facts _ _ _ _ _ _ _ Hrun)
    as (Hlt & Hle & prev & Hprev & Hstop).
  change (em_iterations s0) with 1%nat in Hlt, Hle.
  exists N_cp, (em_loop max_it y N_cp parent thr max_it s0), prev.
  split; [reflexivity|]. split; [reflexivity|]. split; [lia|].
  split; [exact Hprev|].
  unfold em_stop in Hstop. apply orb_true_iff in Hstop.
  destruct Hstop as [Hconv|Hcap].
  - left. apply Rleb_true. exact Hconv.
  - right. apply Nat.leb_le. exact Hcap.
Qed.

End EMCapKA.

(** Expectation-maximization from the initial mixture of the three
    observations [-1], [0], [1]: it returns after at most 100 passes. *)
Lemma ka_em_terminates_within_cap_witness :
  exists c s,
    @mixture_ka._expectation_maximization backend_1d y_ex [[0]] [[[1]]]
      [1] None "free" 1e-5 100 (Scalar 1) = inl c
    /\ mixture_ka.c_weight c = mixture_ka.em_weight s
    /\ (2 <= mixture_ka.em_iterations s <= 100)%nat.
Proof.
  destruct (@em_returns backend_1d y_ex [[0]] [[[1]]] [1] None "free" 1e-5
              100 (Scalar 1) eq_refl) as [c Hc].
  destruct (@ka_em_terminates_within_cap backend_1d _ _ _ _ _ _ _ _ _ _ Hc)
    as (N_cp & s & prev & _ & Heq & Hit & _).
  exists c, s. split; [exact Hc|]. split; [rewrite Heq; reflexivity|].
  exact Hit.
Defined.

Section EMWeightsKA.
Context `{Backend}.
Import mixture_ka.

Lemma em_pass_normalized y N_cp parent s K :
  (0 < K)%nat -> em_normalized (length y) K s ->
  em_normalized (length y) K (em_pass y N_cp parent s)
  /\ mixing_weights (em_weight (em_pass y N_cp parent s)).
Proof.
  intros HK (Hmu & Hcov & Hw & HR & Hvalid).
  pose proof (em_pass_shape y N_cp parent s K HR) as (Hmu' & Hcov' & Hw' & HR').
  unfold em_pass in *.
  pose proof (ka_maximization_weight y (em_mu s) (em_cov s) (em_weight s)
                (em_responsibility s) parent) as Hweights.
  destruct (_maximization _ _ _ _ _ _) as [[new_mu new_cov] new_weight].
  cbn [snd] in Hweights.
  unfold _expectation in *.
  pose proof (@ka_responsibility_matrix_of _ y new_mu new_cov new_weight) as Hresp.
  destruct (responsibility_matrix y new_mu new_cov new_weight)
    as [[responsibility numerator] normalization].
  unfold shape in *. cbn in *.
  assert (Hne : combine (combine new_mu new_cov) new_weight <> []).
  { intros Hnil. apply (f_equal (@length _)) in Hnil.
    rewrite !length_combine in Hnil. simpl in Hnil. lia. }
  destruct (Hresp Hne) as [_ Hvalid'].
  split.
  - repeat split; try assumption; apply Hvalid'.
  - rewrite Hweights, Hw. destruct Hvalid as (Hrect & Hunit & Hcols). split.
    + apply smoothed_weights_positive; assumption.
    + apply smoothed_weights_sum; assumption.
Qed.

Lemma em_loop_normalized fuel y N_cp parent thr max_it K : forall s,
  (0 < K)%nat -> em_normalized (length y) K s ->
  em_normalized (length y) K (em_loop fuel y N_cp parent thr max_it s)
  /\ mixing_weights (em_weight (em_loop fuel y N_cp parent thr max_it s)).
Proof.
  induction fuel as [|fuel IH]; intros s HK Hs; cbn [em_loop];
    pose proof (em_pass_normalized y N_cp parent s K HK Hs) as Hpass.
  - destruct (em_stop _ _ _ _); exact Hpass.
  - destruct (em_stop _ _ _ _); [exact Hpass|]. apply IH; [exact HK|apply Hpass].
Qed.

(** X3.  On a mixture of [K >= 1] components (and, when a responsibility
    matrix is passed, one of the data model with [K] rows), what
    [_expectation_maximization] of mixture_ka returns has [K] components,
    weights that are strictly positive and sum to 1, and a responsibility
    matrix with entries in [[0, 1]] and columns summing to 1. *)
Theorem ka_em_returns_mixing_weights :
  forall (y mu : mat) (cov : list mat) (weight : vec)
         (responsibility : option mat) (covariance_type : string)
         (threshold : R) (max_em_iterations : nat)
         (parent_responsibility : broadcast) (c : Candidate),
    let K := length weight in
    (0 < K)%nat -> length mu = K -> length cov = K ->
    match responsibility with
    | Some r => length r = K /\ responsibility_matrix_of (length y) r
    | None => True
    end ->
    _expectation_maximization y mu cov weight responsibility covariance_type
      threshold max_em_iterations parent_responsibility = inl c ->
    candidate_size K c
    /\ mixing_weights (c_weight c)
    /\ responsibility_matrix_of (length y) (c_responsibility c).
Proof.
  intros y mu cov weight responsibility ct thr max_it parent c K HK Hmu Hcov
         Hr.
  unfold _expectation_maximization.
  destruct (_parameters_per_component (ncols y) ct) as [N_cp|e];
    [|discriminate].
  cbn [bind].
  unfold _expectation.
  pose proof (@ka_responsibility_matrix_of _ y mu cov weight) as Hresp.
  destruct (responsibility_matrix y mu cov weight) as [[R0 numerator] den].
  unfold shape. cbv beta iota zeta. cbn [fst] in Hresp.
  assert (Hne : combine (combine mu cov) weight <> []).
  { intros Hnil. apply (f_equal (@length _)) in Hnil.
    rewrite !length_combine in Hnil. simpl in Hnil. fold K in Hnil. lia. }
  destruct (Hresp Hne) as [HlenR0 HvalidR0].
  rewrite !length_combine in HlenR0.
  match goal with
  | |- context [em_loop ?f ?y ?n ?p ?t ?m ?s0] =>
      destruct (em_loop_normalized f y n p t m K s0 HK) as [Hnorm Hweights]
  end.
  { unfold em_normalized. cbn. fold K.
    destruct responsibility as [r|].
    - destruct Hr as [Hlen Hvalid]. repeat split; try assumption; apply Hvalid.
    - repeat split; try assumption; try lia; apply HvalidR0. }
  intros Hret. injection Hret as <-.
  destruct Hnorm as (Hmu' & Hcov' & Hw' & HR' & Hvalid').
  split; [repeat split; assumption|]. split; assumption.
Qed.

End EMWeightsKA.

(** Expectation-maximization from the initial mixture of the three
    observations [-1], [0], [1]: the weight it returns is 1. *)
Lemma ka_em_returns_mixing_weights_witness :
  exists c,
    @mixture_ka._expectation_maximization backend_1d y_ex [[0]] [[[1]]]
      [1] None "free" 1e-5 100 (Scalar 1) = inl c
    /\ mixing_weights (mixture_ka.c_weight c)
    /\ length (mixture_ka.c_weight c) = 1%nat.
Proof.
  destruct (@em_returns backend_1d y_ex [[0]] [[[1]]] [1] None "free" 1e-5
              100 (Scalar 1) eq_refl) as [c Hc].
  destruct (@ka_em_returns_mixing_weights backend_1d y_ex [[0]] [[[1]]] [1]
              None "free" 1e-5 100 (Scalar 1) c Nat.lt_0_1 eq_refl eq_refl
              Logic.I Hc)
    as (Hsize & Hw & _).
  exists c. split; [exact Hc|]. split; [exact Hw|]. apply Hsize.
Defined.

(** ** The constructors *)

Section Constructors.
Local Open Scope string_scope.

Lemma in_tuple_In x t : in_tuple x t = true <-> In x t.
Proof.
  unfold in_tuple. rewrite existsb_exists. split.
  - intros (z & Hz & Heq). apply String.eqb_eq in Heq. subst. exact Hz.
  - intros Hin. exists x. split; [exact Hin | apply String.eqb_refl].
Qed.

(** X4.  When the constructor of mixture_ka succeeds, the instance holds the
    data and the covariance type stripped of white space and in lower case,
    which is ["free"] or ["tied"]; constructing again with the stored type
    gives the same instance. *)
Theorem ka_constructor_normalizes :
  forall (self self' : mixture_ka.GaussianMixture) (y : mat)
         (covariance_type : string),
    mixture_ka.__init__ self y covariance_type = (self', inl tt) ->
    mixture_ka._y self' = Some y
    /\ mixture_ka._covariance_type self' = Some (lower (strip covariance_type))
    /\ (lower (strip covariance_type) = "free"
        \/ lower (strip covariance_type) = "tied")
    /\ forall self0,
         mixture_ka.__init__ self0 y (lower (strip covariance_type))
         = (self', inl tt).
Proof.
  intros self self' y ct. unfold mixture_ka.__init__. cbv zeta.
  destruct (negb (in_tuple (lower (strip ct)) mixture_ka.available));
    [discriminate|].
  destruct (in_tuple (lower (strip ct)) ["free"; "tied"]) eqn:Hin;
    cbn [negb]; [|discriminate].
  intros Heq. injection Heq as <-. cbn.
  apply in_tuple_In in Hin.
  assert (Hct : lower (strip ct) = "free" \/ lower (strip ct) = "tied").
  { destruct Hin as [<-|[<-|[]]]; auto. }
  repeat split; [exact Hct|].
  intros self0. destruct Hct as [-> | ->]; reflexivity.
Qed.

Lemma ka_constructor_normalizes_witness :
  mixture_ka._covariance_type
    (fst (mixture_ka.__init__
            {| mixture_ka._y := None; mixture_ka._covariance_type := None |}
            [[0]] "  Tied "))
  = Some "tied".
Proof.
  destruct (ka_constructor_normalizes
              {| mixture_ka._y := None; mixture_ka._covariance_type := None |}
              {| mixture_ka._y := Some [[0]];
                 mixture_ka._covariance_type := Some "tied" |}
              [[0]] "  Tied " eq_refl) as (_ & Hct & _).
  exact Hct.
Defined.

(** X5.  When the constructor of mixture_search succeeds, the instance holds
    exactly its four settings, the covariance type stripped and in lower
    case; the type is ["full"] or ["diag"], the regularization is not
    negative, the threshold is positive and the iteration cap is at least 1;
    constructing again with the stored settings gives the same instance. *)
Theorem search_constructor_establishes :
  forall (self self' : mixture_search.GaussianMixture)
         (covariance_type : string) (covariance_regularization threshold : R)
         (max_em_iterations : nat),
    mixture_search.__init__ self covariance_type covariance_regularization
      threshold max_em_iterations = (self', inl tt) ->
    let ct := lower (strip covariance_type) in
    self' = {| mixture_search._threshold := Some threshold;
               mixture_search._max_em_iterations := Some max_em_iterations;
               mixture_search._covariance_type := Some ct;
               mixture_search._covariance_regularization :=
                 Some covariance_regularization |}
    /\ (ct = "full" \/ ct = "diag")
    /\ (0 <= covariance_regularization)%R
    /\ (0 < threshold)%R
    /\ (1 <= max_em_iterations)%nat
    /\ forall self0,
         mixture_search.__init__ self0 ct covariance_regularization threshold
           max_em_iterations = (self', inl tt).
Proof.
  intros self self' ct0 reg thr max_it. unfold mixture_search.__init__.
  cbv zeta.
  destruct (in_tuple (lower (strip ct0)) mixture_search.available) eqn:Hin;
    cbn [negb]; [|discriminate].
  destruct (Rltb reg 0) eqn:Hreg; [discriminate|].
  destruct (Rleb thr 0) eqn:Hthr; [discriminate|].
  destruct (Nat.ltb max_it 1) eqn:Hmax; [discriminate|].
  intros Heq. injection Heq as <-.
  apply in_tuple_In in Hin.
  assert (Hct : lower (strip ct0) = "full" \/ lower (strip ct0) = "diag").
  { destruct Hin as [<-|[<-|[]]]; auto. }
  split; [reflexivity|]. split; [exact Hct|].
  split; [unfold Rltb in Hreg; destruct (Rlt_dec reg 0); [discriminate | lra]|].
  split; [unfold Rleb in Hthr; destruct (Rle_dec thr 0); [discriminate | lra]|].
  split; [apply Nat.ltb_ge in Hmax; exact Hmax|].
  intros self0. destruct Hct as [-> | ->]; reflexivity.
Qed.

End Constructors.

Lemma search_constructor_establishes_witness :
  mixture_search._covariance_type
    (fst (mixture_search.__init__
            {| mixture_search._threshold := None;
               mixture_search._max_em_iterations := None;
               mixture_search._covariance_type := None;
               mixture_search._covariance_regularization := None |}
            " DIAG" 0 1e-5 100))
  = Some "diag"%string.
Proof.
  assert (Hinit :
    mixture_search.__init__
      {| mixture_search._threshold := None;
         mixture_search._max_em_iterations := None;
         mixture_search._covariance_type := None;
         mixture_search._covariance_regularization := None |}
      " DIAG" 0 1e-5 100
    = ({| mixture_search._threshold := Some 1e-5;
          mixture_search._max_em_iterations := Some 100%nat;
          mixture_search._covariance_type := Some "diag"%string;
          mixture_search._covariance_regularization := Some 0 |}, inl tt)).
  { unfold mixture_search.__init__. cbv zeta.
    change (in_tuple (lower (strip " DIAG")) mixture_search.available) with true.
    cbn [negb].
    replace (Rltb 0 0) with false
      by (unfold Rltb; destruct (Rlt_dec 0 0); [lra | reflexivity]).
    replace (Rleb 1e-5 0) with false
      by (unfold Rleb; destruct (Rle_dec 1e-5 0); [lra | reflexivity]).
    reflexivity. }
  destruct (search_constructor_establishes _ _ _ _ _ _ Hinit) as (Hself & _).
  rewrite Hinit. cbn [fst]. rewrite Hself. reflexivity.
Defined.

(** ** The seeds of a split, in general *)

Section SplitSeeds.

Lemma np_sum_abs_nonneg (o : vec) : 0 <= np_sum (map Rabs o).
Proof.
  apply np_sum_nonneg. apply Forall_forall. intros x Hx.
  apply in_map_iff in Hx. destruct Hx as (z & <- & _). apply Rabs_pos.
Qed.

(** X6.  mixture_ka seeds a split in proportion to the distances: an
    observation at the L1 distances [d0] and [d1] from the two child means
    (not both 0) gets the responsibilities [d0 / (d0 + d1)] and
    [d1 / (d0 + d1)]; they lie in [[0, 1]] and sum to 1, and the child that
    is nearer gets the smaller one. *)
Theorem ka_split_seed_proportional :
  forall (y child_mu : mat) (i : nat),
    (i < length y)%nat ->
    let d0 := np_sum (map Rabs (vsub (nth i y []) (nth 0 child_mu []))) in
    let d1 := np_sum (map Rabs (vsub (nth i y []) (nth 1 child_mu []))) in
    let r := mixture_ka.split_child_responsibility y child_mu in
    d0 + d1 <> 0 ->
    nth i (nth 0 r []) 0 = d0 / (d0 + d1)
    /\ nth i (nth 1 r []) 0 = d1 / (d0 + d1)
    /\ nth i (nth 0 r []) 0 + nth i (nth 1 r []) 0 = 1
    /\ 0 <= nth i (nth 0 r []) 0 <= 1
    /\ (d0 < d1 -> nth i (nth 0 r []) 0 < nth i (nth 1 r []) 0)
    /\ (d1 < d0 -> nth i (nth 1 r []) 0 < nth i (nth 0 r []) 0).
Proof.
  intros y child_mu i Hi d0 d1 r Hne.
  assert (Hd0 : 0 <= d0) by apply np_sum_abs_nonneg.
  assert (Hd1 : 0 <= d1) by apply np_sum_abs_nonneg.
  assert (Hpos : 0 < d0 + d1) by lra.
  set (row := fun m => map (fun o => np_sum (map Rabs o)) (sub_row y m)).
  assert (Hlen : forall m, length (row m) = length y).
  { intros m. unfold row. rewrite length_map. apply sub_row_length. }
  assert (Hrow : forall m,
             nth i (row m) 0 = np_sum (map Rabs (vsub (nth i y []) m))).
  { intros m. unfold row, sub_row. rewrite map_map.
    apply (@map_nth_lt vec R
             (fun o => np_sum (map Rabs (vsub o m))) y i [] 0). exact Hi. }
  assert (Htotal : nth i (sum_axis0 (length y)
                            [row (nth 0 child_mu []); row (nth 1 child_mu [])]) 0
                   = d0 + d1).
  { rewrite (sum_axis0_pair (length y)) by (auto using Hlen).
    rewrite !Hrow. reflexivity. }
  assert (Hr0 : nth i (nth 0 r []) 0 = d0 / (d0 + d1)).
  { unfold r, mixture_ka.split_child_responsibility, shape. cbv zeta.
    fold (row (nth 0 child_mu [])) (row (nth 1 child_mu [])).
    cbn [map nth]. unfold vdiv.
    rewrite (map2_nth _ _ _ i 0 0 0).
    - rewrite Htotal, Hrow. reflexivity.
    - rewrite Hlen. exact Hi.
    - rewrite (sum_axis0_length (length y)); [exact Hi|].
      repeat constructor; apply Hlen. }
  assert (Hr1 : nth i (nth 1 r []) 0 = d1 / (d0 + d1)).
  { unfold r, mixture_ka.split_child_responsibility, shape. cbv zeta.
    fold (row (nth 0 child_mu [])) (row (nth 1 child_mu [])).
    cbn [map nth]. unfold vdiv.
    rewrite (map2_nth _ _ _ i 0 0 0).
    - rewrite Htotal, Hrow. reflexivity.
    - rewrite Hlen. exact Hi.
    - rewrite (sum_axis0_length (length y)); [exact Hi|].
      repeat constructor; apply Hlen. }
  rewrite Hr0, Hr1.
  split; [reflexivity|]. split; [reflexivity|].
  split; [field; lra|].
  split.
  - split.
    + unfold Rdiv. apply Rmult_le_pos; [lra|].
      left. apply Rinv_0_lt_compat. lra.
    + apply Rmult_le_reg_r with (d0 + d1); [lra|].
      unfold Rdiv. rewrite Rmult_assoc, Rinv_l by lra. lra.
  - split; intros Hlt; unfold Rdiv; apply Rmult_lt_compat_r;
      try (apply Rinv_0_lt_compat); lra.
Qed.

Lemma ka_split_seed_proportional_witness :
  nth 0 (nth 0 (mixture_ka.split_child_responsibility [[2]] [[1]; [-1]]) []) 0
  < nth 0 (nth 1 (mixture_ka.split_child_responsibility [[2]] [[1]; [-1]]) []) 0.
Proof.
  assert (H2 : 2 - 1 = 1) by lra. assert (H3 : 2 - -1 = 3) by lra.
  assert (Hi : (0 < length [[2]])%nat) by (simpl; lia).
  destruct (ka_split_seed_proportional [[2]] [[1]; [-1]] 0 Hi)
    as (_ & _ & _ & _ & Hnear & _).
  - cbn. rewrite H2, H3, !Rabs_pos_eq by lra. lra.
  - apply Hnear. cbn. rewrite H2, H3, !Rabs_pos_eq by lra. lra.
Defined.

(** mixture_search: the seed is a responsibility matrix of hard
    assignments. *)
Lemma search_split_seed_facts :
  forall (y child_mu : mat),
    let r := mixture_search.split_child_responsibility y child_mu in
    length r = 2%nat
    /\ responsibility_matrix_of (length y) r
    /\ Forall (Forall (fun x => x = 0 \/ x = 1)) r
    /\ forall i, (i < length y)%nat ->
         let d0 := np_sum (map (fun x => x ^ 2)
                             (vsub (nth i y []) (nth 0 child_mu []))) in
         let d1 := np_sum (map (fun x => x ^ 2)
                             (vsub (nth i y []) (nth 1 child_mu []))) in
         nth i (nth 0 r []) 0 = (if Rleb d0 d1 then 1 else 0)
         /\ nth i (nth 1 r []) 0 = (if Rleb d0 d1 then 0 else 1).
Proof.
  intros y child_mu r.
  set (dist := fun m => map (fun o => np_sum (map (fun x => x ^ 2) o))
                            (sub_row y m)).
  set (nearest := map2 (fun d0 d1 => np_argmin [Fin d0; Fin d1])
                       (dist (nth 0 child_mu [])) (dist (nth 1 child_mu []))).
  assert (Hr : r = [ map (fun a => if Nat.eqb a 0 then 1 else 0) nearest;
                     map (fun a => if Nat.eqb a 1 then 1 else 0) nearest ])
    by reflexivity.
  assert (Hdlen : forall m, length (dist m) = length y).
  { intros m. unfold dist. rewrite length_map. apply sub_row_length. }
  assert (Hnlen : length nearest = length y).
  { unfold nearest. apply map2_length_same; apply Hdlen. }
  assert (Hbit : Forall (fun a => a = 0%nat \/ a = 1%nat) nearest).
  { apply Forall_forall. intros a Ha. unfold nearest in Ha.
    apply (In_map2 _ _ _ _ 0 0) in Ha. destruct Ha as (i & _ & _ & ->).
    unfold np_argmin, argmin_from.
    destruct (ext_ltb _ _); auto. }
  assert (Hnth : forall i, (i < length y)%nat ->
            nth i (nth 0 r []) 0 + nth i (nth 1 r []) 0 = 1
            /\ (nth i (nth 0 r []) 0 = 0 \/ nth i (nth 0 r []) 0 = 1)
            /\ (nth i (nth 1 r []) 0 = 0 \/ nth i (nth 1 r []) 0 = 1)).
  { intros i Hi. rewrite Hr. cbn [nth].
    rewrite !(@map_nth_lt nat R _ nearest i 0%nat 0) by (rewrite Hnlen; exact Hi).
    pose proof (Forall_nth_lt _ nearest i 0%nat Hbit) as Hb.
    destruct Hb as [-> | ->]; [rewrite Hnlen; exact Hi| |]; cbn; lra. }
  split; [reflexivity|]. split; [|split].
  - split; [|split].
    + rewrite Hr. repeat constructor; rewrite length_map; exact Hnlen.
    + rewrite Hr. repeat constructor; apply Forall_forall; intros x Hx;
        apply in_map_iff in Hx; destruct Hx as (a & <- & _);
        destruct (Nat.eqb a _); lra.
    + intros i Hi. destruct (Hnth i Hi) as (Hsum & _).
      rewrite Hr in *. cbn [col map nth] in *. cbn [np_sum fold_right]. lra.
  - rewrite Hr. repeat constructor; apply Forall_forall; intros x Hx;
      apply in_map_iff in Hx; destruct Hx as (a & <- & _);
      destruct (Nat.eqb a _); auto.
  - intros i Hi d0 d1.
    destruct (search_split_hard_assignment y child_mu i Hi) as [Hnear Hfar].
    fold r d0 d1 in Hnear, Hfar.
    unfold Rleb. destruct (Rle_dec d0 d1) as [Hle|Hgt].
    + apply Hnear. exact Hle.
    + apply Hfar. lra.
Qed.

(** X7.  mixture_search seeds a split by hard assignment: the seed has two
    rows over the observations, every entry is 0 or 1, every column sums
    to 1 (so it is a responsibility matrix of the data model), and an
    observation belongs to the first child exactly when its squared
    distance to the first child mean is not larger than to the second. *)
Theorem search_split_seed_one_hot :
  forall (y child_mu : mat),
    let r := mixture_search.split_child_responsibility y child_mu in
    valid_responsibility (length y) 2 r
    /\ Forall (Forall (fun x => x = 0 \/ x = 1)) r
    /\ forall i, (i < length y)%nat ->
         let d0 := np_sum (map (fun x => x ^ 2)
                             (vsub (nth i y []) (nth 0 child_mu []))) in
         let d1 := np_sum (map (fun x => x ^ 2)
                             (vsub (nth i y []) (nth 1 child_mu []))) in
         (d0 <= d1 -> nth i (nth 0 r []) 0 = 1 /\ nth i (nth 1 r []) 0 = 0)
         /\ (d1 < d0 -> nth i (nth 0 r []) 0 = 0 /\ nth i (nth 1 r []) 0 = 1).
Proof.
  intros y child_mu r.
  destruct (search_split_seed_facts y child_mu) as (Hlen & Hvalid & Hbits & Hnth).
  fold r in Hlen, Hvalid, Hbits, Hnth.
  split; [apply responsibility_matrix_of_valid; assumption|].
  split; [exact Hbits|].
  intros i Hi d0 d1. specialize (Hnth i Hi). cbv zeta in Hnth.
  fold d0 d1 in Hnth. destruct Hnth as [Hn0 Hn1]. rewrite Hn0, Hn1.
  unfold Rleb. split; intros Hcmp; destruct (Rle_dec d0 d1); try lra; auto.
Qed.

End SplitSeeds.

(** ** Perturbing a mixture of one component *)

Section SingleComponent.
Context `{Backend}.
Local Open Scope string_scope.


Lemma clip_zeros n :
  map (fun s => np_clip s eps 10e8) (zeros n) = repeat eps n.
Proof.
  unfold zeros. induction n as [|n IH]; [reflexivity|].
  cbn [repeat map]. rewrite IH. f_equal.
  unfold np_clip. pose proof eps_pos. pose proof eps_le_1.
  rewrite Rmax_right by lra. apply Rmin_left. lra.
Qed.

Lemma np_sum_ln_repeat c n : np_sum (map ln (repeat c n)) = INR n * ln c.
Proof.
  induction n as [|n IH]; [simpl; lra|].
  cbn [repeat map np_sum fold_right]. fold (np_sum (map ln (repeat c n))).
  rewrite IH, S_INR. lra.
Qed.

(** the empty mixture under expectation and maximization *)
Lemma ka_expectation_empty y N_cp :
  mixture_ka._expectation y [] [] [] N_cp
  = ([], INR (length y) * ln eps, - (INR (length y) * ln eps)).
Proof.
  unfold mixture_ka._expectation, mixture_ka.responsibility_matrix, shape.
  cbn [combine map sum_axis0 fold_right length np_sum].
  rewrite clip_zeros, np_sum_ln_repeat. f_equal. simpl. lra.
Qed.

(** X8.  [delete_component] of mixture_ka does not refuse the only component
    of a mixture: it returns the mixture of no component, after one pass of
    expectation-maximization, with the log-likelihood [N ln(eps)] and the
    message length [- N ln(eps)]. *)
Theorem ka_delete_only_component :
  forall (y : mat) (m : vec) (c : mat) (w : R) (r : vec)
         (covariance_type : string) (threshold : R) (max_em_iterations : nat),
    (0 < length y)%nat -> 0 <= threshold ->
    in_tuple covariance_type mixture_ka.available = true ->
    mixture_ka.delete_component y [m] [c] [w] [r] 0 covariance_type threshold
      max_em_iterations
    = inl ([], [], [], [],
           {| warnflag := Nat.leb max_em_iterations 2;
              log_likelihood := INR (length y) * ln eps |},
           - (INR (length y) * ln eps)).
Proof.
  intros y m c w r ct thr max_it Hy Hthr Hct.
  unfold mixture_ka.delete_component, mixture_ka.delete_perturbation.
  cbn [length Nat.ltb Nat.leb negb np_delete firstn skipn app map nth].
  unfold mixture_ka._expectation_maximization.
  assert (Hpar : exists n,
             mixture_ka._parameters_per_component (ncols y) ct = inl n).
  { unfold mixture_ka._parameters_per_component.
    unfold in_tuple, mixture_ka.available in Hct. simpl in Hct.
    destruct (String.eqb ct "free"); [eexists; reflexivity|].
    destruct (String.eqb ct "diag"); [eexists; reflexivity|].
    destruct (String.eqb ct "tied"); [eexists; reflexivity|].
    destruct (String.eqb ct "tied_diag"); [eexists; reflexivity|].
    discriminate. }
  destruct Hpar as [N_cp Hpar]. rewrite Hpar. cbn [bind].
  rewrite ka_expectation_empty.
  assert (Hpass : forall s,
             mixture_ka.em_mu s = [] -> mixture_ka.em_cov s = [] ->
             mixture_ka.em_weight s = [] -> mixture_ka.em_responsibility s = [] ->
             mixture_ka.em_pass y N_cp (Scalar 1) s
             = {| mixture_ka.em_mu := []; mixture_ka.em_cov := [];
                  mixture_ka.em_weight := []; mixture_ka.em_responsibility := [];
                  mixture_ka.em_ll := INR (length y) * ln eps;
                  mixture_ka.em_dl := - (INR (length y) * ln eps);
                  mixture_ka.em_iterations := S (mixture_ka.em_iterations s) |}).
  { intros s Hmu Hcov Hw HR. unfold mixture_ka.em_pass.
    rewrite Hmu, Hcov, Hw, HR.
    unfold mixture_ka._maximization, shape.
    cbn [map sum_axis1 map2 length]. rewrite ka_expectation_empty. reflexivity. }
  destruct max_it as [|max_it]; cbn [mixture_ka.em_loop];
    rewrite Hpass by reflexivity; cbn [mixture_ka.em_iterations];
    unfold mixture_ka.em_stop; cbn [mixture_ka.em_ll mixture_ka.em_iterations].
  - cbn. rewrite orb_true_r. reflexivity.
  - replace (Rleb (Rabs ((INR (length y) * ln eps - INR (length y) * ln eps)
                         / (INR (length y) * ln eps))) thr) with true.
    + cbn [orb]. reflexivity.
    + symmetry. apply Rleb_true.
      replace ((INR (length y) * ln eps - INR (length y) * ln eps)
               / (INR (length y) * ln eps)) with 0
        by (unfold Rdiv; lra).
      rewrite Rabs_R0. exact Hthr.
Qed.

(** X9.  [merge_component] needs two components: on a mixture of one
    component, whose only partner is the component itself, both modules
    raise [IndexError] when the merged component is written back into the
    arrays the component was deleted from. *)
Theorem merge_needs_two_components :
  forall (y : mat) (m : vec) (w : R) (r : vec),
    length r = length y ->
    (forall (c : mat) (covariance_type : string) (threshold : R)
            (max_em_iterations : nat),
        mixture_ka.merge_component y [m] [c] [w] [r] 0 covariance_type
          threshold max_em_iterations = inr IndexError)
    /\ (forall (cov : mixture_search.covariances) (kw : mixture_search.kwds),
          mixture_search.cov_size cov = 1%nat ->
          in_tuple (mixture_search.covariance_type kw)
                   mixture_search.available = true ->
          mixture_search.merge_component y [m] cov [w] [r] 0 kw
          = inr IndexError).
Proof.
  intros y m w r _. split.
  - intros c ct thr max_it.
    unfold mixture_ka.merge_component, mixture_ka.merge_perturbation,
      mixture_ka.merge_D_kl, mixture_ka.merged_component, shape.
    reflexivity.
  - intros cov kw Hsize Hct.
    unfold mixture_search.merge_component, mixture_search.merge_perturbation,
      mixture_search.merge_D_kl, mixture_search.merged_component, shape.
    cbn [length Nat.ltb Nat.leb negb seq map Nat.eqb np_argmin].
    unfold mixture_search._estimate_covariance_matrix.
    unfold in_tuple, mixture_search.available in Hct. simpl in Hct.
    destruct (String.eqb (mixture_search.covariance_type kw) "full").
    + reflexivity.
    + destruct (String.eqb (mixture_search.covariance_type kw) "diag");
        [reflexivity | discriminate].
Qed.

End SingleComponent.

Lemma ka_delete_only_component_witness :
  exists c,
    @mixture_ka.delete_component backend_1d [[-1]; [1]] [[0]] [[[1]]] [1]
      [[1; 1]] 0 "free" 1e-5 100 = inl c
    /\ mixture_ka.c_weight c = [].
Proof.
  set (y := [[-1]; [1]] : mat).
  assert (Hy : Nat.lt 0 (length y)) by (unfold y; simpl; lia).
  assert (Hthr : 0 <= 1e-5) by lra.
  pose proof (@ka_delete_only_component backend_1d y [0] [[1]] 1
                [1; 1] "free" 1e-5 100 Hy Hthr eq_refl) as Hdel.
  eexists. split; [exact Hdel | reflexivity].
Defined.

Lemma merge_needs_two_components_witness :
  @mixture_search.merge_component backend_1d [[0; 0]] [[0; 0]]
    (mixture_search.Diag [[1; 1]]) [1] [[1]] 0 kw_ex = inr IndexError.
Proof.
  destruct (@merge_needs_two_components backend_1d [[0; 0]] [0; 0] 1 [1]
              eq_refl) as [_ Hsearch].
  apply Hsearch; reflexivity.
Defined.

(** ** The search loop of mixture_ka *)

Section SearchLoopKA.
Context `{Backend}.
Import mixture_ka.

(** How a round ends, for a covariance type the program knows. *)
Lemma search_round_cases y ct thr max_it s :
  (0 < length (s_weight s))%nat -> well_formed s ->
  in_tuple ct available = true ->
  exists cands,
    round_candidates y ct thr max_it s = inl cands
    /\ ((exists s',
           search_round y ct thr max_it s = inl (Accepted s')
           /\ well_formed s' /\ (0 < length (s_weight s'))%nat
           /\ s_mindl s' < s_mindl s
           /\ s_iterations s' = S (s_iterations s))
        \/ (search_round y ct thr max_it s = inl (Converged s)
            /\ forall x, In x cands -> s_mindl s <= c_dl (snd x))).
Proof.
  intros HK Hwf Hct.
  destruct (round_candidates_returns y ct thr max_it s Hct Hwf) as [cands Hcands].
  exists cands. split; [exact Hcands|].
  destruct (round_candidates_spec y ct thr max_it s cands Hcands)
    as [Hcalls Hperturb].
  assert (Hne : cands <> []).
  { intros ->. simpl in Hcalls. unfold round_calls in Hcalls.
    destruct (length (s_weight s)); [lia|]. simpl in Hcalls. discriminate. }
  pose proof (record_ok cands [] [] best_so_far_nil) as Hok. simpl in Hok.
  destruct (min_item_least _ _ Hok Hne) as (op & m & c & Hmin & Hin & Hle).
  assert (Hbp : best_perturbation y ct thr max_it s = inl (op, m, c)).
  { rewrite best_perturbation_eq, Hcands. cbn [bind]. rewrite Hmin. reflexivity. }
  assert (Hcall : In (op, m) (round_calls (length (s_weight s)))).
  { rewrite <- Hcalls. apply (in_map fst) in Hin. exact Hin. }
  apply round_calls_in in Hcall. destruct Hcall as [Hm Hop].
  assert (Hsize : candidate_size (components_after op (length (s_weight s))) c).
  { rewrite Forall_forall in Hperturb. specialize (Hperturb _ Hin).
    apply (perturb_size y ct thr max_it s op m c Hwf Hop Hperturb). }
  unfold search_round. rewrite Hbp. cbn [bind].
  destruct c as [[[[[b_mu b_cov] b_weight] b_R] b_meta] b_dl].
  cbn [c_dl] in *.
  destruct (Rltb b_dl (s_mindl s)) eqn:Hlt.
  - left. eexists. split; [reflexivity|]. apply Rltb_true in Hlt.
    destruct Hsize as (Hs_mu & Hs_cov & Hs_w & Hs_R). cbn in *.
    split; [unfold well_formed; cbn; repeat split; congruence|].
    split; [|split; [exact Hlt | reflexivity]].
    rewrite Hs_w. unfold components_after.
    destruct op; destruct Hop as [Hop|Hop]; try discriminate; lia.
  - right. split; [reflexivity|]. apply Rltb_false in Hlt.
    intros x Hx. specialize (Hle x Hx). simpl in Hle. lra.
Qed.

(** What the search loop leaves with: the rounds before the last one each
    lowered the message length, and the last round found nothing better. *)
Lemma search_loop_invariant fuel y ct thr max_it : forall s,
  (0 < length (s_weight s))%nat -> well_formed s ->
  in_tuple ct available = true ->
  exists o,
    search_loop fuel y ct thr max_it s = inl o
    /\ match o with
       | None => True
       | Some s' =>
           well_formed s' /\ (0 < length (s_weight s'))%nat
           /\ s_mindl s' <= s_mindl s
           /\ (s_iterations s <= s_iterations s')%nat
           /\ (s_iterations s' = s_iterations s -> s' = s)
           /\ ((s_iterations s < s_iterations s')%nat -> s_mindl s' < s_mindl s)
           /\ search_round y ct thr max_it s' = inl (Converged s')
       end.
Proof.
  induction fuel as [|fuel IH]; intros s HK Hwf Hct.
  - exists None. split; [reflexivity | exact Logic.I].
  - cbn [search_loop].
    destruct (search_round_cases y ct thr max_it s HK Hwf Hct)
      as (cands & Hcands & [(s1 & Hround & Hwf1 & HK1 & Hdl & Hit) | [Hround Hmin]]).
    + rewrite Hround. cbn [bind].
      destruct (IH s1 HK1 Hwf1 Hct) as (o & Hloop & Ho).
      exists o. split; [exact Hloop|].
      destruct o as [s'|]; [|exact Logic.I].
      destruct Ho as (Hwf' & HK' & Hdl' & Hit' & Hsame & Hless & Hconv).
      split; [exact Hwf'|]. split; [exact HK'|]. split; [lra|].
      split; [lia|]. split; [intros Heq; lia|].
      split; [intros _; lra | exact Hconv].
    + rewrite Hround. cbn [bind]. exists (Some s). split; [reflexivity|].
      split; [exact Hwf|]. split; [exact HK|]. split; [lra|].
      split; [lia|]. split; [reflexivity|]. split; [intros Hlt; lia|].
      exact Hround.
Qed.

(** X10.  From a well-formed state of [K >= 1] components and for a
    covariance type the program knows: the state that the search loop of
    mixture_ka leaves with is well formed, has at least one component and a
    message length not above the initial one (strictly below it unless no
    round was accepted, in which case the state is the initial one), and
    every candidate of its last round has a message length that is not
    lower: the result is a local optimum of the three operations. *)
Theorem ka_search_loop_local_optimum :
  forall (fuel : nat) (y : mat) (covariance_type : string) (threshold : R)
         (max_em_iterations : nat) (s s' : search_state),
    (0 < length (s_weight s))%nat -> well_formed s ->
    in_tuple covariance_type available = true ->
    search_loop fuel y covariance_type threshold max_em_iterations s
    = inl (Some s') ->
    well_formed s' /\ (0 < length (s_weight s'))%nat
    /\ s_mindl s' <= s_mindl s
    /\ (s_iterations s <= s_iterations s')%nat
    /\ (s_iterations s' = s_iterations s -> s' = s)
    /\ ((s_iterations s < s_iterations s')%nat -> s_mindl s' < s_mindl s)
    /\ exists cands,
         round_candidates y covariance_type threshold max_em_iterations s'
         = inl cands
         /\ map fst cands = round_calls (length (s_weight s'))
         /\ forall x, In x cands -> s_mindl s' <= c_dl (snd x).
Proof.
  intros fuel y ct thr max_it s s' HK Hwf Hct Hret.
  destruct (search_loop_invariant fuel y ct thr max_it s HK Hwf Hct)
    as (o & Hloop & Ho).
  rewrite Hloop in Hret. injection Hret as ->.
  destruct Ho as (Hwf' & HK' & Hdl & Hit & Hsame & Hless & Hconv).
  repeat (split; [assumption|]).
  destruct (search_round_cases y ct thr max_it s' HK' Hwf' Hct)
    as (cands & Hcands & [(s1 & Hround & _) | [_ Hmin]]).
  - rewrite Hround in Hconv. discriminate.
  - exists cands. split; [exact Hcands|]. split; [|exact Hmin].
    apply (round_candidates_spec y ct thr max_it s' cands Hcands).
Qed.

Lemma parameters_known D ct n :
  _parameters_per_component D ct = inl n -> in_tuple ct available = true.
Proof.
  unfold _parameters_per_component, in_tuple, available. cbn [existsb].
  destruct (String.eqb ct "free"); [reflexivity|].
  destruct (String.eqb ct "diag"); [reflexivity|].
  destruct (String.eqb ct "tied"); [reflexivity|].
  destruct (String.eqb ct "tied_diag"); [reflexivity | discriminate].
Qed.

(** X11.  [fit] of mixture_ka on a constructed instance: a threshold that is
    not positive or an iteration cap below 1 raises [ValueError] before
    anything is computed; otherwise the search starts from the
    one-component mixture of [_initialize], and the mixture that it returns
    has at least one component, as many means and covariances as weights, a
    message length not above that of the initial mixture, and no
    perturbation that would be accepted. *)
Theorem ka_fit_outcomes :
  forall (fuel : nat) (self : GaussianMixture) (y : mat)
         (covariance_type : string) (threshold : R)
         (max_em_iterations N_cp : nat),
    _y self = Some y -> _covariance_type self = Some covariance_type ->
    _parameters_per_component (ncols y) covariance_type = inl N_cp ->
    (threshold <= 0 \/ (max_em_iterations < 1)%nat ->
     _fit_kasarapu_allison fuel self threshold max_em_iterations
     = inr ValueError)
    /\ (0 < threshold -> (1 <= max_em_iterations)%nat ->
        let '(mu0, cov0, weight0) := _initialize y in
        let '(_, _, mindl0) := _expectation y mu0 cov0 weight0 N_cp in
        forall (mu : mat) (cov : list mat) (weight : vec),
          _fit_kasarapu_allison fuel self threshold max_em_iterations
          = inl (Some (mu, cov, weight)) ->
          (0 < length weight)%nat
          /\ length mu = length weight /\ length cov = length weight
          /\ exists s',
               s_mu s' = mu /\ s_cov s' = cov /\ s_weight s' = weight
               /\ well_formed s'
               /\ s_mindl s' <= mindl0
               /\ search_round y covariance_type threshold
                    max_em_iterations s' = inl (Converged s')).
Proof.
  intros fuel self y ct thr max_it N_cp Hy Hct Hpar.
  pose proof (parameters_known _ _ _ Hpar) as Havail.
  unfold _fit_kasarapu_allison. split.
  - intros [Hthr|Hmax].
    + apply Rleb_true in Hthr. rewrite Hthr. reflexivity.
    + destruct (Rleb thr 0); [reflexivity|].
      apply Nat.ltb_lt in Hmax. rewrite Hmax. reflexivity.
  - intros Hthr Hmax.
    assert (Hthr' : Rleb thr 0 = false) by (apply Rleb_false; exact Hthr).
    assert (Hmax' : Nat.ltb max_it 1 = false) by (apply Nat.ltb_ge; exact Hmax).
    rewrite Hthr', Hmax', Hy, Hct.
    unfold _initialize, shape. cbv beta iota zeta. rewrite Hpar. cbn [bind].
    match goal with
    | |- context [_expectation ?y ?mu ?cov ?w ?n] =>
        pose proof (responsibility_matrix_rows y mu cov w) as Hrows;
        unfold _expectation;
        destruct (responsibility_matrix y mu cov w) as [[R0 num] den]
    end.
    cbn [fst combine length] in Hrows. unfold shape. cbv beta iota zeta.
    intros mu1 cov1 weight1.
    match goal with
    | |- context [search_loop fuel y ct thr max_it ?s0] =>
        destruct (search_loop_invariant fuel y ct thr max_it s0)
          as (o & Hloop & Ho)
    end.
    + cbn. lia.
    + unfold well_formed. cbn. repeat split. exact Hrows.
    + exact Havail.
    + rewrite Hloop. cbn [bind]. intros Hret.
      destruct o as [s'|]; [|discriminate]. cbn [option_map] in Hret.
      injection Hret as <- <- <-.
      destruct Ho as (Hwf & HK & Hdl & _ & _ & _ & Hconv).
      split; [exact HK|]. pose proof Hwf as (Hmu & Hcov & HR).
      split; [exact Hmu|]. split; [exact Hcov|].
      exists s'. repeat split; assumption.
Qed.

End SearchLoopKA.

(** The search on the three observations [-1], [0], [1] with one pass of
    expectation-maximization for each candidate: the loop leaves with the
    initial mixture, whose only candidate, the split, has a message length
    that is not lower. *)
Lemma ka_search_loop_local_optimum_witness :
  @mixture_ka.search_loop backend_1d 1 y_ex "free" 1e-5 1 s_ex
  = inl (Some s_ex)
  /\ exists cands,
       @round_candidates backend_1d y_ex "free" 1e-5 1 s_ex = inl cands
       /\ map fst cands = [(split, 0%nat)]
       /\ forall x, In x cands -> dl_ex <= mixture_ka.c_dl (snd x).
Proof.
  pose proof (ka_example_loop 0 1e-5) as Hloop.
  split; [exact Hloop|].
  assert (HK : (0 < length (mixture_ka.s_weight s_ex))%nat) by (simpl; lia).
  assert (Hwf : well_formed s_ex) by (repeat split; reflexivity).
  destruct (@ka_search_loop_local_optimum backend_1d 1 y_ex "free" 1e-5 1
              s_ex s_ex HK Hwf eq_refl Hloop)
    as (_ & _ & _ & _ & _ & _ & cands & Hcands & Hcalls & Hmin).
  exists cands. split; [exact Hcands|]. split; [exact Hcalls | exact Hmin].
Defined.

(** [fit] on the three observations [-1], [0], [1]: the mixture returned is
    the initial one, of one component. *)
Lemma ka_fit_outcomes_witness :
  @mixture_ka._fit_kasarapu_allison backend_1d 1
    {| mixture_ka._y := Some y_ex;
       mixture_ka._covariance_type := Some "free"%string |} 1e-5 1
  = inl (Some ([[0]], [[[1]]], [1]))
  /\ exists s',
       mixture_ka.s_weight s' = [1]
       /\ mixture_ka.s_mindl s' <= dl_ex
       /\ @mixture_ka.search_round backend_1d y_ex "free" 1e-5 1 s'
          = inl (mixture_ka.Converged s').
Proof.
  assert (Hthr : 0 < 1e-5) by lra.
  pose proof (ka_example_fit 0 1e-5 Hthr) as Hfit.
  split; [exact Hfit|].
  destruct (@ka_fit_outcomes backend_1d 1
              {| mixture_ka._y := Some y_ex;
                 mixture_ka._covariance_type := Some "free"%string |}
              y_ex "free" 1e-5 1 2 eq_refl eq_refl eq_refl)
    as [_ Hret].
  specialize (Hret Hthr (le_n 1)).
  rewrite ka_example_initialize, ka_example_expectation in Hret.
  destruct (Hret _ _ _ Hfit)
    as (_ & _ & _ & s' & _ & _ & Hw & _ & Hdl & Hconv).
  exists s'. split; [exact Hw|]. split; [exact Hdl | exact Hconv].
Defined.

(** ** The Kullback-Leibler distance, in general *)

Section KLIdentical.
Context `{Backend}.

Lemma vsub_self (v : vec) : vsub v v = zeros (length v).
Proof.
  unfold vsub, zeros. induction v as [|x v IH]; [reflexivity|].
  cbn [map2 length repeat]. rewrite IH. f_equal. lra.
Qed.

Lemma dot_zeros_l n (v : vec) : dot (zeros n) v = 0.
Proof.
  unfold dot, vmul, zeros. revert v.
  induction n as [|n IH]; intros v; [reflexivity|].
  destruct v as [|x v]; [reflexivity|].
  cbn [repeat map2 np_sum fold_right]. fold (np_sum (map2 Rmult (repeat 0 n) v)).
  rewrite IH. lra.
Qed.

Lemma diagonal_eye k : diagonal (eye k) = ones k.
Proof.
  unfold diagonal, eye, ones. rewrite length_map, length_seq.
  apply nth_ext with (d := 0) (d' := 0).
  - rewrite length_map, length_seq, repeat_length. reflexivity.
  - intros i Hi. rewrite length_map, length_seq in Hi.
    rewrite (@map_nth_lt nat R _ (seq 0 k) i 0%nat 0) by (rewrite length_seq; exact Hi).
    rewrite seq_nth by exact Hi. cbn [Nat.add].
    rewrite (@map_nth_lt nat vec _ (seq 0 k) i 0%nat []) by (rewrite length_seq; exact Hi).
    rewrite seq_nth by exact Hi. cbn [Nat.add].
    rewrite (@map_nth_lt nat R _ (seq 0 k) i 0%nat 0) by (rewrite length_seq; exact Hi).
    rewrite seq_nth by exact Hi. cbn [Nat.add].
    rewrite Nat.eqb_refl. symmetry. apply nth_repeat_lt. exact Hi.
Qed.

Lemma trace_eye k : trace (eye k) = INR k.
Proof.
  unfold trace. rewrite diagonal_eye. unfold ones.
  rewrite np_sum_repeat. lra.
Qed.

(** X12.  The distance from a normal distribution to itself is 0 in both
    modules, whenever the inverse computed from the singular value
    decomposition is an inverse of the covariance and the determinant is
    not 0. *)
Theorem kullback_leibler_identical :
  forall (mu : vec) (cov : mat),
    matmul (svd_inverse cov) cov = eye (length mu) ->
    linalg_det cov <> 0 ->
    mixture_ka.kullback_leibler_for_multivariate_normals mu cov mu cov = 0
    /\ mixture_search.kullback_leibler_for_multivariate_normals
         mu (mixture_search.FullC cov) mu (mixture_search.FullC cov) = 0.
Proof.
  intros mu cov Hinv Hdet.
  assert (Hka : mixture_ka.kullback_leibler_for_multivariate_normals mu cov mu cov
                = 0).
  { unfold mixture_ka.kullback_leibler_for_multivariate_normals. cbv zeta.
    rewrite Hinv, trace_eye, vsub_self, dot_zeros_l.
    unfold Rdiv. rewrite Rinv_r by exact Hdet. rewrite ln_1.
    cbn [np_sum fold_right]. lra. }
  split; [exact Hka|].
  unfold mixture_search.kullback_leibler_for_multivariate_normals.
  cbn [mixture_search.as_matrix]. exact Hka.
Qed.

End KLIdentical.

Lemma kullback_leibler_identical_witness :
  @mixture_ka.kullback_leibler_for_multivariate_normals backend_1d
    [3] [[2]] [3] [[2]] = 0.
Proof.
  apply (@kullback_leibler_identical backend_1d [3] [[2]]).
  - unfold svd_inverse, matmul, vecmat, matvec, transpose, dot, vmul, col, ncols.
    cbn. unfold entry11. cbn. repeat f_equal. field.
  - cbn. unfold entry11. cbn. lra.
Defined.

(** X13.  In one dimension both modules return
    [1/2 (vb/va + (mb - ma)^2/vb - 1 + ln(vb/va))] for the distance from the
    normal of mean [ma] and variance [va] to the one of mean [mb] and
    variance [vb], where the formula of the docstring has [va/vb] for the
    first term; so the value returned is negative whenever the means are
    equal and [vb < va]. *)
Theorem kullback_leibler_one_dimension :
  forall (ma va mb vb : R),
    0 < va -> 0 < vb ->
    let d := @mixture_ka.kullback_leibler_for_multivariate_normals backend_1d
               [ma] [[va]] [mb] [[vb]] in
    d = 0.5 * (vb / va + (mb - ma) ^ 2 / vb - 1 + ln (vb / va))
    /\ @mixture_search.kullback_leibler_for_multivariate_normals backend_1d
         [ma] (mixture_search.FullC [[va]]) [mb] (mixture_search.FullC [[vb]])
       = d
    /\ @kullback_leibler_documented backend_1d [ma] [[va]] [mb] [[vb]]
       = 0.5 * (va / vb + (mb - ma) ^ 2 / vb - 1 + ln (vb / va))
    /\ (ma = mb -> vb < va -> d < 0).
Proof.
  intros ma va mb vb Hva Hvb d.
  assert (Hd : d = 0.5 * (vb / va + (mb - ma) ^ 2 / vb - 1 + ln (vb / va))).
  { unfold d, mixture_ka.kullback_leibler_for_multivariate_normals.
    cbn. unfold entry11. cbn. f_equal. field. lra. }
  split; [exact Hd|]. split; [reflexivity|]. split.
  - unfold kullback_leibler_documented. cbn. unfold entry11. cbn.
    f_equal. field. lra.
  - intros -> Hlt. rewrite Hd.
    assert (Hx : 0 < vb / va < 1).
    { split; [apply Rdiv_lt_0_compat; lra|].
      apply Rmult_lt_reg_r with va; [lra|].
      unfold Rdiv. rewrite Rmult_assoc, Rinv_l by lra. lra. }
    assert (Hln : ln (vb / va) < 0).
    { rewrite <- ln_1. apply ln_increasing; lra. }
    replace ((mb - mb) ^ 2 / vb) with 0 by (field; lra). lra.
Qed.

Lemma kullback_leibler_one_dimension_witness :
  @mixture_ka.kullback_leibler_for_multivariate_normals backend_1d
    [0] [[4]] [0] [[1]] < 0.
Proof.
  destruct (kullback_leibler_one_dimension 0 4 0 1) as (_ & _ & _ & Hneg);
    [lra | lra |].
  apply Hneg; [reflexivity | lra].
Defined.

(** ** The loop of expectation-maximization (mixture_search) *)

Section SearchSizes.
Context `{Backend}.
Import mixture_search.

Lemma estimate_covariance_size y responsibility mean ct reg cov :
  _estimate_covariance_matrix y responsibility mean ct reg = inl cov ->
  cov_size cov = Nat.min (length mean) (length responsibility).
Proof.
  unfold _estimate_covariance_matrix.
  destruct (String.eqb ct "full").
  - intros Heq. injection Heq as <-. cbn [cov_size].
    unfold _estimate_covariance_matrix_full, shape, sum_axis1.
    unfold mat, vec in *.
    rewrite length_map, !length_combine, length_map. lia.
  - destruct (String.eqb ct "diag"); [|discriminate].
    intros Heq. injection Heq as <-. cbn [cov_size].
    unfold _estimate_covariance_matrix_diag, shape, sum_axis1.
    unfold mat, vec in *.
    rewrite length_map, !length_combine, length_map. lia.
Qed.

Lemma search_maximization_shape y mu cov weight responsibility parent kw r :
  _maximization y mu cov weight responsibility parent kw = inl r ->
  let '(mu', cov', weight') := r in
  length mu' = length responsibility
  /\ cov_size cov' = length responsibility
  /\ length weight' = length responsibility.
Proof.
  unfold _maximization, shape. cbv beta iota zeta.
  destruct (_estimate_covariance_matrix _ _ _ _ _) as [new_cov|e] eqn:Hcov;
    [|discriminate].
  cbn [bind]. intros Heq. injection Heq as <-.
  apply estimate_covariance_size in Hcov.
  unfold sum_axis1. unfold mat, vec in *.
  rewrite !length_map in *. repeat split; lia.
Qed.

Lemma search_responsibility_rows y mu cov weight kw R0 ll :
  responsibility_matrix y mu cov weight kw = inl (R0, ll) ->
  length R0 = length mu.
Proof.
  unfold responsibility_matrix.
  destruct (_compute_precision_cholesky _ _) as [pc|e]; [|discriminate].
  cbn [bind].
  destruct (_estimate_log_gaussian_prob _ _ _ _) as [lp|e]; [|discriminate].
  cbn [bind]. destruct (dofail kw); [discriminate|].
  intros Heq. injection Heq as <- _. rewrite length_map, length_seq.
  reflexivity.
Qed.

Lemma search_expectation_rows y mu cov weight kw R0 ll I0 :
  _expectation y mu cov weight kw = inl (R0, ll, I0) ->
  length R0 = length mu.
Proof.
  unfold _expectation.
  destruct (responsibility_matrix y mu cov weight kw) as [[R1 ll1]|e] eqn:HR;
    [|discriminate].
  cbn [bind].
  destruct (_message_length _ _ _ _ _ _ _) as [I1|e]; [|discriminate].
  cbn [bind]. intros Heq. injection Heq as <- _ _.
  apply (search_responsibility_rows _ _ _ _ _ _ _ HR).
Qed.

Lemma search_em_pass_shape y parent kw s s' n :
  length (em_responsibility s) = n ->
  em_pass y parent kw s = inl s' -> search_em_shape n s'.
Proof.
  intros Hn. unfold em_pass.
  destruct (_maximization _ _ _ _ _ _ _) as [[[mu cov] weight]|e] eqn:Hmax;
    [|discriminate].
  apply search_maximization_shape in Hmax. destruct Hmax as (Hmu & Hcov & Hw).
  cbn [bind].
  destruct (_expectation y mu cov weight kw) as [[[R0 ll] dl]|e] eqn:Hexp;
    [|discriminate].
  apply search_expectation_rows in Hexp.
  cbn [bind]. intros Heq. injection Heq as <-.
  unfold search_em_shape. cbn. repeat split; congruence.
Qed.

Lemma search_em_loop_shape fuel y parent kw : forall s s' n,
  length (em_responsibility s) = n ->
  em_loop fuel y parent kw s = inl s' -> search_em_shape n s'.
Proof.
  induction fuel as [|fuel IH]; intros s s' n Hn; cbn [em_loop];
    destruct (em_pass y parent kw s) as [s1|e] eqn:Hpass; try discriminate;
    cbn [bind]; pose proof (search_em_pass_shape _ _ _ _ _ _ Hn Hpass) as Hshape.
  - destruct (em_stop kw s s1); intros Heq; injection Heq as <-; exact Hshape.
  - destruct (em_stop kw s s1).
    + intros Heq. injection Heq as <-. exact Hshape.
    + apply IH. apply Hshape.
Qed.

(** What [_expectation_maximization] returns has as many components as the
    responsibility matrix it was given has rows. *)
Lemma search_em_candidate_size y mu cov weight responsibility parent kw c :
  _expectation_maximization y mu cov weight (Some responsibility) parent kw
  = inl c ->
  search_candidate_size (length responsibility) c.
Proof.
  unfold _expectation_maximization.
  destruct (_expectation y mu cov weight kw) as [[[R0 ll] dl]|e]; [|discriminate].
  cbn [bind].
  match goal with
  | |- bind (em_loop ?f ?y ?p ?k ?s0) _ = _ -> _ =>
      destruct (em_loop f y p k s0) as [s|e] eqn:Hloop; [|discriminate];
      apply (search_em_loop_shape f y p k s0 s (length responsibility) eq_refl)
        in Hloop
  end.
  cbn [bind]. intros Heq. injection Heq as <-. exact Hloop.
Qed.

Lemma split_component_eq y mu cov weight responsibility index kw :
  split_component y mu cov weight responsibility index kw
  = bind (split_perturbation y mu cov weight responsibility index kw)
         (fun '(mu', cov', weight', responsibility', parent) =>
            _expectation_maximization y mu' cov' weight' (Some responsibility')
              parent kw).
Proof.
  unfold split_component, split_perturbation, shape. cbv beta iota zeta.
  destruct (negb (Nat.ltb index (length weight))); [reflexivity|].
  destruct (_svd _ _) as [[[U s] V]|e]; [|reflexivity]. cbn [bind].
  destruct (_estimate_covariance_matrix _ _ _ _ _) as [child_cov|e];
    [|reflexivity].
  cbn [bind]. destruct (Nat.ltb 1 (length weight)); [|reflexivity].
  destruct (cov_append _ _) as [cov1|e]; [|reflexivity]. cbn [bind].
  destruct (cov_set _ _ _) as [cov2|e]; reflexivity.
Qed.

Lemma search_split_child_rows y child_mu :
  length (split_child_responsibility y child_mu) = 2%nat.
Proof. reflexivity. Qed.

Lemma split_perturbation_rows y mu cov weight responsibility index kw p :
  length responsibility = length weight ->
  split_perturbation y mu cov weight responsibility index kw = inl p ->
  length (snd (fst p)) = S (length weight).
Proof.
  intros HR. unfold split_perturbation, shape. cbv beta iota zeta.
  destruct (Nat.ltb index (length weight)) eqn:Hindex; [|discriminate].
  apply Nat.ltb_lt in Hindex. cbn [negb].
  destruct (_svd _ _) as [[[U s] V]|e]; [|discriminate]. cbn [bind].
  destruct (_estimate_covariance_matrix _ _ _ _ _) as [child_cov|e];
    [|discriminate].
  cbn [bind]. destruct (Nat.ltb 1 (length weight)) eqn:HM.
  - destruct (cov_append _ _) as [cov1|e]; [|discriminate]. cbn [bind].
    destruct (cov_set _ _ _) as [cov2|e]; [|discriminate]. cbn [bind].
    intros Heq. injection Heq as <-. cbn [fst snd].
    unfold mat, vec in *.
    rewrite set_item_length by (rewrite length_app; simpl; lia).
    rewrite length_app. simpl. lia.
  - intros Heq. injection Heq as <-. cbn [fst snd].
    apply Nat.ltb_ge in HM. rewrite search_split_child_rows. lia.
Qed.

(** a split returns one component more *)
Lemma search_split_component_size y mu cov weight responsibility index kw c :
  length responsibility = length weight ->
  split_component y mu cov weight responsibility index kw = inl c ->
  search_candidate_size (S (length weight)) c.
Proof.
  intros HR. rewrite split_component_eq.
  destruct (split_perturbation _ _ _ _ _ _ _)
    as [[[[[mu' cov'] weight'] R'] parent]|e] eqn:Hp; [|discriminate].
  cbn [bind]. intros Hem. apply search_em_candidate_size in Hem.
  apply (split_perturbation_rows _ _ _ _ _ _ _ _ HR) in Hp. cbn [fst snd] in Hp.
  rewrite Hp in Hem. exact Hem.
Qed.

(** a deletion returns one component less *)
Lemma search_delete_component_size y mu cov weight responsibility index kw c :
  length responsibility = length weight ->
  delete_component y mu cov weight responsibility index kw = inl c ->
  search_candidate_size (pred (length weight)) c.
Proof.
  intros HR. unfold delete_component, delete_perturbation.
  cbv beta iota zeta.
  destruct (Nat.ltb index (length weight)) eqn:Hindex; [|discriminate].
  apply Nat.ltb_lt in Hindex. cbn [negb].
  intros Hem. apply search_em_candidate_size in Hem.
  unfold mat, vec in *.
  rewrite !length_map, np_delete_length in Hem by lia.
  rewrite HR in Hem. exact Hem.
Qed.

(** a merge returns one component less *)
Lemma search_merge_component_size y mu cov weight responsibility index kw c :
  (1 < length weight)%nat ->
  length mu = length weight -> cov_size cov = length weight ->
  length responsibility = length weight ->
  typed (covariance_type kw) cov ->
  merge_component y mu cov weight responsibility index kw = inl c ->
  search_candidate_size (pred (length weight)) c.
Proof.
  intros HK Hmu Hcov HR Htyped Hmerge.
  assert (Hindex : (index < length weight)%nat).
  { unfold merge_component in Hmerge.
    destruct (Nat.ltb index (length weight)) eqn:Hi; [|discriminate].
    apply Nat.ltb_lt. exact Hi. }
  destruct (search_merge_component_spec y mu cov weight responsibility index
              kw HK Hindex Hmu Hcov HR Htyped)
    as (_ & mu' & cov' & w' & R' & _ & _ & (HlenR & _) & _ & _ & Hem).
  rewrite Hem in Hmerge. apply search_em_candidate_size in Hmerge.
  unfold mat, vec in *.
  rewrite HlenR, HR in Hmerge. exact Hmerge.
Qed.

End SearchSizes.

Section SearchExample.
Import mixture_search.

Lemma Rpower_1_l x : Rpower 1 x = 1.
Proof. unfold Rpower. rewrite ln_1, Rmult_0_r. apply exp_0. Qed.

Lemma search_example_responsibility :
  @responsibility_matrix backend_1d [[0; 0]] [[0; 0]] (Diag [[1; 1]]) [1] kw_ex
  = inl ([[1]], [- ln (2 * PI)]).
Proof.
  unfold responsibility_matrix, _compute_precision_cholesky.
  cbn [covariance_type kw_ex].
  change (in_str "diag" "full") with false.
  change (in_str "diag" "diag") with true. cbv iota.
  rewrite existsb_nonpositive_false by (repeat constructor; lra).
  cbn [bind ret map]. rewrite !Rpower_1_l.
  unfold _estimate_log_gaussian_prob, _compute_log_det_cholesky, shape.
  cbn [length ncols covariance_type kw_ex].
  change (String.eqb "diag" "diag") with true. cbv iota.
  cbn [bind ret map map2 dofail kw_ex].
  unfold logsumexp, vadd, vmul, dot, vmul, Rsqr.
  cbn [map map2 np_sum fold_right seq length col nth].
  rewrite !ln_1.
  match goal with
  | |- context [ln (exp ?a + 0)] =>
      replace a with (- ln (2 * PI)) by (simpl; lra)
  end.
  rewrite Rplus_0_r, ln_exp. unfold Rminus. rewrite Rplus_opp_r, exp_0.
  reflexivity.
Qed.

(** One observation at the mean of a single component of unit variances. *)
Lemma ln_2pi_bounds : 0 < ln (2 * PI) <= 3 * ln 2.
Proof.
  pose proof PI_4. pose proof PI2_3_2. split.
  - rewrite <- ln_1. apply ln_increasing; lra.
  - replace (3 * ln 2) with (ln (2 ^ 3)) by (rewrite ln_pow by lra; simpl; lra).
    destruct (Req_dec (2 * PI) (2 ^ 3)) as [->|Hne]; [lra|].
    left. apply ln_increasing; lra.
Qed.

Lemma search_example_message_length :
  exists I0,
    @_message_length backend_1d [[0; 0]] [[0; 0]] (Diag [[1; 1]]) [1] [[1]]
      (- np_sum [- ln (2 * PI)]) kw_ex = inl I0.
Proof.
  pose proof (@message_length_checked backend_1d [[0; 0]] [[0; 0]]
                (Diag [[1; 1]]) [1] [[1]] (- np_sum [- ln (2 * PI)]) kw_ex)
    as Hml.
  revert Hml.
  unfold message_length_terms, shape.
  cbn -[Rpower exp ln PI INR log_kappa gammaln _message_length].
  unfold entry11.
  cbn -[Rpower exp ln PI INR log_kappa gammaln _message_length].
  unfold gammaln, log_kappa.
  replace (INR (fact (pred 1))) with 1 by (simpl; lra).
  replace (INR 1) with 1 by reflexivity. replace (INR 2) with 2 by (simpl; lra).
  replace (1 + 0) with 1 by lra. rewrite !ln_1.
  replace (0.5 * 2 * (2 + 3) * 1 + (1 - 1)) with 5 by lra.
  pose proof ln_2pi_le. pose proof ln_thousandth_lt. pose proof ln_5pi_pos.
  pose proof ln_lt_2. pose proof ln_2_lt_1.
  set (a := ln (2 * PI)) in *. set (b := ln (5 * PI)) in *.
  set (c := ln 0.001) in *. set (l := ln 2) in *.
  intros Hml.
  match type of Hml with
  | _ = (if Rleb ?x ?w && Rltb 0 ?e then _ else _) =>
      assert (Hw : Rleb x w = true);
        [|assert (Hpos : Rltb 0 e = true); [|rewrite Hw, Hpos in Hml]]
  end.
  - apply Rleb_true.
    replace ((1 - 1) / 2 * 0 - 0.5 * (0 + 0) - 0) with 0 by lra.
    unfold Rdiv. rewrite Rmult_0_l. lra.
  - apply Rltb_true.
    replace 0.5 with (1 / 2) by lra. replace (-0.5) with (- (1 / 2)) by lra.
    match goal with |- 0 < ?e =>
      replace e with ((- (3 / 2) * a + (1 / 2) * b - 2 * c) / l)
        by (field; lra)
    end.
    apply Rdiv_lt_0_compat; lra.
  - cbn [andb dofail kw_ex] in Hml. eexists. exact Hml.
Qed.

Lemma search_example_expectation :
  exists I0,
    @_expectation backend_1d [[0; 0]] [[0; 0]] (Diag [[1; 1]]) [1] kw_ex
    = inl ([[1]], [- ln (2 * PI)], I0).
Proof.
  unfold _expectation. rewrite search_example_responsibility. cbn [bind].
  destruct search_example_message_length as [I0 HI]. rewrite HI.
  exists I0. reflexivity.
Qed.

Lemma search_example_maximization :
  _maximization [[0; 0]] [[0; 0]] (Diag [[1; 1]]) [1] [[1]]
    (Scalar 1) kw_ex
  = inl ([[0; 0]], Diag [[1; 1]], [1]).
Proof.
  unfold _maximization, _estimate_covariance_matrix, shape.
  cbn [covariance_type covariance_regularization kw_ex].
  change (String.eqb "diag" "full") with false.
  change (String.eqb "diag" "diag") with true. cbv iota.
  unfold _estimate_covariance_matrix_diag, shape, weighted_sum, sub_row,
    sum_axis1, vsub, vadd, vscale, zeros, bmul.
  cbn [bind ret map map2 length ncols combine fold_right np_sum repeat].
  unfold denominator.
  replace (Rltb 1 (1 + 0)) with false
    by (symmetry; apply Rltb_false; lra).
  unfold vscale. cbn [map map2 fold_right].
  replace 0.5 with (1 / 2) by lra.
  unfold ret. repeat f_equal; simpl; field.
Qed.

Lemma search_em_loop_first_pass `{Backend} fuel y parent kw s s' :
  em_pass y parent kw s = inl s' -> em_stop kw s s' = true ->
  em_loop fuel y parent kw s = inl s'.
Proof.
  intros Hpass Hstop. destruct fuel; cbn [em_loop]; rewrite Hpass; cbn [bind];
    rewrite Hstop; reflexivity.
Qed.

Lemma search_example_em :
  exists ll I0,
    @_expectation_maximization backend_1d [[0; 0]] [[0; 0]] (Diag [[1; 1]]) [1]
      (Some [[1]]) (Scalar 1) kw_ex
    = inl ([[0; 0]], Diag [[1; 1]], [1], [[1]],
           {| warnflag := false; log_likelihood := ll |}, I0).
Proof.
  destruct search_example_expectation as [I0 Hexp].
  exists [- ln (2 * PI)], I0.
  unfold _expectation_maximization. rewrite Hexp. cbn [bind].
  match goal with
  | |- bind (em_loop ?f ?y ?p ?k ?s0) _ = _ =>
      rewrite (@search_em_loop_first_pass backend_1d f y p k s0
                 {| em_mu := [[0; 0]]; em_cov := Diag [[1; 1]];
                    em_weight := [1]; em_responsibility := [[1]];
                    em_ll := [- ln (2 * PI)];
                    em_lls := np_sum [- ln (2 * PI)];
                    em_dl := I0; em_iterations := 2 |})
  end.
  - reflexivity.
  - unfold em_pass. cbn [em_mu em_cov em_weight em_responsibility].
    rewrite search_example_maximization. cbn [bind]. rewrite Hexp. reflexivity.
  - unfold em_stop. cbn [em_lls em_iterations threshold kw_ex].
    apply orb_true_iff. left. apply Rleb_true.
    unfold Rminus. rewrite Rplus_opp_r.
    unfold Rdiv. rewrite Rmult_0_l, Rabs_R0. lra.
Qed.

End SearchExample.

Section EMCapSearch.
Context `{Backend}.
Import mixture_search.

Lemma search_em_loop_facts fuel y parent kw : forall s0 s,
  (max_em_iterations kw <= em_iterations s0 + 1 + fuel)%nat ->
  em_loop fuel y parent kw s0 = inl s ->
  (em_iterations s0 < em_iterations s)%nat
  /\ (em_iterations s <= Nat.max (S (em_iterations s0)) (max_em_iterations kw))%nat
  /\ exists prev, em_pass y parent kw prev = inl s /\ em_stop kw prev s = true.
Proof.
  induction fuel as [|fuel IH]; intros s0 s Hfuel; cbn [em_loop];
    destruct (em_pass y parent kw s0) as [s1|e] eqn:Hpass; try discriminate;
    cbn [bind]; pose proof (search_em_pass_iterations _ _ _ _ _ Hpass) as Hit;
    destruct (em_stop kw s0 s1) eqn:Hstop.
  - intros Heq. injection Heq as <-. rewrite Hit. split; [lia|]. split; [lia|].
    exists s0. split; assumption.
  - exfalso. unfold em_stop in Hstop. apply orb_false_elim in Hstop.
    destruct Hstop as [_ Hcap]. apply Nat.leb_gt in Hcap. lia.
  - intros Heq. injection Heq as <-. rewrite Hit. split; [lia|]. split; [lia|].
    exists s0. split; assumption.
  - intros Hloop. apply IH in Hloop; [|lia].
    destruct Hloop as (Hlt & Hle & Hprev). rewrite Hit in *.
    split; [lia|]. split; [|exact Hprev].
    unfold em_stop in Hstop. apply orb_false_elim in Hstop.
    destruct Hstop as [_ Hcap]. apply Nat.leb_gt in Hcap. lia.
Qed.

Lemma search_expectation_positive y mu cov weight kw R0 ll I0 :
  _expectation y mu cov weight kw = inl (R0, ll, I0) -> 0 < I0.
Proof.
  unfold _expectation.
  destruct (responsibility_matrix y mu cov weight kw) as [[R1 ll1]|e];
    [|discriminate].
  cbn [bind].
  destruct (_message_length y mu cov weight R1 _ kw) as [I1|e] eqn:Hml;
    [|discriminate].
  cbn [bind]. intros Heq. injection Heq as _ _ <-.
  apply (message_length_positive _ _ _ _ _ _ _ _ Hml).
Qed.

Lemma search_em_loop_positive fuel y parent kw : forall s0 s,
  em_loop fuel y parent kw s0 = inl s -> 0 < em_dl s.
Proof.
  assert (Hpass : forall s0 s1, em_pass y parent kw s0 = inl s1 -> 0 < em_dl s1).
  { intros s0 s1. unfold em_pass.
    destruct (_maximization _ _ _ _ _ _ _) as [[[mu1 cov1] w1]|e];
      [|discriminate].
    cbn [bind].
    destruct (_expectation y mu1 cov1 w1 kw) as [[[R1 ll1] dl1]|e] eqn:Hexp;
      [|discriminate].
    cbn [bind]. intros Heq. injection Heq as <-. cbn [em_dl].
    apply (search_expectation_positive _ _ _ _ _ _ _ _ Hexp). }
  induction fuel as [|fuel IH]; intros s0 s; cbn [em_loop];
    destruct (em_pass y parent kw s0) as [s1|e] eqn:Hs1; try discriminate;
    cbn [bind]; destruct (em_stop kw s0 s1).
  - intros Heq. injection Heq as <-. apply (Hpass _ _ Hs1).
  - intros Heq. injection Heq as <-. apply (Hpass _ _ Hs1).
  - intros Heq. injection Heq as <-. apply (Hpass _ _ Hs1).
  - apply IH.
Qed.

(** the message length of what expectation-maximization returns is
    positive *)
Lemma search_em_positive y mu cov weight responsibility parent kw c :
  _expectation_maximization y mu cov weight responsibility parent kw = inl c ->
  0 < c_ml c.
Proof.
  unfold _expectation_maximization.
  destruct (_expectation y mu cov weight kw) as [[[R0 ll] dl]|e]; [|discriminate].
  cbn [bind].
  match goal with
  | |- bind (em_loop ?f ?y ?p ?k ?s0) _ = _ -> _ =>
      destruct (em_loop f y p k s0) as [s|e] eqn:Hloop; [|discriminate]
  end.
  cbn [bind]. intros Heq. injection Heq as <-. cbn [c_ml].
  apply (search_em_loop_positive _ _ _ _ _ _ Hloop).
Qed.

(** X14.  When [_expectation_maximization] of mixture_search returns, the
    state it returns is the one the [while True] loop left with, after at
    least one pass and with [iterations] at most
    [max(2, max_em_iterations)]; the last pass either changed the total
    log-likelihood by at most the threshold, relatively, or reached the
    iteration cap, [warnflag] says whether the cap was reached, and the
    message length returned is strictly positive. *)
Theorem search_em_terminates_within_cap :
  forall (y mu : mat) (cov : covariances) (weight : vec)
         (responsibility : option mat) (parent_responsibility : broadcast)
         (kw : kwds) (c : Candidate),
    _expectation_maximization y mu cov weight responsibility
      parent_responsibility kw = inl c ->
    exists s prev,
      c = (em_mu s, em_cov s, em_weight s, em_responsibility s,
           {| warnflag := Nat.leb (max_em_iterations kw) (em_iterations s);
              log_likelihood := em_ll s |}, em_dl s)
      /\ (2 <= em_iterations s <= Nat.max 2 (max_em_iterations kw))%nat
      /\ em_pass y parent_responsibility kw prev = inl s
      /\ (Rabs ((em_lls s - em_lls prev) / em_lls prev) <= threshold kw
          \/ (max_em_iterations kw <= em_iterations s)%nat)
      /\ 0 < c_ml c.
Proof.
  intros y mu cov weight responsibility parent kw c.
  unfold _expectation_maximization.
  destruct (_expectation y mu cov weight kw) as [[[R0 ll] dl]|e]; [|discriminate].
  cbn [bind].
  match goal with
  | |- bind (em_loop ?f ?y ?p ?k ?s0) _ = _ -> _ =>
      destruct (em_loop f y p k s0) as [s|e] eqn:Hloop; [|discriminate];
      apply search_em_loop_facts in Hloop; [|cbn; lia]
  end.
  cbn [bind em_iterations] in *. intros Heq. injection Heq as <-.
  destruct Hloop as (Hlt & Hle & prev & Hpass & Hstop).
  exists s, prev. split; [reflexivity|]. split; [lia|].
  split; [exact Hpass|]. split.
  - unfold em_stop in Hstop. apply orb_true_iff in Hstop.
    destruct Hstop as [Hconv|Hcap].
    + left. apply Rleb_true. exact Hconv.
    + right. apply Nat.leb_le. exact Hcap.
  - cbn [c_ml]. unfold em_pass in Hpass.
    destruct (_maximization _ _ _ _ _ _ _) as [[[mu1 cov1] w1]|e];
      [|discriminate].
    cbn [bind] in Hpass.
    destruct (_expectation y mu1 cov1 w1 kw) as [[[R1 ll1] dl1]|e] eqn:Hexp;
      [|discriminate].
    cbn [bind] in Hpass. injection Hpass as <-. cbn [em_dl].
    apply (search_expectation_positive _ _ _ _ _ _ _ _ Hexp).
Qed.

End EMCapSearch.

Lemma search_em_terminates_within_cap_witness :
  exists c,
    @mixture_search._expectation_maximization backend_1d [[0; 0]] [[0; 0]]
      (mixture_search.Diag [[1; 1]]) [1] (Some [[1]]) (Scalar 1) kw_ex = inl c
    /\ 0 < mixture_search.c_ml c.
Proof.
  destruct search_example_em as (ll & I0 & Hem).
  eexists. split; [exact Hem|].
  destruct (@search_em_terminates_within_cap backend_1d _ _ _ _ _ _ _ _ Hem)
    as (s & prev & _ & _ & _ & _ & Hpos).
  exact Hpos.
Defined.

Section EMWeightsSearch.
Context `{Backend}.
Import mixture_search.

Lemma search_expectation_valid y mu cov weight kw R0 ll I0 :
  (0 < length mu)%nat -> cov_size cov = length mu ->
  length weight = length mu ->
  _expectation y mu cov weight kw = inl (R0, ll, I0) ->
  length R0 = length mu /\ responsibility_matrix_of (length y) R0.
Proof.
  intros HK Hcov Hw. unfold _expectation.
  destruct (responsibility_matrix y mu cov weight kw) as [[R1 ll1]|e] eqn:HR;
    [|discriminate].
  cbn [bind].
  destruct (_message_length _ _ _ _ _ _ _) as [I1|e]; [|discriminate].
  cbn [bind]. intros Heq. injection Heq as <- _ _.
  apply (search_responsibility_matrix_of y mu cov weight kw R1 ll1 HK Hcov Hw HR).
Qed.

Lemma search_em_pass_normalized y parent kw s s' K :
  (0 < K)%nat -> length (em_weight s) = K ->
  search_em_normalized (length y) K s ->
  em_pass y parent kw s = inl s' ->
  search_em_normalized (length y) K s' /\ mixing_weights (em_weight s').
Proof.
  intros HK Hw0 [(Hmu & Hcov & Hw & HR) Hvalid] Hpass.
  pose proof (search_em_pass_shape y parent kw s s' K HR Hpass) as Hshape.
  unfold em_pass in Hpass.
  destruct (_maximization _ _ _ _ _ _ _) as [[[mu1 cov1] w1]|e] eqn:Hmax;
    [|discriminate].
  pose proof (search_maximization_weight _ _ _ _ _ _ _ _ Hmax) as Hweights.
  pose proof (search_maximization_shape _ _ _ _ _ _ _ _ Hmax) as (Hmu1 & Hcov1 & Hw1).
  cbn [snd bind] in *.
  destruct (_expectation y mu1 cov1 w1 kw) as [[[R1 ll1] dl1]|e] eqn:Hexp;
    [|discriminate].
  cbn [bind] in Hpass. injection Hpass as <-.
  apply search_expectation_valid in Hexp; [|lia|lia|lia].
  destruct Hexp as [_ Hvalid1]. cbn [em_weight em_responsibility].
  split; [split; assumption|].
  rewrite Hweights, Hw0. destruct Hvalid as (Hrect & Hunit & Hcols). split.
  - apply smoothed_weights_positive; assumption.
  - apply smoothed_weights_sum; assumption.
Qed.

Lemma search_em_loop_normalized fuel y parent kw K : forall s s',
  (0 < K)%nat -> search_em_normalized (length y) K s ->
  em_loop fuel y parent kw s = inl s' ->
  search_em_normalized (length y) K s' /\ mixing_weights (em_weight s').
Proof.
  induction fuel as [|fuel IH]; intros s s' HK Hs; cbn [em_loop];
    destruct (em_pass y parent kw s) as [s1|e] eqn:Hpass; try discriminate;
    cbn [bind];
    pose proof (search_em_pass_normalized y parent kw s s1 K HK
                  (proj1 (proj2 (proj2 (proj1 Hs)))) Hs Hpass) as Hnext.
  - destruct (em_stop kw s s1); intros Heq; injection Heq as <-; exact Hnext.
  - destruct (em_stop kw s s1).
    + intros Heq. injection Heq as <-. exact Hnext.
    + apply IH; [exact HK | apply Hnext].
Qed.

(** X15.  On a mixture of [K >= 1] components (and, when a responsibility
    matrix is passed, one of the data model with [K] rows), what
    [_expectation_maximization] of mixture_search returns has [K] components,
    weights that are strictly positive and sum to 1, a responsibility matrix
    with entries in [[0, 1]] and columns summing to 1, and a strictly
    positive message length. *)
Theorem search_em_returns_mixing_weights :
  forall (y mu : mat) (cov : covariances) (weight : vec)
         (responsibility : option mat) (parent_responsibility : broadcast)
         (kw : kwds) (c : Candidate),
    let K := length weight in
    (0 < K)%nat -> length mu = K -> cov_size cov = K ->
    match responsibility with
    | Some r => length r = K /\ responsibility_matrix_of (length y) r
    | None => True
    end ->
    _expectation_maximization y mu cov weight responsibility
      parent_responsibility kw = inl c ->
    search_candidate_size K c
    /\ mixing_weights (c_weight c)
    /\ responsibility_matrix_of (length y) (c_responsibility c)
    /\ 0 < c_ml c.
Proof.
  intros y mu cov weight responsibility parent kw c K HK Hmu Hcov Hr Hem.
  pose proof (search_em_positive _ _ _ _ _ _ _ _ Hem) as Hpos.
  unfold _expectation_maximization in Hem.
  destruct (_expectation y mu cov weight kw) as [[[R0 ll] dl]|e] eqn:Hexp;
    [|discriminate].
  cbn [bind] in Hem.
  apply search_expectation_valid in Hexp; [|fold K; lia..].
  destruct Hexp as [HlenR0 HvalidR0].
  match type of Hem with
  | bind (em_loop ?f ?y ?p ?k ?s0) _ = _ =>
      destruct (em_loop f y p k s0) as [s|e] eqn:Hloop; [|discriminate];
      apply (search_em_loop_normalized f y p k K s0 s HK) in Hloop
  end.
  - cbn [bind] in Hem. injection Hem as <-.
    destruct Hloop as [[Hshape Hvalid] Hweights].
    cbn [c_weight c_responsibility c_ml] in *.
    split; [exact Hshape|]. split; [exact Hweights|].
    split; [exact Hvalid | exact Hpos].
  - unfold search_em_normalized, search_em_shape. cbn.
    destruct responsibility as [r|].
    + destruct Hr as [Hlen Hvalid]. repeat split; try assumption; apply Hvalid.
    + repeat split; try assumption; try (fold K; lia); apply HvalidR0.
Qed.

End EMWeightsSearch.

Lemma search_em_returns_mixing_weights_witness :
  exists c,
    @mixture_search._expectation_maximization backend_1d [[0; 0]] [[0; 0]]
      (mixture_search.Diag [[1; 1]]) [1] (Some [[1]]) (Scalar 1) kw_ex = inl c
    /\ mixing_weights (mixture_search.c_weight c).
Proof.
  destruct search_example_em as (ll & I0 & Hem).
  eexists. split; [exact Hem|].
  assert (Hvalid : responsibility_matrix_of (length ([[0; 0]] : mat)) [[1]]).
  { split; [repeat constructor|]. split; [repeat constructor; lra|].
    intros i Hi. simpl in Hi. assert (i = 0%nat) by lia. subst. simpl. lra. }
  destruct (@search_em_returns_mixing_weights backend_1d [[0; 0]] [[0; 0]]
              (mixture_search.Diag [[1; 1]]) [1] (Some [[1]]) (Scalar 1) kw_ex
              _ (Nat.lt_0_1) eq_refl eq_refl (conj eq_refl Hvalid) Hem)
    as (_ & Hw & _).
  exact Hw.
Defined.

(** ** The perturbations of mixture_search *)

Section SearchSizesClaim.
Context `{Backend}.
Import mixture_search.

(** X16.  In mixture_search a perturbation that returns was given an index
    inside the mixture and returns [K + 1] components for a split and
    [K - 1] for a deletion or a merge, in all four arrays; a merge that
    returns was given more than one component. *)
Theorem search_perturbation_sizes :
  forall (y mu : mat) (cov : covariances) (weight : vec) (responsibility : mat)
         (index : nat) (kw : kwds),
    length responsibility = length weight ->
    (forall c, split_component y mu cov weight responsibility index kw = inl c ->
               (index < length weight)%nat
               /\ search_candidate_size (length weight + 1) c)
    /\ (forall c, delete_component y mu cov weight responsibility index kw
                  = inl c ->
                  (index < length weight)%nat
                  /\ search_candidate_size (length weight - 1) c)
    /\ (forall c, merge_component y mu cov weight responsibility index kw
                  = inl c ->
                  length mu = length weight -> cov_size cov = length weight ->
                  typed (covariance_type kw) cov ->
                  (index < length weight)%nat /\ (1 < length weight)%nat
                  /\ search_candidate_size (length weight - 1) c).
Proof.
  intros y mu cov weight R0 index kw HR. split; [|split].
  - intros c Hc. split.
    + unfold split_component, shape in Hc. cbv beta iota zeta in Hc.
      destruct (Nat.ltb index (length weight)) eqn:Hi; [|discriminate].
      apply Nat.ltb_lt. exact Hi.
    + rewrite Nat.add_1_r. apply (search_split_component_size _ _ _ _ _ _ _ _ HR Hc).
  - intros c Hc. split.
    + unfold delete_component in Hc.
      destruct (Nat.ltb index (length weight)) eqn:Hi; [|discriminate].
      apply Nat.ltb_lt. exact Hi.
    + rewrite Nat.sub_1_r.
      apply (search_delete_component_size _ _ _ _ _ _ _ _ HR Hc).
  - intros c Hc Hmu Hcov Htyped.
    assert (Hindex : (index < length weight)%nat).
    { unfold merge_component in Hc.
      destruct (Nat.ltb index (length weight)) eqn:Hi; [|discriminate].
      apply Nat.ltb_lt. exact Hi. }
    assert (HK : (1 < length weight)%nat).
    { destruct (Nat.ltb_spec 1 (length weight)) as [HK|HK]; [exact HK|].
      exfalso. unfold merge_component, merge_perturbation in Hc.
      apply Nat.ltb_lt in Hindex. rewrite Hindex in Hc. cbn [negb] in Hc.
      cbv zeta in Hc.
      destruct (merged_component _ _ _ _ _ _) as [[[[wk rk] mk] ck]|e];
        [|discriminate].
      cbn [bind] in Hc.
      apply Nat.ltb_lt in Hindex.
      assert (Hone : length weight = 1%nat) by lia.
      assert (Hzero : index = 0%nat) by lia. subst index.
      destruct weight as [|w [|w' weight]]; cbn in Hone; try lia.
      cbn in Hc. discriminate Hc. }
    split; [exact Hindex|]. split; [exact HK|].
    rewrite Nat.sub_1_r.
    apply (search_merge_component_size _ _ _ _ _ _ _ _ HK Hmu Hcov HR Htyped Hc).
Qed.

End SearchSizesClaim.

Lemma search_example_delete :
  exists ll I0,
    @mixture_search.delete_component backend_1d [[0; 0]] [[5; 5]; [0; 0]]
      (mixture_search.Diag [[1; 1]; [1; 1]]) [1 / 2; 1 / 2] [[1 / 2]; [1 / 2]]
      0 kw_ex
    = inl ([[0; 0]], mixture_search.Diag [[1; 1]], [1], [[1]],
           {| warnflag := false; log_likelihood := ll |}, I0).
Proof.
  destruct search_example_em as (ll & I0 & Hem). exists ll, I0.
  unfold mixture_search.delete_component, mixture_search.delete_perturbation.
  cbn [length Nat.ltb Nat.leb negb np_delete firstn skipn app map map2 nth
       mixture_search.cov_delete].
  replace (1 / 2 / (1 - 1 / 2)) with 1 by field.
  rewrite np_clip_id by lra. exact Hem.
Qed.

Lemma search_perturbation_sizes_witness :
  exists c,
    @mixture_search.delete_component backend_1d [[0; 0]] [[5; 5]; [0; 0]]
      (mixture_search.Diag [[1; 1]; [1; 1]]) [1 / 2; 1 / 2] [[1 / 2]; [1 / 2]]
      0 kw_ex = inl c
    /\ search_candidate_size 1 c.
Proof.
  destruct search_example_delete as (ll & I0 & Hdel).
  eexists. split; [exact Hdel|].
  destruct (@search_perturbation_sizes backend_1d [[0; 0]] [[5; 5]; [0; 0]]
              (mixture_search.Diag [[1; 1]; [1; 1]]) [1 / 2; 1 / 2]
              [[1 / 2]; [1 / 2]] 0 kw_ex eq_refl) as (_ & Hdelete & _).
  apply (Hdelete _ Hdel).
Defined.

Section SplitMass.
Context `{Backend}.
Import mixture_search.

Lemma col_set_item i (m : mat) k (v : vec) :
  col i (set_item m k v) = set_item (col i m) k (nth i v 0).
Proof.
  unfold col, set_item. rewrite map_app. cbn [map].
  rewrite firstn_map, skipn_map. reflexivity.
Qed.

Lemma col_app i (a b : mat) : col i (a ++ b) = col i a ++ col i b.
Proof. unfold col. apply map_app. Qed.

(** the seed of a split: both rows over the observations, each column a
    0 and a 1 *)
Lemma search_split_seed_columns y child_mu :
  let r := split_child_responsibility y child_mu in
  length (nth 0 r []) = length y /\ length (nth 1 r []) = length y
  /\ (forall i, (i < length y)%nat ->
        nth i (nth 0 r []) 0 + nth i (nth 1 r []) 0 = 1)
  /\ np_sum (sum_axis1 r) = INR (length y).
Proof.
  destruct (search_split_seed_facts y child_mu)
    as (Hlen & (Hrect & Hunit & Hcols) & _ & _).
  cbv zeta.
  set (r := split_child_responsibility y child_mu) in *.
  assert (Hr : r = [nth 0 r []; nth 1 r []]).
  { destruct r as [|r0 [|r1 [|r2 r]]]; try discriminate. reflexivity. }
  unfold rectangular in Hrect. rewrite Hr in Hrect.
  pose proof (Forall_inv Hrect) as H0.
  pose proof (Forall_inv (Forall_inv_tail Hrect)) as H1. cbv beta in H0, H1.
  split; [exact H0|]. split; [exact H1|]. split.
  - intros i Hi. specialize (Hcols i Hi). rewrite Hr in Hcols.
    cbn [col map np_sum fold_right] in Hcols. lra.
  - apply effective_membership_total.
    + unfold rectangular. rewrite Hr. exact Hrect.
    + exact Hcols.
Qed.

(** X17.  The mixture that [split_component] of mixture_search hands to
    expectation-maximization has one component more and conserves mass: when
    the mixture had more than one component, the weights sum to what they
    summed to before and so does every column of the responsibility matrix;
    when it had one, the two children have weights summing to 1 and a
    responsibility matrix of the data model, and the responsibility of the
    parent is passed along. *)
Theorem search_split_conserves_mass :
  forall (y mu : mat) (cov : covariances) (weight : vec) (responsibility : mat)
         (index : nat) (kw : kwds)
         (mu' : mat) (cov' : covariances) (weight' : vec)
         (responsibility' : mat) (parent : broadcast),
    (0 < length y)%nat ->
    length responsibility = length weight ->
    rectangular (length y) responsibility ->
    split_perturbation y mu cov weight responsibility index kw
    = inl (mu', cov', weight', responsibility', parent) ->
    length weight' = S (length weight)
    /\ length responsibility' = S (length weight)
    /\ if Nat.ltb 1 (length weight)
       then np_sum weight' = np_sum weight
            /\ (forall i, (i < length y)%nat ->
                  np_sum (col i responsibility')
                  = np_sum (col i responsibility))
            /\ parent = Scalar 1
       else np_sum weight' = 1
            /\ responsibility_matrix_of (length y) responsibility'
            /\ parent = Array (nth index responsibility []).
Proof.
  intros y mu cov weight R0 index kw mu' cov' weight' R' parent HN HR Hrect.
  unfold split_perturbation, shape. cbv beta iota zeta.
  destruct (Nat.ltb index (length weight)) eqn:Hindex; [|discriminate].
  apply Nat.ltb_lt in Hindex. cbn [negb].
  destruct (_svd _ _) as [[[U s] V]|e]; [|discriminate]. cbn [bind].
  set (child_mu := [vsub (nth index mu []) (vscale (sqrt (nth 0 s 0)) (nth 0 V []));
                    vsub (nth index mu [])
                         (vscale (sqrt (nth 0 s 0)) (map Ropp (nth 0 V [])))]).
  destruct (_estimate_covariance_matrix _ _ _ _ _) as [child_cov|e];
    [|discriminate].
  cbn [bind].
  destruct (search_split_seed_columns y child_mu) as (Hl0 & Hl1 & Hsum & Htotal).
  pose proof (search_split_seed_facts y child_mu) as (_ & Hvalid & _).
  assert (Hseed : split_child_responsibility y child_mu
                  = [nth 0 (split_child_responsibility y child_mu) [];
                     nth 1 (split_child_responsibility y child_mu) []])
    by reflexivity.
  remember (split_child_responsibility y child_mu) as seed eqn:Hdef.
  clear Hdef.
  assert (HNpos : INR (length y) <> 0).
  { apply not_0_INR. lia. }
  assert (Hcw : nth 0 (map (fun e => e / np_sum (sum_axis1 seed)) (sum_axis1 seed)) 0
                + nth 1 (map (fun e => e / np_sum (sum_axis1 seed)) (sum_axis1 seed)) 0
                = 1).
  { assert (He : sum_axis1 seed
                  = [np_sum (nth 0 seed []); np_sum (nth 1 seed [])]).
    { rewrite Hseed at 1. reflexivity. }
    rewrite Htotal. rewrite He in Htotal |- *.
    cbn [map nth np_sum fold_right] in Htotal |- *.
    set (e0 := fold_right Rplus 0 (nth 0 seed [])) in *.
    set (e1 := fold_right Rplus 0 (nth 1 seed [])) in *.
    field_simplify_eq; [lra | exact HNpos]. }
  destruct (Nat.ltb 1 (length weight)) eqn:HM.
  - destruct (cov_append _ _) as [cov1|e]; [|discriminate]. cbn [bind].
    destruct (cov_set _ _ _) as [cov2|e]; [|discriminate]. cbn [bind].
    intros Heq. injection Heq as <- <- <- <- <-.
    unfold mat, vec in *.
    split; [rewrite set_item_length, length_app by (rewrite length_app; simpl; lia);
            simpl; lia|].
    split; [rewrite set_item_length, length_app by (rewrite length_app; simpl; lia);
            simpl; lia|].
    split; [|split; [|reflexivity]].
    + rewrite np_sum_set_item by (rewrite length_app; simpl; lia).
      rewrite np_sum_app, app_nth1 by lia.
      cbn [np_sum fold_right].
      set (pw := nth index weight 0) in *.
      match type of Hcw with ?a + ?b = 1 =>
        set (cw0 := a) in *; set (cw1 := b) in * end.
      replace (pw * cw0) with (pw * (1 - cw1)) by (rewrite <- Hcw; ring).
      lra.
    + intros i Hi.
      rewrite col_set_item, col_app.
      assert (Hcl : length (col i R0) = length weight)
        by (rewrite col_length; exact HR).
      rewrite np_sum_set_item by (rewrite length_app, Hcl; simpl; lia).
      rewrite np_sum_app, app_nth1 by (rewrite Hcl; lia).
      cbn [col map np_sum fold_right].
      assert (Hpr : length (nth index R0 []) = length y).
      { apply (Forall_nth_lt _ R0 index [] Hrect). lia. }
      unfold vmul.
      rewrite !(map2_nth Rmult _ _ i 0 0 0) by lia.
      unfold col at 2.
      rewrite (@map_nth_lt (list R) R (fun row => nth i row 0) R0 index [] 0)
        by lia.
      specialize (Hsum i Hi).
      set (p := nth i (nth index R0 []) 0) in *.
      set (s0 := nth i (nth 0 seed []) 0) in *.
      set (s1 := nth i (nth 1 seed []) 0) in *.
      replace s0 with (1 - s1) by lra. lra.
  - intros Heq. injection Heq as <- <- <- <- <-.
    apply Nat.ltb_ge in HM. assert (HK : length weight = 1%nat) by lia.
    split; [unfold sum_axis1; rewrite !length_map, Hseed; simpl; lia|].
    split; [rewrite Hseed; simpl; lia|].
    split; [|split; [|reflexivity]].
    + rewrite np_sum_div, Htotal. field. exact HNpos.
    + exact Hvalid.
Qed.

End SplitMass.

Lemma search_split_conserves_mass_witness :
  exists mu' cov' weight' responsibility' parent,
    @mixture_search.split_perturbation backend_1d [[0; 0]; [2; 2]] [[1; 1]]
      (mixture_search.Diag [[1; 1]]) [1] [[1; 1]] 0 kw_ex
    = inl (mu', cov', weight', responsibility', parent)
    /\ np_sum weight' = 1.
Proof.
  assert (Hp : exists mu' cov' weight' responsibility' parent,
             @mixture_search.split_perturbation backend_1d [[0; 0]; [2; 2]]
               [[1; 1]] (mixture_search.Diag [[1; 1]]) [1] [[1; 1]] 0 kw_ex
             = inl (mu', cov', weight', responsibility', parent)).
  { do 5 eexists. reflexivity. }
  destruct Hp as (mu' & cov' & weight' & R' & parent & Hp).
  exists mu', cov', weight', R', parent. split; [exact Hp|].
  set (y := [[0; 0]; [2; 2]]) in *.
  assert (HN : (0 < length y)%nat) by (simpl; lia).
  assert (Hrect : rectangular (length y) [[1; 1]]) by (repeat constructor).
  destruct (@search_split_conserves_mass backend_1d y [[1; 1]]
              (mixture_search.Diag [[1; 1]]) [1] [[1; 1]] 0%nat kw_ex
              mu' cov' weight' R' parent HN eq_refl Hrect Hp)
    as (_ & _ & Hmass).
  cbn [length Nat.ltb Nat.leb] in Hmass. apply Hmass.
Defined.

(** ** [fit] of mixture_search *)

Section FitSearch.
Context `{Backend}.
Import mixture_search.

Lemma keep_best_first k p :
  keep_best split k p [] = [(split, Some (k, p))].
Proof. reflexivity. Qed.

Lemma keep_best_next k p k0 p0 :
  keep_best split k p [(split, Some (k0, p0))]
  = if Rltb (c_ml p) (c_ml p0) then [(split, Some (k, p))]
    else [(split, Some (k0, p0))].
Proof.
  unfold keep_best, dd_get. cbn [dd_find operation_eqb last_item ext_ltb].
  destruct (Rltb (c_ml p) (c_ml p0)); reflexivity.
Qed.

(** the dictionary after the splits of the components [a .. a + n - 1], when
    it held the split of an earlier component before *)
Lemma exhaust_split_best f : forall n a k0 c0 d,
  exhaust split f (seq a n) [(split, Some (k0, c0))] = inl d ->
  (k0 < a)%nat ->
  exists k c,
    d = [(split, Some (k, c))]
    /\ (k < a + n)%nat
    /\ ((k = k0 /\ c = c0) \/ ((a <= k)%nat /\ f k = inl c))
    /\ c_ml c <= c_ml c0
    /\ (k <> k0 -> c_ml c < c_ml c0)
    /\ (forall j, (a <= j < a + n)%nat ->
          exists c', f j = inl c' /\ c_ml c <= c_ml c'
                     /\ ((j < k)%nat -> c_ml c < c_ml c')).
Proof.
  induction n as [|n IH]; intros a k0 c0 d; cbn [seq exhaust].
  - intros Heq Hk0. injection Heq as <-. exists k0, c0.
    split; [reflexivity|]. split; [lia|]. split; [left; auto|].
    split; [lra|]. split; [intros Hne; contradiction|]. intros j Hj. lia.
  - destruct (f a) as [p|e] eqn:Hfa; [|discriminate]. cbn [bind].
    rewrite keep_best_next. intros Hrest Hk0.
    destruct (Rltb (c_ml p) (c_ml c0)) eqn:Hlt.
    + apply Rltb_true in Hlt.
      apply IH in Hrest; [|lia].
      destruct Hrest as (k & c & Hd & Hk & Hwho & Hle & Hstrict & Hall).
      exists k, c. split; [exact Hd|]. split; [lia|].
      split.
      { right. destruct Hwho as [[-> ->]|[Hge Hfk]]; [split; [lia|exact Hfa]|].
        split; [lia | exact Hfk]. }
      split; [lra|]. split; [intros _; lra|].
      intros j Hj. destruct (Nat.eq_dec j a) as [->|Hne].
      * exists p. split; [exact Hfa|]. split; [exact Hle|].
        intros Hjk. apply Hstrict. lia.
      * apply Hall. lia.
    + apply Rltb_false in Hlt.
      apply IH in Hrest; [|lia].
      destruct Hrest as (k & c & Hd & Hk & Hwho & Hle & Hstrict & Hall).
      exists k, c. split; [exact Hd|]. split; [lia|].
      split.
      { destruct Hwho as [[-> ->]|[Hge Hfk]]; [left; auto|].
        right. split; [lia | exact Hfk]. }
      split; [exact Hle|]. split; [exact Hstrict|].
      intros j Hj. destruct (Nat.eq_dec j a) as [->|Hne].
      * exists p. split; [exact Hfa|]. split; [lra|].
        intros Hjk. destruct Hwho as [[-> ->]|[Hge Hfk]]; [lia|].
        assert (k <> k0) by lia. specialize (Hstrict H0). lra.
      * apply Hall. lia.
Qed.

Lemma search_split_positive y mu cov weight responsibility index kw c :
  split_component y mu cov weight responsibility index kw = inl c ->
  0 < c_ml c.
Proof.
  rewrite split_component_eq.
  destruct (split_perturbation _ _ _ _ _ _ _)
    as [[[[[mu' cov'] weight'] R'] parent]|e]; [|discriminate].
  cbn [bind]. apply search_em_positive.
Qed.

(** A round takes the split of least message length, the first of those. *)
Lemma best_split_least y kw s r :
  best_split y kw s = inl r ->
  exists k c,
    r = (split, k, c)
    /\ (k < length (f_weight s))%nat
    /\ split_component y (f_mu s) (f_cov s) (f_weight s) (f_R s) k kw = inl c
    /\ forall j, (j < length (f_weight s))%nat ->
         exists c',
           split_component y (f_mu s) (f_cov s) (f_weight s) (f_R s) j kw
           = inl c'
           /\ c_ml c <= c_ml c' /\ ((j < k)%nat -> c_ml c < c_ml c').
Proof.
  unfold best_split. cbv zeta.
  set (f := fun k => split_component y (f_mu s) (f_cov s) (f_weight s) (f_R s)
                       k kw).
  destruct (length (f_weight s)) as [|n].
  - cbn. discriminate.
  - cbn [seq exhaust].
    destruct (f 0%nat) as [c0|e] eqn:Hf0; [|discriminate]. cbn [bind].
    rewrite keep_best_first.
    destruct (exhaust split f (seq 1 n) [(split, Some (0%nat, c0))])
      as [d|e] eqn:Hrest; [|discriminate].
    cbn [bind].
    apply exhaust_split_best in Hrest; [|lia].
    destruct Hrest as (k & c & -> & Hk & Hwho & Hle & Hstrict & Hall).
    cbn. intros Heq. injection Heq as <-.
    exists k, c. split; [reflexivity|]. split; [lia|]. split.
    + destruct Hwho as [[-> ->]|[_ Hfk]]; [exact Hf0 | exact Hfk].
    + intros j Hj. destruct (Nat.eq_dec j 0) as [->|Hne].
      * exists c0. split; [exact Hf0|]. split; [exact Hle|].
        intros Hjk. apply Hstrict. lia.
      * apply Hall. lia.
Qed.

(** the first split that raises ends the evaluation *)
Lemma exhaust_split_raises f e : forall n a d,
  exhaust split f (seq a n) d = inr e ->
  exists j, (a <= j < a + n)%nat /\ f j = inr e
            /\ forall i, (a <= i < j)%nat -> exists c, f i = inl c.
Proof.
  induction n as [|n IH]; intros a d; cbn [seq exhaust]; [discriminate|].
  destruct (f a) as [p|e'] eqn:Hfa; cbn [bind].
  - intros Hrest. apply IH in Hrest. destruct Hrest as (j & Hj & Hfj & Hbefore).
    exists j. split; [lia|]. split; [exact Hfj|].
    intros i Hi. destruct (Nat.eq_dec i a) as [->|Hne].
    + exists p. exact Hfa.
    + apply Hbefore. lia.
  - intros Heq. injection Heq as <-. exists a. split; [lia|].
    split; [exact Hfa|]. intros i Hi. lia.
Qed.

Lemma best_split_raises y kw s e :
  best_split y kw s = inr e ->
  (length (f_weight s) = 0%nat /\ e = ValueError)
  \/ exists j, (j < length (f_weight s))%nat
       /\ split_component y (f_mu s) (f_cov s) (f_weight s) (f_R s) j kw = inr e
       /\ forall i, (i < j)%nat ->
            exists c, split_component y (f_mu s) (f_cov s) (f_weight s) (f_R s)
                        i kw = inl c.
Proof.
  unfold best_split. cbv zeta.
  set (f := fun k => split_component y (f_mu s) (f_cov s) (f_weight s) (f_R s)
                       k kw).
  destruct (exhaust split f (seq 0 (length (f_weight s))) []) as [d|e']
    eqn:Hex; cbn [bind].
  - destruct (length (f_weight s)) as [|n] eqn:HK.
    + cbn in Hex. injection Hex as <-. cbn. intros Heq. injection Heq as <-.
      left. split; reflexivity.
    + cbn [seq exhaust] in Hex.
      destruct (f 0%nat) as [c0|e0] eqn:Hf0; [|discriminate].
      cbn [bind] in Hex. rewrite keep_best_first in Hex.
      apply exhaust_split_best in Hex; [|lia].
      destruct Hex as (k & c & -> & _). cbn. discriminate.
  - intros Heq. injection Heq as <-. right.
    apply exhaust_split_raises in Hex.
    destruct Hex as (j & Hj & Hfj & Hbefore).
    exists j. split; [lia|]. split; [exact Hfj|].
    intros i Hi. apply Hbefore. lia.
Qed.

(** X18.  A round of the loop of [fit] in mixture_search splits every
    component in turn and installs the split of least message length, the
    first of those, without comparing it to the message length of the
    current mixture; the message length installed is strictly positive.  The
    round raises only what the first split that raises raised (or
    [ValueError] on a mixture of no component). *)
Theorem search_fit_round_takes_best_split :
  forall (y : mat) (kw : kwds) (s : fit_state),
    let K := length (f_weight s) in
    let split_of k :=
      split_component y (f_mu s) (f_cov s) (f_weight s) (f_R s) k kw in
    match fit_round y kw s with
    | inl s' =>
        exists k c,
          (k < K)%nat /\ split_of k = inl c /\ s' = installed c
          /\ 0 < f_message_length s'
          /\ forall j, (j < K)%nat ->
               exists c', split_of j = inl c'
                          /\ c_ml c <= c_ml c'
                          /\ ((j < k)%nat -> c_ml c < c_ml c')
    | inr e =>
        (K = 0%nat /\ e = ValueError)
        \/ exists j, (j < K)%nat /\ split_of j = inr e
                     /\ forall i, (i < j)%nat -> exists c, split_of i = inl c
    end.
Proof.
  intros y kw s K split_of. unfold fit_round.
  destruct (best_split y kw s) as [r|e] eqn:Hbest; cbn [bind].
  - destruct (best_split_least y kw s r Hbest) as (k & c & -> & Hk & Hsplit & Hall).
    destruct c as [[[[[b_mu b_cov] b_weight] b_R] b_meta] b_ml] eqn:Hc.
    cbn [ret]. eexists k, c. subst c.
    split; [exact Hk|]. split; [exact Hsplit|]. split; [reflexivity|].
    split; [|exact Hall]. cbn [f_message_length].
    apply (search_split_positive _ _ _ _ _ _ _ _ Hsplit).
  - apply best_split_raises. exact Hbest.
Qed.

Lemma fit_round_grows y kw s s' :
  fit_well_formed s -> fit_round y kw s = inl s' ->
  fit_well_formed s' /\ length (f_weight s') = S (length (f_weight s))
  /\ exists m ml, f_meta s' = split_meta m ml /\ 0 < ml.
Proof.
  intros (Hmu & Hcov & HR). unfold fit_round.
  destruct (best_split y kw s) as [r|e] eqn:Hbest; [|discriminate].
  cbn [bind].
  destruct (best_split_least y kw s r Hbest) as (k & c & -> & Hk & Hsplit & _).
  pose proof (search_split_positive _ _ _ _ _ _ _ _ Hsplit) as Hpos.
  apply (search_split_component_size _ _ _ _ _ _ _ _ HR) in Hsplit.
  destruct c as [[[[[b_mu b_cov] b_weight] b_R] b_meta] b_ml].
  destruct Hsplit as (Hs_mu & Hs_cov & Hs_w & Hs_R). cbn in *.
  intros Heq. injection Heq as <-. cbn.
  split; [unfold fit_well_formed; cbn; repeat split; congruence|].
  split; [exact Hs_w|]. eexists _, _. split; [reflexivity | exact Hpos].
Qed.

Lemma fit_loop_result fuel y n kw : forall s,
  fit_well_formed s -> (n <= length (f_weight s) + fuel)%nat ->
  match fit_loop fuel y n kw s with
  | inl None => False
  | inl (Some s') =>
      fit_well_formed s'
      /\ length (f_weight s') = Nat.max (length (f_weight s)) n
      /\ ((n <= length (f_weight s))%nat -> s' = s)
      /\ ((length (f_weight s) < n)%nat ->
          exists m ml, f_meta s' = split_meta m ml /\ 0 < ml)
  | inr _ => True
  end.
Proof.
  induction fuel as [|fuel IH]; intros s Hwf Hfuel; cbn [fit_loop].
  - destruct (Nat.leb_spec n (length (f_weight s))) as [Hle|Hgt]; [|lia].
    cbn. split; [exact Hwf|]. split; [lia|]. split; [reflexivity | lia].
  - destruct (Nat.leb_spec n (length (f_weight s))) as [Hle|Hgt].
    + cbn. split; [exact Hwf|]. split; [lia|]. split; [reflexivity | lia].
    + destruct (fit_round y kw s) as [s1|e] eqn:Hround; [|exact Logic.I].
      cbn [bind].
      destruct (fit_round_grows y kw s s1 Hwf Hround) as (Hwf1 & HK1 & Hmeta1).
      specialize (IH s1 Hwf1). 
      destruct (fit_loop fuel y n kw s1) as [[s'|]|e]; [| |exact Logic.I].
      * destruct IH as (Hwf' & HK' & Hsame & Hmeta'); [lia|].
        split; [exact Hwf'|]. split; [lia|]. split; [lia|].
        intros _. destruct (Nat.leb_spec n (length (f_weight s1))) as [Hle1|Hgt1].
        -- rewrite (Hsame Hle1). exact Hmeta1.
        -- apply Hmeta'. exact Hgt1.
      * apply IH. lia.
Qed.

Lemma search_initialize_shape y kw mu cov weight :
  _initialize y kw = inl (mu, cov, weight) ->
  length mu = 1%nat /\ cov_size cov = 1%nat /\ weight = [1].
Proof.
  unfold _initialize, shape. cbv beta iota zeta.
  destruct (_estimate_covariance_matrix _ _ _ _ _) as [c|e] eqn:Hcov;
    [|discriminate].
  cbn [bind]. intros Heq. injection Heq as <- <- <-.
  apply estimate_covariance_size in Hcov. cbn in Hcov.
  repeat split; assumption.
Qed.

(** X19.  [fit] of mixture_search on a configured instance, asked for
    [num_components], needs no more than [num_components - 1] rounds: when it
    returns, the mixture has [max(1, num_components)] components, in all its
    arrays, and a strictly positive message length; for
    [num_components <= 1] it is the initial mixture (with the [meta] built
    before the loop), otherwise the result of the last split. *)
Theorem search_fit_components :
  forall (fuel : nat) (self : GaussianMixture) (y : mat) (num_components : nat)
         (thr reg : R) (max_it : nat) (ct : string),
    self = {| _threshold := Some thr; _max_em_iterations := Some max_it;
              _covariance_type := Some ct;
              _covariance_regularization := Some reg |} ->
    (num_components <= fuel + 1)%nat ->
    match fit fuel self y num_components with
    | inl None => False
    | inl (Some (mu, cov, weight, meta)) =>
        length weight = Nat.max 1 num_components
        /\ length mu = length weight /\ cov_size cov = length weight
        /\ match meta with
           | initial_meta ll ml => (num_components <= 1)%nat /\ 0 < ml
           | split_meta m ml => (1 < num_components)%nat /\ 0 < ml
           end
    | inr _ => True
    end.
Proof.
  intros fuel self y n thr reg max_it ct -> Hfuel. unfold fit.
  cbn [_threshold _max_em_iterations _covariance_type
       _covariance_regularization].
  set (kw := {| covariance_type := ct; covariance_regularization := reg;
                threshold := thr; max_em_iterations := max_it;
                dofail := false |}).
  destruct (_initialize y kw) as [[[mu cov] weight]|e] eqn:Hinit;
    [|exact Logic.I].
  cbn [bind].
  apply search_initialize_shape in Hinit. destruct Hinit as (Hmu & Hcov & ->).
  destruct (_expectation y mu cov [1] kw) as [[[R0 ll] ml]|e] eqn:Hexp;
    [|exact Logic.I].
  cbn [bind].
  pose proof (search_expectation_rows _ _ _ _ _ _ _ _ Hexp) as HR.
  pose proof (search_expectation_positive _ _ _ _ _ _ _ _ Hexp) as Hpos.
  match goal with
  | |- context [fit_loop fuel y n kw ?s0] =>
      pose proof (fit_loop_result fuel y n kw s0) as Hloop;
      destruct (fit_loop fuel y n kw s0) as [[s'|]|e]
  end; cbn [bind option_map ret]; [| |exact Logic.I].
  - destruct Hloop as (Hwf & HK & Hsame & Hmeta).
    + unfold fit_well_formed. cbn. repeat split; congruence.
    + cbn. lia.
    + cbn [f_weight length] in *. destruct Hwf as (Hmu' & Hcov' & HR').
      split; [exact HK|]. split; [exact Hmu'|]. split; [exact Hcov'|].
      destruct (Nat.leb_spec n 1) as [Hle|Hgt].
      * rewrite (Hsame Hle). cbn. split; assumption.
      * destruct (Hmeta Hgt) as (m & ml' & Hm & Hml). rewrite Hm.
        split; assumption.
  - apply Hloop.
    + unfold fit_well_formed. cbn. repeat split; congruence.
    + cbn. lia.
Qed.

End FitSearch.

Lemma search_example_initialize :
  mixture_search._initialize [[0; 0]] kw_ex
  = inl ([[0; 0]], mixture_search.Diag [[1; 1]], [1]).
Proof.
  unfold mixture_search._initialize, mixture_search._estimate_covariance_matrix,
    shape.
  cbn [mixture_search.covariance_type mixture_search.covariance_regularization
       kw_ex].
  change (String.eqb "diag" "full") with false.
  change (String.eqb "diag" "diag") with true. cbv iota.
  unfold mixture_search._estimate_covariance_matrix_diag, shape, weighted_sum,
    sub_row, sum_axis1, sum_axis0, vsub, vadd, vscale, zeros, ones.
  cbn [bind ret map map2 length ncols combine fold_right np_sum repeat].
  unfold mixture_search.denominator.
  replace (Rltb 1 (1 + 0)) with false
    by (symmetry; apply Rltb_false; lra).
  unfold ret. repeat f_equal; simpl; field.
Qed.

Lemma search_fit_components_witness :
  exists mu cov weight meta,
    @mixture_search.fit backend_1d 0
      {| mixture_search._threshold := Some 1e-5;
         mixture_search._max_em_iterations := Some 100%nat;
         mixture_search._covariance_type := Some "diag"%string;
         mixture_search._covariance_regularization := Some 1 |}
      [[0; 0]] 1
    = inl (Some (mu, cov, weight, meta))
    /\ length weight = 1%nat.
Proof.
  pose proof (@search_fit_components backend_1d 0 _ [[0; 0]] 1 1e-5 1 100 "diag"
                eq_refl (Nat.le_refl 1)) as Hfit.
  revert Hfit. unfold mixture_search.fit.
  cbn [mixture_search._threshold mixture_search._max_em_iterations
       mixture_search._covariance_type
       mixture_search._covariance_regularization].
  fold kw_ex. rewrite search_example_initialize. cbn [bind].
  destruct search_example_expectation as [I0 Hexp]. rewrite Hexp.
  cbn [bind mixture_search.fit_loop mixture_search.f_weight length Nat.leb
       option_map ret].
  intros (HK & _). eexists _, _, _, _. split; [reflexivity | exact HK].
Defined.

(** ** One-dimensional data in mixture_search *)

Section OneDimension.
Context `{Backend}.
Import mixture_search.

Lemma raises_bind {A B : Type} (c : result A) (k : A -> result B) :
  (forall a, c = inl a -> raises (k a)) -> raises (bind c k).
Proof.
  intros Hk. destruct c as [a|e]; cbn [bind].
  - apply Hk. reflexivity.
  - exists e. reflexivity.
Qed.

Lemma raises_bind_l {A B : Type} (c : result A) (k : A -> result B) :
  raises c -> raises (bind c k).
Proof. intros [e ->]. exists e. reflexivity. Qed.

Lemma message_length_one_dimension y mu cov weight responsibility nll kw :
  ncols y = 1%nat ->
  _message_length y mu cov weight responsibility nll kw = inr NameError.
Proof.
  intros HD. unfold _message_length, message_length_terms, shape.
  cbv beta iota zeta. rewrite HD. reflexivity.
Qed.

Lemma expectation_one_dimension y mu cov weight kw :
  ncols y = 1%nat -> raises (_expectation y mu cov weight kw).
Proof.
  intros HD. unfold _expectation. apply raises_bind. intros [R0 ll] _.
  rewrite message_length_one_dimension by exact HD.
  exists NameError. reflexivity.
Qed.

Lemma em_one_dimension y mu cov weight responsibility parent kw :
  ncols y = 1%nat ->
  raises (_expectation_maximization y mu cov weight responsibility parent kw).
Proof.
  intros HD. unfold _expectation_maximization. apply raises_bind_l.
  apply expectation_one_dimension. exact HD.
Qed.

(** X20.  mixture_search does not score one-dimensional data: for [D = 1]
    [_message_length] raises (the name [UnsureError] it raises is not
    defined), and with it [_expectation], [_expectation_maximization], the
    three perturbations and [fit] all raise instead of returning. *)
Theorem search_rejects_one_dimensional_data :
  forall (y : mat),
    ncols y = 1%nat ->
    (forall mu cov weight responsibility nll kw,
        raises (_message_length y mu cov weight responsibility nll kw))
    /\ (forall mu c weight responsibility nll kw,
          c <> [] ->
          _message_length y mu (Diag c) weight responsibility nll kw
          = inr NameError
          /\ _message_length y mu (Full (map np_diag c)) weight responsibility
               nll kw = inr NameError)
    /\ (forall mu cov weight kw, raises (_expectation y mu cov weight kw))
    /\ (forall mu cov weight responsibility parent kw,
          raises (_expectation_maximization y mu cov weight responsibility
                    parent kw))
    /\ (forall mu cov weight responsibility index kw,
          raises (split_component y mu cov weight responsibility index kw)
          /\ raises (delete_component y mu cov weight responsibility index kw)
          /\ raises (merge_component y mu cov weight responsibility index kw))
    /\ (forall fuel self num_components,
          raises (fit fuel self y num_components)).
Proof.
  intros y HD.
  split; [intros; exists NameError; apply message_length_one_dimension;
          exact HD|].
  split; [intros; split; apply message_length_one_dimension; exact HD|].
  split; [intros; apply expectation_one_dimension; exact HD|].
  split; [intros; apply em_one_dimension; exact HD|].
  split.
  - intros mu cov weight responsibility index kw. split; [|split].
    + rewrite split_component_eq. apply raises_bind.
      intros [[[[mu' cov'] weight'] R'] parent] _.
      apply em_one_dimension. exact HD.
    + unfold delete_component.
      destruct (negb _); [exists IndexError; reflexivity|].
      cbv beta iota zeta. unfold delete_perturbation.
      apply em_one_dimension. exact HD.
    + unfold merge_component.
      destruct (negb _); [exists IndexError; reflexivity|].
      apply raises_bind. intros [[[mu' cov'] weight'] R'] _.
      apply em_one_dimension. exact HD.
  - intros fuel self n. unfold fit.
    destruct (_threshold self); [|exists AttributeError; reflexivity].
    destruct (_max_em_iterations self); [|exists AttributeError; reflexivity].
    destruct (_covariance_type self); [|exists AttributeError; reflexivity].
    destruct (_covariance_regularization self);
      [|exists AttributeError; reflexivity].
    cbv zeta. apply raises_bind. intros [[mu cov] weight] _.
    apply raises_bind_l. apply expectation_one_dimension. exact HD.
Qed.

End OneDimension.

Lemma search_rejects_one_dimensional_data_witness :
  raises (@mixture_search._expectation backend_1d [[0]; [1]] [[1 / 2]]
            (mixture_search.Diag [[1]]) [1] kw_ex).
Proof.
  destruct (@search_rejects_one_dimensional_data backend_1d [[0]; [1]] eq_refl)
    as (_ & _ & Hexp & _).
  apply Hexp.
Defined.

(** ** The mixture handed to expectation-maximization by a deletion *)

Section DeleteBounds.



End DeleteBounds.


(** ** The initial mixture *)

Section InitialMixture.

Lemma np_sum_ones n : np_sum (ones n) = INR n.
Proof. unfold ones. rewrite np_sum_repeat. lra. Qed.

(** X22.  On more than one observation and under the full structure,
    [_initialize] of mixture_search returns the one-component mixture that
    [_initialize] of mixture_ka returns (the mean of the data, its sample
    covariance with the divisor [N - 1], the weight 1), with the
    regularization added to the diagonal of the covariance. *)
Theorem initial_mixtures_agree :
  forall (y : mat) (kw : mixture_search.kwds),
    (1 < length y)%nat ->
    mixture_search.covariance_type kw = "full"%string ->
    let '(mean, cov, weight) := mixture_ka._initialize y in
    mixture_search._initialize y kw
    = inl (mean,
           mixture_search.Full
             (map (fun c => madd c (mscale (mixture_search.covariance_regularization kw)
                                           (eye (ncols y)))) cov),
           weight)
    /\ length mean = 1%nat /\ length cov = 1%nat /\ weight = [1].
Proof.
  intros y kw HN Hct.
  unfold mixture_ka._initialize, mixture_search._initialize, shape.
  cbv beta iota zeta.
  unfold mixture_search._estimate_covariance_matrix. rewrite Hct.
  change (String.eqb "full" "full") with true. cbv iota. cbn [bind].
  unfold mixture_search._estimate_covariance_matrix_full, shape, sum_axis1.
  cbn [map combine].
  rewrite np_sum_ones.
  assert (Hden : mixture_search.denominator (INR (length y))
                 = INR (length y) - 1).
  { apply denominator_cases. replace 1 with (INR 1) by reflexivity.
    apply lt_INR. exact HN. }
  rewrite Hden. repeat split.
Qed.

End InitialMixture.

Lemma initial_mixtures_agree_witness :
  exists r,
    mixture_search._initialize [[0; 0]; [2; 4]]
      {| mixture_search.covariance_type := "full";
         mixture_search.covariance_regularization := 0;
         mixture_search.threshold := 1e-5;
         mixture_search.max_em_iterations := 100;
         mixture_search.dofail := false |} = inl r.
Proof.
  assert (HN : (1 < length [[0; 0]; [2; 4]])%nat) by (simpl; lia).
  pose proof (initial_mixtures_agree [[0; 0]; [2; 4]]
                {| mixture_search.covariance_type := "full";
                   mixture_search.covariance_regularization := 0;
                   mixture_search.threshold := 1e-5;
                   mixture_search.max_em_iterations := 100;
                   mixture_search.dofail := false |} HN eq_refl) as Hinit.
  destruct (mixture_ka._initialize [[0; 0]; [2; 4]]) as [[mean cov] weight].
  destruct Hinit as [Hinit _]. eexists. exact Hinit.
Defined.

(** ** Diagonal covariances *)

Section DiagonalPrecision.
Context `{Backend}.
Import mixture_search.

Lemma existsb_nonpositive_true (c : mat) :
  existsb (existsb (fun x => Rleb x 0)) c = true <->
  exists row x, In row c /\ In x row /\ x <= 0.
Proof.
  rewrite existsb_exists. split.
  - intros (row & Hrow & Hex). apply existsb_exists in Hex.
    destruct Hex as (x & Hx & Hle). apply Rleb_true in Hle.
    exists row, x. auto.
  - intros (row & x & Hrow & Hx & Hle). exists row. split; [exact Hrow|].
    apply existsb_exists. exists x. split; [exact Hx|].
    apply Rleb_true. exact Hle.
Qed.

Lemma np_sum_ln_rpower (v : vec) :
  Forall (fun x => 0 < x) v ->
  np_sum (map ln (map (fun x => Rpower x (-0.5)) v)) = -0.5 * np_sum (map ln v).
Proof.
  induction 1 as [|x v Hx Hv IH]; [simpl; lra|].
  cbn [map np_sum fold_right].
  fold (np_sum (map ln (map (fun x => Rpower x (-0.5)) v))).
  fold (np_sum (map ln v)).
  rewrite IH. unfold Rpower. rewrite ln_exp. lra.
Qed.

(** X23.  Under the diagonal structure [_compute_precision_cholesky] raises
    [ValueError] as soon as one variance is not positive; on positive
    variances it returns their inverse square roots, which are positive, and
    [_compute_log_det_cholesky] of those is minus half the sum of the
    logarithms of the variances of each component. *)
Theorem diagonal_precision_cholesky :
  forall (c : mat) (n_features : nat),
    ((exists row x, In row c /\ In x row /\ x <= 0) ->
     _compute_precision_cholesky (Diag c) "diag" = inr ValueError)
    /\ (Forall (Forall (fun x => 0 < x)) c ->
        _compute_precision_cholesky (Diag c) "diag"
        = inl (Diag (map (map (fun x => Rpower x (-0.5))) c))
        /\ Forall (Forall (fun p => 0 < p))
                  (map (map (fun x => Rpower x (-0.5))) c)
        /\ _compute_log_det_cholesky
             (Diag (map (map (fun x => Rpower x (-0.5))) c)) "diag" n_features
           = inl (map (fun v => -0.5 * np_sum (map ln v)) c)).
Proof.
  intros c n. unfold _compute_precision_cholesky.
  change (in_str "diag" "full") with false.
  change (in_str "diag" "diag") with true. cbv iota. split.
  - intros Hbad. apply existsb_nonpositive_true in Hbad. rewrite Hbad.
    reflexivity.
  - intros Hpos. rewrite existsb_nonpositive_false by exact Hpos.
    split; [reflexivity|]. split.
    + apply Forall_forall. intros row Hrow.
      apply in_map_iff in Hrow. destruct Hrow as (v & <- & _).
      apply Forall_forall. intros p Hp.
      apply in_map_iff in Hp. destruct Hp as (x & <- & _).
      unfold Rpower. apply exp_pos.
    + unfold _compute_log_det_cholesky.
      change (String.eqb "diag" "diag") with true. cbv iota.
      unfold ret. f_equal. rewrite map_map.
      apply map_ext_in. intros v Hv. apply np_sum_ln_rpower.
      rewrite Forall_forall in Hpos. apply Hpos. exact Hv.
Qed.

End DiagonalPrecision.

Lemma diagonal_precision_cholesky_witness :
  mixture_search._compute_log_det_cholesky
    (mixture_search.Diag (map (map (fun x => Rpower x (-0.5))) [[1; 4]]))
    "diag" 2
  = inl (map (fun v => -0.5 * np_sum (map ln v)) [[1; 4]]).
Proof.
  destruct (diagonal_precision_cholesky [[1; 4]] 2) as [_ Hok].
  apply Hok. repeat constructor; lra.
Defined.

Section DiagonalOfFull.
Import mixture_search.

Lemma vadd_nth (a b : vec) i :
  (i < length a)%nat -> (i < length b)%nat ->
  nth i (vadd a b) 0 = nth i a 0 + nth i b 0.
Proof. intros Ha Hb. unfold vadd. apply map2_nth; assumption. Qed.

Lemma madd_entry (a b : mat) d i j :
  square d a -> square d b -> (i < d)%nat -> (j < d)%nat ->
  nth j (nth i (madd a b) []) 0 = nth j (nth i a []) 0 + nth j (nth i b []) 0.
Proof.
  intros [Ha Hra] [Hb Hrb] Hi Hj. unfold madd.
  rewrite (map2_nth vadd a b i [] [] []) by lia.
  apply vadd_nth.
  - rewrite (Forall_nth_lt _ a i [] Hra) by lia. exact Hj.
  - rewrite (Forall_nth_lt _ b i [] Hrb) by lia. exact Hj.
Qed.

Lemma madd_square (a b : mat) d : square d a -> square d b -> square d (madd a b).
Proof.
  intros [Ha Hra] [Hb Hrb]. unfold madd. split.
  - apply map2_length_same; assumption.
  - apply Forall_forall. intros row Hrow.
    apply (In_map2 _ _ _ _ [] []) in Hrow.
    destruct Hrow as (i & Hia & Hib & ->). unfold vadd.
    apply map2_length_same.
    + apply (Forall_nth_lt _ a i [] Hra Hia).
    + apply (Forall_nth_lt _ b i [] Hrb Hib).
Qed.

Lemma zeros_square d : square d (repeat (zeros d) d).
Proof.
  split; [apply repeat_length|].
  apply Forall_forall. intros row Hrow. apply repeat_spec in Hrow. subst.
  apply zeros_length.
Qed.

Lemma outer_square (w : R) (o : vec) d :
  length o = d -> square d (outer (vscale w o) o).
Proof.
  intros Ho. unfold outer, vscale. split.
  - rewrite !length_map. exact Ho.
  - apply Forall_forall. intros row Hrow.
    apply in_map_iff in Hrow. destruct Hrow as (x & <- & _).
    rewrite length_map. exact Ho.
Qed.

Lemma outer_entry (w : R) (o : vec) i j :
  (i < length o)%nat -> (j < length o)%nat ->
  nth j (nth i (outer (vscale w o) o) []) 0 = w * nth i o 0 * nth j o 0.
Proof.
  intros Hi Hj. unfold outer, vscale.
  rewrite (@map_nth_lt R vec _ (map (Rmult w) o) i 0 [])
    by (rewrite length_map; exact Hi).
  rewrite (@map_nth_lt R R _ o j 0 0) by exact Hj.
  rewrite (@map_nth_lt R R _ o i 0 0) by exact Hi.
  reflexivity.
Qed.

Lemma scatter_square d (w : vec) (offset : mat) :
  rectangular d offset -> square d (scatter d w offset).
Proof.
  unfold scatter. revert w.
  induction offset as [|o offset IH]; intros w Hrect.
  - destruct w; cbn [map2 fold_right]; apply zeros_square.
  - destruct w as [|wi w]; cbn [map2 fold_right]; [apply zeros_square|].
    pose proof (Forall_inv (P := fun row : vec => length row = d) Hrect) as Ho.
    pose proof (Forall_inv_tail (P := fun row : vec => length row = d) Hrect)
      as Hrest. cbv beta in Ho.
    apply madd_square; [apply outer_square; exact Ho | apply IH; exact Hrest].
Qed.

Lemma weighted_sum_length d (w : vec) (rows : mat) :
  rectangular d rows -> length (weighted_sum d w rows) = d.
Proof.
  unfold weighted_sum. revert w.
  induction rows as [|o rows IH]; intros w Hrect.
  - destruct w; cbn [map2 fold_right]; apply zeros_length.
  - destruct w as [|wi w]; cbn [map2 fold_right]; [apply zeros_length|].
    pose proof (Forall_inv (P := fun row : vec => length row = d) Hrect) as Ho.
    pose proof (Forall_inv_tail (P := fun row : vec => length row = d) Hrect)
      as Hrest. cbv beta in Ho.
    unfold vadd. apply map2_length_same.
    + unfold vscale. rewrite length_map. exact Ho.
    + apply IH. exact Hrest.
Qed.

Lemma rectangular_squares d (offset : mat) :
  rectangular d offset -> rectangular d (map (map (fun x => x ^ 2)) offset).
Proof.
  intros Hrect. apply Forall_forall. intros row Hrow.
  apply in_map_iff in Hrow. destruct Hrow as (o & <- & Ho).
  rewrite length_map. unfold rectangular in Hrect.
  rewrite Forall_forall in Hrect. apply Hrect. exact Ho.
Qed.

(** the diagonal of the scatter matrix is the weighted sum of squares *)
Lemma scatter_diagonal d (w : vec) (offset : mat) i :
  rectangular d offset -> (i < d)%nat ->
  nth i (nth i (scatter d w offset) []) 0
  = nth i (weighted_sum d w (map (map (fun x => x ^ 2)) offset)) 0.
Proof.
  intros Hrect Hi. revert w.
  induction offset as [|o offset IH]; intros w.
  - unfold scatter, weighted_sum. destruct w; cbn [map map2 fold_right];
      rewrite nth_repeat_lt by exact Hi; reflexivity.
  - destruct w as [|wi w].
    + unfold scatter, weighted_sum. cbn [map map2 fold_right].
      rewrite nth_repeat_lt by exact Hi. reflexivity.
    + pose proof (Forall_inv (P := fun row : vec => length row = d) Hrect) as Ho.
    pose proof (Forall_inv_tail (P := fun row : vec => length row = d) Hrect)
      as Hrest. cbv beta in Ho.
      unfold scatter, weighted_sum. cbn [map map2 fold_right].
      fold (scatter d w offset).
      fold (weighted_sum d w (map (map (fun x => x ^ 2)) offset)).
      assert (Hi' : (i < length o)%nat) by (rewrite Ho; exact Hi).
      rewrite (madd_entry _ _ d);
        [|apply outer_square; exact Ho|apply scatter_square; exact Hrest
         |exact Hi|exact Hi].
      rewrite vadd_nth.
      * rewrite IH by exact Hrest. rewrite outer_entry by exact Hi'.
        unfold vscale.
        rewrite (@map_nth_lt R R _ (map (fun x => x ^ 2) o) i 0 0)
          by (rewrite length_map; exact Hi').
        rewrite (@map_nth_lt R R _ o i 0 0) by exact Hi'.
        simpl. ring.
      * unfold vscale. rewrite !length_map. exact Hi'.
      * rewrite weighted_sum_length; [exact Hi|].
        apply rectangular_squares. exact Hrest.
Qed.

Lemma diagonal_nth (m : mat) i :
  (i < length m)%nat -> nth i (diagonal m) 0 = nth i (nth i m []) 0.
Proof.
  intros Hi. unfold diagonal.
  rewrite (@map_nth_lt nat R _ (seq 0 (length m)) i 0%nat 0)
    by (rewrite length_seq; exact Hi).
  rewrite seq_nth by exact Hi. reflexivity.
Qed.

Lemma eye_square d : square d (eye d).
Proof.
  unfold eye. split; [rewrite length_map, length_seq; reflexivity|].
  apply Forall_forall. intros row Hrow.
  apply in_map_iff in Hrow. destruct Hrow as (i & <- & _).
  rewrite length_map, length_seq. reflexivity.
Qed.

Lemma eye_entry d i : (i < d)%nat -> nth i (nth i (eye d) []) 0 = 1.
Proof.
  intros Hi. unfold eye.
  rewrite (@map_nth_lt nat vec _ (seq 0 d) i 0%nat [])
    by (rewrite length_seq; exact Hi).
  rewrite seq_nth by exact Hi. cbn [Nat.add].
  rewrite (@map_nth_lt nat R _ (seq 0 d) i 0%nat 0)
    by (rewrite length_seq; exact Hi).
  rewrite seq_nth by exact Hi. cbn [Nat.add]. rewrite Nat.eqb_refl. reflexivity.
Qed.

Lemma mdiv_square d m c : square d m -> square d (mdiv m c).
Proof.
  intros [Hm Hr]. unfold mdiv. split; [rewrite length_map; exact Hm|].
  apply Forall_forall. intros row Hrow.
  apply in_map_iff in Hrow. destruct Hrow as (r & <- & Hin).
  rewrite length_map. unfold rectangular in Hr.
  rewrite Forall_forall in Hr. apply Hr. exact Hin.
Qed.

Lemma mscale_square d m c : square d m -> square d (mscale c m).
Proof.
  intros [Hm Hr]. unfold mscale, vscale. split; [rewrite length_map; exact Hm|].
  apply Forall_forall. intros row Hrow.
  apply in_map_iff in Hrow. destruct Hrow as (r & <- & Hin).
  rewrite length_map. unfold rectangular in Hr.
  rewrite Forall_forall in Hr. apply Hr. exact Hin.
Qed.

Lemma mdiv_entry d m c i j :
  square d m -> (i < d)%nat -> (j < d)%nat ->
  nth j (nth i (mdiv m c) []) 0 = nth j (nth i m []) 0 / c.
Proof.
  intros [Hm Hr] Hi Hj. unfold mdiv.
  rewrite (@map_nth_lt vec vec _ m i [] []) by lia.
  apply (@map_nth_lt R R (fun x => x / c) (nth i m []) j 0 0).
  rewrite (Forall_nth_lt _ m i [] Hr) by lia. exact Hj.
Qed.

Lemma mscale_entry d m c i j :
  square d m -> (i < d)%nat -> (j < d)%nat ->
  nth j (nth i (mscale c m) []) 0 = c * nth j (nth i m []) 0.
Proof.
  intros [Hm Hr] Hi Hj. unfold mscale, vscale.
  rewrite (@map_nth_lt vec vec _ m i [] []) by lia.
  apply (@map_nth_lt R R (Rmult c) (nth i m []) j 0 0).
  rewrite (Forall_nth_lt _ m i [] Hr) by lia. exact Hj.
Qed.

Lemma sub_row_rectangular d (y : mat) (mu : vec) :
  rectangular d y -> length mu = d -> rectangular d (sub_row y mu).
Proof.
  intros Hy Hmu. unfold sub_row. apply Forall_forall. intros row Hrow.
  apply in_map_iff in Hrow. destruct Hrow as (yi & <- & Hin).
  unfold vsub. apply map2_length_same; [|exact Hmu].
  unfold rectangular in Hy. rewrite Forall_forall in Hy. apply Hy. exact Hin.
Qed.

(** X24.  On data of [D] columns and means of [D] entries, the covariances
    that [_estimate_covariance_matrix_diag] returns are the diagonals of the
    matrices that [_estimate_covariance_matrix_full] returns for the same
    arguments. *)
Theorem diagonal_estimator_is_diagonal_of_full :
  forall (y responsibility mean : mat) (covariance_regularization : R),
    rectangular (ncols y) y ->
    Forall (fun mu => length mu = ncols y) mean ->
    _estimate_covariance_matrix_diag y responsibility mean
      covariance_regularization
    = map diagonal
          (_estimate_covariance_matrix_full y responsibility mean
             covariance_regularization).
Proof.
  intros y R0 mean reg Hy Hmean.
  set (D := ncols y) in *.
  assert (Hlen : length (_estimate_covariance_matrix_diag y R0 mean reg)
                 = length (_estimate_covariance_matrix_full y R0 mean reg)).
  { unfold _estimate_covariance_matrix_diag, _estimate_covariance_matrix_full,
      shape. rewrite !length_map. reflexivity. }
  assert (Hk : length (_estimate_covariance_matrix_full y R0 mean reg)
               = Nat.min (length mean) (length R0)).
  { unfold _estimate_covariance_matrix_full, shape, sum_axis1.
    unfold mat, vec in *. rewrite length_map, !length_combine, length_map. lia. }
  apply nth_ext with (d := []) (d' := []).
  - rewrite length_map. exact Hlen.
  - intros m Hm. rewrite Hlen, Hk in Hm.
    rewrite (@map_nth_lt mat vec diagonal _ m [] []) by (rewrite Hk; exact Hm).
    rewrite estimate_diag_nth, estimate_full_nth by lia.
    fold D.
    set (mu := nth m mean []). set (rm := nth m R0 []).
    assert (Hmu : length mu = D).
    { apply (Forall_nth_lt _ mean m [] Hmean). lia. }
    pose proof (sub_row_rectangular D y mu Hy Hmu) as Hdiff.
    pose proof (scatter_square D rm (sub_row y mu) Hdiff) as Hsq.
    set (full := madd (mdiv (scatter D rm (sub_row y mu))
                            (denominator (np_sum rm)))
                      (mscale reg (eye D))).
    assert (Hfull : square D full).
    { apply madd_square; [apply mdiv_square; exact Hsq|].
      apply mscale_square. apply eye_square. }
    apply nth_ext with (d := 0) (d' := 0).
    + rewrite length_map, weighted_sum_length
        by (apply rectangular_squares; exact Hdiff).
      unfold diagonal. rewrite length_map, length_seq.
      symmetry. apply Hfull.
    + intros i Hi.
      rewrite length_map, weighted_sum_length in Hi
        by (apply rectangular_squares; exact Hdiff).
      rewrite diagonal_nth by (destruct Hfull as [-> _]; exact Hi).
      unfold full.
      rewrite (madd_entry _ _ D)
        by (auto using mdiv_square, mscale_square, eye_square).
      rewrite (mdiv_entry D), (mscale_entry D), eye_entry
        by (auto using eye_square).
      rewrite scatter_diagonal by assumption.
      rewrite (@map_nth_lt R R _ _ i 0 0)
        by (rewrite weighted_sum_length
              by (apply rectangular_squares; exact Hdiff); exact Hi).
      lra.
Qed.

End DiagonalOfFull.

Lemma diagonal_estimator_is_diagonal_of_full_witness :
  mixture_search._estimate_covariance_matrix_diag
    [[0; 0]; [2; 4]] [[1; 1]] [[1; 2]] 0
  = map diagonal
        (mixture_search._estimate_covariance_matrix_full
           [[0; 0]; [2; 4]] [[1; 1]] [[1; 2]] 0).
Proof.
  apply diagonal_estimator_is_diagonal_of_full; repeat constructor.
Defined.

(** ** The approximations of the forecast *)

Section Approximations.
Import mixture_search.

Lemma ln_le_minus_one x : 0 < x -> ln x <= x - 1.
Proof.
  intros Hx. pose proof (exp_ineq1_le (ln x)) as Hexp.
  rewrite exp_ln in Hexp by exact Hx. lra.
Qed.

Lemma np_sum_ln_scaled (w : vec) (k : R) :
  0 < k -> Forall (fun x => 0 < x) w ->
  np_sum (map ln w) + INR (length w) * ln k <= k * np_sum w - INR (length w).
Proof.
  intros Hk. induction 1 as [|x w Hx Hw IH].
  - simpl. lra.
  - cbn [map np_sum fold_right length]. rewrite S_INR.
    fold (np_sum (map ln w)). fold (np_sum w).
    assert (Hkx : 0 < k * x) by (apply Rmult_lt_0_compat; lra).
    pose proof (ln_le_minus_one (k * x) Hkx) as Hln.
    rewrite ln_mult in Hln by lra. lra.
Qed.

(** X25.  [_approximate_sum_log_weights(K)] is an upper bound of the sum of
    the logarithms of [K] mixing weights (positive, summing to 1), and it is
    that sum when the weights are equal. *)
Theorem approximate_sum_log_weights_bound :
  forall (weight : vec),
    weight <> [] -> Forall (fun w => 0 < w) weight -> np_sum weight = 1 ->
    np_sum (map ln weight)
    <= _approximate_sum_log_weights (INR (length weight))
    /\ np_sum (map ln (repeat (/ INR (length weight)) (length weight)))
       = _approximate_sum_log_weights (INR (length weight)).
Proof.
  intros weight Hne Hpos Hsum.
  assert (HK : 0 < INR (length weight)).
  { apply lt_0_INR. destruct weight; [contradiction | simpl; lia]. }
  unfold _approximate_sum_log_weights. split.
  - pose proof (np_sum_ln_scaled weight (INR (length weight)) HK Hpos) as Hb.
    rewrite Hsum in Hb. lra.
  - set (K := length weight) in *. clearbody K.
    assert (Hrep : forall n, np_sum (map ln (repeat (/ INR K) n))
                             = - INR n * ln (INR K)).
    { induction n as [|n IH]; [simpl; lra|].
      cbn [repeat map np_sum fold_right].
      fold (np_sum (map ln (repeat (/ INR K) n))).
      rewrite IH, S_INR, ln_Rinv by exact HK. lra. }
    apply Hrep.
Qed.

(** X26.  [_total_parameters(K, D)] is the count [K/2 (D (D + 3) + 2) - 1]
    of its docstring; for [K >= 1] components in [D >= 1] dimensions it is at
    least 2 and grows strictly with [K], so the logarithm of the ratio of
    two counts that [_approximate_message_length_change] takes is defined
    and positive for a target with more components. *)
Theorem total_parameters_ratio :
  forall (current_K target_K D : nat),
    (1 <= current_K)%nat -> (current_K < target_K)%nat -> (1 <= D)%nat ->
    _total_parameters (INR target_K) (INR D)
    = INR target_K / 2 * (INR D * (INR D + 3) + 2) - 1
    /\ 2 <= _total_parameters (INR current_K) (INR D)
    /\ _total_parameters (INR current_K) (INR D)
       < _total_parameters (INR target_K) (INR D)
    /\ 0 < ln (_total_parameters (INR target_K) (INR D)
               / _total_parameters (INR current_K) (INR D)).
Proof.
  intros K1 K2 D HK1 HK HD.
  apply le_INR in HK1. apply lt_INR in HK. apply le_INR in HD.
  change (INR 1) with 1 in HK1, HD.
  set (k1 := INR K1) in *. set (k2 := INR K2) in *. set (d := INR D) in *.
  unfold _total_parameters.
  assert (Hd : 4 <= d * (d + 3)) by nra.
  assert (Hq1 : 2 <= 0.5 * d * (d + 3) * k1 + (k1 - 1)) by nra.
  assert (Hlt : 0.5 * d * (d + 3) * k1 + (k1 - 1)
                < 0.5 * d * (d + 3) * k2 + (k2 - 1)) by nra.
  split; [lra|]. split; [exact Hq1|]. split; [exact Hlt|].
  remember (0.5 * d * (d + 3) * k1 + (k1 - 1)) as q1 eqn:Eq1.
  remember (0.5 * d * (d + 3) * k2 + (k2 - 1)) as q2 eqn:Eq2.
  rewrite <- ln_1. apply ln_increasing; [lra|].
  apply Rmult_lt_reg_r with q1; [lra|].
  unfold Rdiv. rewrite Rmult_assoc, Rinv_l by lra. lra.
Qed.

End Approximations.

Lemma approximate_sum_log_weights_bound_witness :
  np_sum (map ln [1 / 4; 3 / 4])
  <= mixture_search._approximate_sum_log_weights (INR (length [1 / 4; 3 / 4])).
Proof.
  apply approximate_sum_log_weights_bound.
  - discriminate.
  - repeat constructor; lra.
  - simpl. lra.
Defined.

Lemma total_parameters_ratio_witness :
  0 < ln (mixture_search._total_parameters (INR 3) (INR 2)
          / mixture_search._total_parameters (INR 2) (INR 2)).
Proof.
  destruct (total_parameters_ratio 2 3 2) as (_ & _ & _ & Hln);
    [lia | lia | lia | exact Hln].
Defined.

